(** * Verification of the local background-removal filters

    Shallow embedding of [src/utils/backgroundRemoval.ts] (class
    [BackgroundRemovalAI]): the Sobel edge detector, the border-colour
    segmenter, the morphological opening, the alpha blur, the two
    orchestrations.

    An [ImageData] is a flat [Uint8ClampedArray] of RGBA samples, row-major,
    together with its width and height.  The typed array is a [list Z]
    holding values in [0,255]; index arithmetic is done on [Z] exactly as the
    source does it on numbers.  Loops are folds over the values their
    counter takes, and a loop that only stores is read back as the list of
    its stores ([applyWrites]).

    Numbers that are not integers are binary64 doubles ([float]): the Sobel
    magnitude, the colour distance, the radial alpha.  The blur is the one
    place where [Math.exp] enters; its sums are kept as rationals rounded
    after every operation (section "Edge smoothing").

    The remote client [PhotoroomAPI] and the handlers of the page ([App])
    that call it are embedded as well: the network, the console and the
    object URLs are a state threaded through a small error monad, the hooks
    of the page a record.

    Part I holds the embedding and the vocabulary of the statements, Part II
    the proofs, one section per filter, each closed by the claims settled
    there, Part III further properties of the filters, of the two
    orchestrations, of the client and of the page. *)

From Stdlib Require Import ZArith Lia List Bool String Ascii Sorted.
From Stdlib Require Import Decimal DecimalString Uint63 Floats.
From Stdlib Require Import QArith Qround Lqa.
From stdpp Require Import base tactics list list_numbers.

Local Open Scope Z_scope.

(** * Part I: the embedding *)

(** ** Typed arrays *)

(** Conversion performed by a store of an integral number into a
    [Uint8ClampedArray]. *)
Definition clamp8 (v : Z) : Z := Z.max 0 (Z.min 255 v).

Definition byte (v : Z) : Prop := 0 <= v <= 255.

(** [new Uint8ClampedArray(n)]: [n] zeros. *)
Definition newArray (n : Z) : list Z := replicate (Z.to_nat n) 0.

(** [a[i]].  Outside the array the source reads [undefined] and the model
    returns 0.  On an [ImageData] the filters read inside the array: the
    windows of interior pixels and the border samples are pixels of the
    image ([neighbour_inImage], [blur_neighbour_inImage],
    [edgePixels_inImage]), whose samples are in range ([in_image_index]). *)
Definition load (a : list Z) (i : Z) : Z :=
  if i <? 0 then 0 else default 0 (a !! Z.to_nat i).

(** [a[i] = v].  A typed array ignores a store outside its bounds. *)
Definition store (a : list Z) (i : Z) (v : Z) : list Z :=
  if i <? 0 then a else <[Z.to_nat i := clamp8 v]> a.

Definition len (a : list Z) : Z := Z.of_nat (length a).

(** ** Loops *)

(** [for (let i = lo; i < hi; i++) body] threading the state [s]. *)
Definition for_ {S : Type} (lo hi : Z) (body : Z -> S -> S) (s : S) : S :=
  fold_left (fun s i => body i s) (seqZ lo (hi - lo)) s.

(** The values taken by [i] in [for (let i = 0; i < n; i += 4)]. *)
Definition steps4 (n : Z) : list Z := (fun k => 4 * k) <$> seqZ 0 ((n + 3) / 4).

Definition for4 {S : Type} (n : Z) (body : Z -> S -> S) (s : S) : S :=
  fold_left (fun s i => body i s) (steps4 n) s.

(** A sequence of stores, in program order. *)
Definition applyWrites (ws : list (Z * Z)) (a : list Z) : list Z :=
  fold_left (fun a w => store a (fst w) (snd w)) ws a.

(** The stores of a doubly nested loop over the pixels (x, y) with
    [m <= y < h - m] and [m <= x < w - m], rows outermost. *)
Definition gridWrites (m w h : Z) (W : Z -> Z -> list (Z * Z)) : list (Z * Z) :=
  seqZ m (h - m - m) ≫= (fun y => seqZ m (w - m - m) ≫= (fun x => W x y)).

(** The stores of such a loop when it writes one alpha per pixel. *)
Definition alphaWrites (m w h : Z) (F : Z -> Z -> Z) : list (Z * Z) :=
  gridWrites m w h (fun x y => [((y * w + x) * 4 + 3, F x y)]).

(** ** Images *)

Record ImageData : Type := mkImageData {
  data : list Z;
  width : Z;
  height : Z
}.

(** What the [ImageData] constructor guarantees. *)
Definition wf (img : ImageData) : Prop :=
  0 < width img /\ 0 < height img /\
  len (data img) = 4 * width img * height img /\
  Forall byte (data img).

(** Offset of the first sample of pixel (x, y). *)
Definition pixelIndex (w x y : Z) : Z := (y * w + x) * 4.

Definition inImage (img : ImageData) (x y : Z) : Prop :=
  0 <= x < width img /\ 0 <= y < height img.

(** ** Morphological opening ([morphologicalOperations]) *)

Definition kernel : list (list Z) := [[1; 1; 1]; [1; 1; 1]; [1; 1; 1]].

Definition kernelAt (ky kx : Z) : Z :=
  default 0 (default [] (kernel !! Z.to_nat ky) !! Z.to_nat kx).

Definition truthy (v : Z) : bool := negb (v =? 0).

(** The three stores of the "Copy RGB channels" loop. *)
Definition copyRGB (src : list Z) (dst : list Z) : list Z :=
  for4 (len src) (fun i dst =>
    let dst := store dst i (load src i) in
    let dst := store dst (i + 1) (load src (i + 1)) in
    store dst (i + 2) (load src (i + 2))) dst.

Definition minAlphaAt (src : list Z) (w x y : Z) : Z :=
  for_ 0 3 (fun ky m =>
    for_ 0 3 (fun kx m =>
      if truthy (kernelAt ky kx)
      then Z.min m (load src (((y + ky - 1) * w + (x + kx - 1)) * 4 + 3))
      else m) m) 255.

Definition maxAlphaAt (src : list Z) (w x y : Z) : Z :=
  for_ 0 3 (fun ky m =>
    for_ 0 3 (fun kx m =>
      if truthy (kernelAt ky kx)
      then Z.max m (load src (((y + ky - 1) * w + (x + kx - 1)) * 4 + 3))
      else m) m) 0.

Definition erosion (src : list Z) (w h : Z) (processedData : list Z) : list Z :=
  for_ 1 (h - 1) (fun y pd =>
    for_ 1 (w - 1) (fun x pd =>
      store pd ((y * w + x) * 4 + 3) (minAlphaAt src w x y)) pd) processedData.

Definition copyAll (src : list Z) (dst : list Z) : list Z :=
  for_ 0 (len src) (fun i dst => store dst i (load src i)) dst.

Definition dilation (src : list Z) (w h : Z) (dilatedData : list Z) : list Z :=
  for_ 1 (h - 1) (fun y dd =>
    for_ 1 (w - 1) (fun x dd =>
      store dd ((y * w + x) * 4 + 3) (maxAlphaAt src w x y)) dd) dilatedData.

Definition morphologicalOperations (imageData : ImageData) : ImageData :=
  let d := data imageData in
  let w := width imageData in
  let h := height imageData in
  let processedData := newArray (len d) in
  let processedData := copyRGB d processedData in
  let processedData := erosion d w h processedData in
  let dilatedData := newArray (len processedData) in
  let dilatedData := copyAll processedData dilatedData in
  let dilatedData := dilation processedData w h dilatedData in
  mkImageData dilatedData w h.

(** Alpha of pixel (x, y). *)
Definition alphaAt (img : ImageData) (x y : Z) : Z :=
  load (data img) (pixelIndex (width img) x y + 3).

(** Channel [c] (0, 1, 2 for R, G, B; 3 for A) of pixel (x, y). *)
Definition channelAt (img : ImageData) (x y c : Z) : Z :=
  load (data img) (pixelIndex (width img) x y + c).

Definition isBorder (img : ImageData) (x y : Z) : Prop :=
  x = 0 \/ y = 0 \/ x = width img - 1 \/ y = height img - 1.

Definition isInterior (img : ImageData) (x y : Z) : Prop :=
  1 <= x < width img - 1 /\ 1 <= y < height img - 1.

(** The array after the erosion loop: [processedData]. *)
Definition eroded (img : ImageData) : list Z :=
  erosion (data img) (width img) (height img)
    (copyRGB (data img) (newArray (len (data img)))).

(** A mask whose one-pixel margin is fully transparent. *)
Definition zeroMargin (img : ImageData) : Prop :=
  forall x y, inImage img x y -> ~ isInterior img x y -> alphaAt img x y = 0.

(** Executable form of [wf]. *)
Definition wfb (img : ImageData) : bool :=
  (0 <? width img) && (0 <? height img) &&
  (len (data img) =? 4 * width img * height img) &&
  forallb (fun v => (0 <=? v) && (v <=? 255)) (data img).

(** A [w] x [h] image all of whose pixels are (r, g, b, a). *)
Definition solid (w h r g b a : Z) : ImageData :=
  mkImageData (mjoin (replicate (Z.to_nat (w * h)) [r; g; b; a])) w h.

(** The image [img] with pixel (x, y) replaced by (r, g, b, a). *)
Definition withPixel (img : ImageData) (x y r g b a : Z) : ImageData :=
  let i := pixelIndex (width img) x y in
  mkImageData
    (store (store (store (store (data img) i r) (i + 1) g) (i + 2) b) (i + 3) a)
    (width img) (height img).

(** ** Numbers and strings of the host language *)

(** An integer as a double; exact below 2^53. *)
Definition num (z : Z) : float :=
  if z <? 0 then (- of_uint63 (Uint63.of_Z (- z)))%float
  else of_uint63 (Uint63.of_Z z).

(** Template-literal rendering of an integer. *)
Definition numToString (z : Z) : string := NilZero.string_of_int (Z.to_int z).

(** [Number(s)] on a decimal numeral; [None] stands for NaN. *)
Definition Number (s : string) : option Z := Z.of_int <$> NilZero.int_of_string s.

(** [s.split(sep)] for a one-character separator. *)
Fixpoint splitOn (sep : ascii) (s : string) : list string :=
  match s with
  | EmptyString => [EmptyString]
  | String c r =>
      if Ascii.eqb c sep then EmptyString :: splitOn sep r
      else match splitOn sep r with
           | [] => [String c EmptyString]
           | t :: ts => String c t :: ts
           end
  end.

(** ** Background colour segmenter ([colorSegmentation]) *)

(** [Math.floor(v / 32) * 32] on a sample. *)
Definition quantize (v : Z) : Z := v / 32 * 32.

(** [`${r},${g},${b}`] *)
Definition colorKey (r g b : Z) : string :=
  (numToString r ++ "," ++ numToString g ++ "," ++ numToString b)%string.

(** The histogram key of the pixel whose first sample is at offset [i]. *)
Definition keyAt (d : list Z) (i : Z) : string :=
  let r := quantize (load d i) in
  let g := quantize (load d (i + 1)) in
  let b := quantize (load d (i + 2)) in
  colorKey r g b.

(** A counting object: its own string keys in insertion order, which is the
    order [Object.entries] lists them in (no key here is an array index). *)
Definition Counts : Type := list (string * Z).

(** [counts[key] = (counts[key] || 0) + 1] *)
Fixpoint bump (key : string) (counts : Counts) : Counts :=
  match counts with
  | [] => [(key, 0 + 1)]
  | (k, n) :: rest =>
      if String.eqb k key then (k, n + 1) :: rest else (k, n) :: bump key rest
  end.

(** The global histogram; the source builds it and never reads it. *)
Definition colorCounts (d : list Z) : Counts :=
  for4 (len d) (fun i counts => bump (keyAt d i) counts) [].

(** The two sampling loops: top and bottom rows, then left and right columns. *)
Definition rowSamples (w h : Z) : list Z :=
  for_ 0 w (fun x ep => (ep ++ [0 * w + x]) ++ [(h - 1) * w + x]) [].

Definition columnSamples (w h : Z) (edgePixels : list Z) : list Z :=
  for_ 0 h (fun y ep => (ep ++ [y * w + 0]) ++ [y * w + (w - 1)]) edgePixels.

Definition edgePixels (w h : Z) : list Z := columnSamples w h (rowSamples w h).

Definition edgeColorCounts (d : list Z) (w h : Z) : Counts :=
  fold_left (fun counts pixelIndex => let i := pixelIndex * 4 in bump (keyAt d i) counts)
    (edgePixels w h) [].

(** [.sort(([,a], [,b]) => b - a)]: the stable sort by decreasing count. *)
Fixpoint insertDesc (e : string * Z) (sorted : Counts) : Counts :=
  match sorted with
  | [] => [e]
  | e' :: rest =>
      if snd e <? snd e' then e' :: insertDesc e rest else e :: sorted
  end.

Definition sortDesc (entries : Counts) : Counts := foldr insertDesc [] entries.

Definition sortedEdgeColors (d : list Z) (w h : Z) : list string :=
  fst <$> take 3 (sortDesc (edgeColorCounts d w h)).

(** A [Set<string>] in insertion order. *)
Definition setHas (s : list string) (key : string) : bool :=
  existsb (String.eqb key) s.

Definition setAdd (s : list string) (key : string) : list string :=
  if setHas s key then s else s ++ [key].

Definition backgroundColors (d : list Z) (w h : Z) : list string :=
  fold_left setAdd (sortedEdgeColors d w h) [].

(** [bgColor.split(',').map(Number)] *)
Definition parseColor (bgColor : string) : list (option Z) :=
  Number <$> splitOn "," bgColor.

(** [colorDistance < 80] for the quantized (r, g, b) against one background
    colour.  The squares and their sum are exact in doubles; a component
    that is missing or NaN makes the comparison false. *)
Definition closeTo (r g b : Z) (bgColor : string) : bool :=
  match parseColor bgColor with
  | Some bgR :: Some bgG :: Some bgB :: _ =>
      let colorDistance :=
        sqrt (num ((r - bgR) ^ 2 + (g - bgG) ^ 2 + (b - bgB) ^ 2)) in
      (colorDistance <? 80)%float
  | _ => false
  end.

(** The decision taken for the pixel at offset [i]. *)
Definition isBackgroundAt (d : list Z) (bg : list string) (i : Z) : bool :=
  let r := quantize (load d i) in
  let g := quantize (load d (i + 1)) in
  let b := quantize (load d (i + 2)) in
  let key := colorKey r g b in
  let isBackground := setHas bg key in
  if negb isBackground then existsb (closeTo r g b) bg else isBackground.

Definition maskLoop (d : list Z) (bg : list string) (segmentedData : list Z) : list Z :=
  for4 (len d) (fun i sd =>
    let sd := store sd i (load d i) in
    let sd := store sd (i + 1) (load d (i + 1)) in
    let sd := store sd (i + 2) (load d (i + 2)) in
    store sd (i + 3) (if isBackgroundAt d bg i then 0 else 255)) segmentedData.

Definition colorSegmentation (imageData : ImageData) : ImageData :=
  let d := data imageData in
  let w := width imageData in
  let h := height imageData in
  let segmentedData := newArray (len d) in
  let colorCounts := colorCounts d in
  let backgroundColors := backgroundColors d w h in
  let segmentedData := maskLoop d backgroundColors segmentedData in
  mkImageData segmentedData w h.

(* Decimal literals such as 0.6 denote the nearest double, as in the source. *)
Set Warnings "-inexact-float".

(** ** Doubles stored into a clamped byte array *)

(** The integer nearest to m * 2^e (m >= 0), ties to even. *)
Definition roundHalfEven (m e : Z) : Z :=
  if 0 <=? e then m * 2 ^ e
  else
    let d := 2 ^ (- e) in
    let f := m / d in
    let r2 := 2 * (m mod d) in
    if r2 <? d then f
    else if d <? r2 then f + 1
    else if Z.even f then f else f + 1.

(** ToUint8Clamp: NaN gives 0, the value is clamped to [0,255] and rounded
    to the nearest integer, ties to even. *)
Definition toUint8Clamp (x : float) : Z :=
  match Prim2SF x with
  | S754_nan => 0
  | S754_zero _ => 0
  | S754_infinity s => if s then 0 else 255
  | S754_finite s m e => if s then 0 else Z.min 255 (roundHalfEven (Z.pos m) e)
  end.

(** [a[i] = x] for a double [x]. *)
Definition storeF (a : list Z) (i : Z) (x : float) : list Z :=
  store a i (toUint8Clamp x).

(** [Math.min] and [Math.max] on two numbers (a NaN operand gives NaN). *)
Definition jsMin (a b : float) : float :=
  if is_nan a || is_nan b then nan else if (a <? b)%float then a else b.

Definition jsMax (a b : float) : float :=
  if is_nan a || is_nan b then nan else if (a <? b)%float then b else a.

(** ** Edge detector ([detectEdges]) *)

Definition sobelX : list Z := [-1; 0; 1; -2; 0; 2; -1; 0; 1].
Definition sobelY : list Z := [-1; -2; -1; 0; 0; 0; 1; 2; 1].

Definition coefficient (k : list Z) (i : Z) : float :=
  num (default 0 (k !! Z.to_nat i)).

(** Unweighted average of the three colour samples at offset [pixelIndex]. *)
Definition grayAt (d : list Z) (pixelIndex : Z) : float :=
  (num (load d pixelIndex + load d (pixelIndex + 1) + load d (pixelIndex + 2)) / 3)%float.

(** The pair (pixelX, pixelY) accumulated over the 3x3 window of (x, y). *)
Definition sobelAt (d : list Z) (w x y : Z) : float * float :=
  for_ 0 9 (fun i acc =>
    let xOffset := i mod 3 - 1 in
    let yOffset := i / 3 - 1 in
    let pixelIndex := ((y + yOffset) * w + (x + xOffset)) * 4 in
    let gray := grayAt d pixelIndex in
    ((fst acc + gray * coefficient sobelX i)%float,
     (snd acc + gray * coefficient sobelY i)%float)) (0%float, 0%float).

Definition magnitudeAt (d : list Z) (w x y : Z) : float :=
  let pixelX := fst (sobelAt d w x y) in
  let pixelY := snd (sobelAt d w x y) in
  sqrt (pixelX * pixelX + pixelY * pixelY).

Definition detectEdges (imageData : ImageData) : ImageData :=
  let d := data imageData in
  let w := width imageData in
  let h := height imageData in
  let edgeData := newArray (len d) in
  let edgeData :=
    for_ 1 (h - 1) (fun y ed =>
      for_ 1 (w - 1) (fun x ed =>
        let magnitude := magnitudeAt d w x y in
        let pixelIndex := (y * w + x) * 4 in
        let ed := storeF ed pixelIndex magnitude in
        let ed := storeF ed (pixelIndex + 1) magnitude in
        let ed := storeF ed (pixelIndex + 2) magnitude in
        store ed (pixelIndex + 3) 255) ed) edgeData in
  mkImageData edgeData w h.

(** ** Simple radial fallback (the pixel loop of [processImageSimple]) *)

Definition isEdgePixel (w h x y : Z) : bool :=
  (x <? 10) || (w - 10 <? x) || (y <? 10) || (h - 10 <? y).

(** The alpha chosen from the normalized distance to the centre. *)
Definition radialAlpha (normalizedDistance : float) : float :=
  if (0.6 <? normalizedDistance)%float
  then jsMax 0 (255 * (1 - (normalizedDistance - 0.6) / 0.4))%float
  else 255%float.

(** The cap applied to pixels of the edge band. *)
Definition capAlpha (alpha : float) (isEdge : bool) : float :=
  if isEdge then jsMin alpha 50 else alpha.

Definition normalizedDistanceAt (w h x y : Z) : float :=
  let centerX := (num w / 2)%float in
  let centerY := (num h / 2)%float in
  let maxDistance := sqrt (centerX * centerX + centerY * centerY) in
  let distance :=
    sqrt ((num x - centerX) * (num x - centerX)
          + (num y - centerY) * (num y - centerY))%float in
  (distance / maxDistance)%float.

(** The number assigned to [data[pixelIndex + 3]] for pixel (x, y). *)
Definition simpleAlphaAt (w h x y : Z) : float :=
  capAlpha (radialAlpha (normalizedDistanceAt w h x y)) (isEdgePixel w h x y).

(** The loop mutates the alpha samples of the image it was given. *)
Definition radialMask (imageData : ImageData) : ImageData :=
  let w := width imageData in
  let h := height imageData in
  let d :=
    for_ 0 h (fun y d =>
      for_ 0 w (fun x d =>
        let pixelIndex := (y * w + x) * 4 in
        storeF d (pixelIndex + 3) (simpleAlphaAt w h x y)) d) (data imageData) in
  mkImageData d w h.

(** ** Edge smoothing ([refineEdges]) *)

(** The sums of the blur are sums of doubles.  Their values are kept as exact
    rationals, every arithmetic result passing through [rnd], the rounding
    to a double; the weight [Math.exp(-(distance * distance) / (2 *
    blurRadius * blurRadius))], whose last bits the language leaves to the
    host, is [weightOf distance]. *)

Definition blurRadius : Z := 2.

(** The offset's distance to the centre, as the source computes it. *)
Definition offsetDistance (dx dy : Z) : float := sqrt (num (dx * dx + dy * dy)).

(** [distance <= blurRadius] *)
Definition inKernel (dx dy : Z) : bool :=
  (offsetDistance dx dy <=? num blurRadius)%float.

(** [Math.round] *)
Definition mathRound (q : Q) : Z := Qfloor (q + (1 # 2))%Q.

(** Unit roundoff of a double. *)
Definition unitRoundoff : Q := (1 # 9007199254740992)%Q.

(** One in-kernel sample entering the two running sums. *)
Definition accumulate (rnd : Q -> Q) (acc : Q * Q) (alpha : Z) (weight : Q) : Q * Q :=
  (rnd (fst acc + rnd (inject_Z alpha * weight))%Q, rnd (snd acc + weight)%Q).

(** The pair (alphaSum, weightSum) for pixel (x, y). *)
Definition blurSums (rnd : Q -> Q) (weightOf : float -> Q)
    (d : list Z) (w x y : Z) : Q * Q :=
  for_ (- blurRadius) (blurRadius + 1) (fun dy acc =>
    for_ (- blurRadius) (blurRadius + 1) (fun dx acc =>
      let distance := offsetDistance dx dy in
      if inKernel dx dy then
        let weight := weightOf distance in
        let pixelIndex := ((y + dy) * w + (x + dx)) * 4 in
        accumulate rnd acc (load d (pixelIndex + 3)) weight
      else acc) acc) (0%Q, 0%Q).

(** [Math.round(alphaSum / weightSum)] *)
Definition smoothedAlpha (rnd : Q -> Q) (weightOf : float -> Q)
    (d : list Z) (w x y : Z) : Z :=
  let sums := blurSums rnd weightOf d w x y in
  mathRound (rnd (fst sums / snd sums)%Q).

Definition refineEdges (rnd : Q -> Q) (weightOf : float -> Q)
    (imageData : ImageData) : ImageData :=
  let d := data imageData in
  let w := width imageData in
  let h := height imageData in
  let refinedData := newArray (len d) in
  let refinedData := copyAll d refinedData in
  let refinedData :=
    for_ blurRadius (h - blurRadius) (fun y rd =>
      for_ blurRadius (w - blurRadius) (fun x rd =>
        let currentIndex := (y * w + x) * 4 in
        store rd (currentIndex + 3) (smoothedAlpha rnd weightOf d w x y)) rd)
      refinedData in
  mkImageData refinedData w h.

(** The offsets (dx, dy) of the kernel, in the order the loops visit them. *)
Definition kernelOffsets : list (Z * Z) :=
  [(0, -2);
   (-1, -1); (0, -1); (1, -1);
   (-2, 0); (-1, 0); (0, 0); (1, 0); (2, 0);
   (-1, 1); (0, 1); (1, 1);
   (0, 2)].

(** The pixels the blur leaves alone and those it recomputes. *)
Definition inBlurMargin (img : ImageData) (x y : Z) : Prop :=
  ~ (2 <= x < width img - 2 /\ 2 <= y < height img - 2).

Definition isProcessed (img : ImageData) (x y : Z) : Prop :=
  2 <= x < width img - 2 /\ 2 <= y < height img - 2.

(** Exact arithmetic and a rational stand-in for the Gaussian weight
    (1, 7/8, 3/4, 1/2 at squared distance 0, 1, 2, 4), for running the blur. *)
Definition exactRnd (q : Q) : Q := q.

Definition sampleWeight (distance : float) : Q :=
  if (distance <? 0.5)%float then 1%Q
  else if (distance <? 1.2)%float then (7 # 8)%Q
  else if (distance <? 1.7)%float then (3 # 4)%Q
  else (1 # 2)%Q.

(** ** Main pipeline ([processImage]) *)

(** What the host's image loader reports after [img.src] is assigned: the
    decoded pixels ([onload]) or a failure ([onerror]). *)
Inductive LoadEvent : Type :=
  | OnLoad (pixels : ImageData)
  | OnError.

(** [canvas.toDataURL('image/png')]: a lossless encoding of the canvas. *)
Inductive DataUrl : Type := PngOf (pixels : ImageData).

Inductive Settlement : Type :=
  | Fulfilled (dataUrl : DataUrl)
  | Rejected (message : string).

(** The instance's canvas, the console, the loads requested and the promise
    returned to the caller. *)
Record World : Type := mkWorld {
  canvas : option ImageData;
  console : list string;
  requests : list string;
  promise : option Settlement
}.

(** [resolve] and [reject] settle a pending promise and are ignored after. *)
Definition settle (s : Settlement) (wd : World) : World :=
  match promise wd with
  | Some _ => wd
  | None => mkWorld (canvas wd) (console wd) (requests wd) (Some s)
  end.

Definition consoleLog (msg : string) (wd : World) : World :=
  mkWorld (canvas wd) (console wd ++ [msg]) (requests wd) (promise wd).

Definition draw (pixels : ImageData) (wd : World) : World :=
  mkWorld (Some pixels) (console wd) (requests wd) (promise wd).

(** [ctx.getImageData(0, 0, w, h)] throws on an empty rectangle. *)
Definition getImageData (wd : World) : string + ImageData :=
  match canvas wd with
  | Some px =>
      if (width px <=? 0) || (height px <=? 0) then inl "IndexSizeError"%string
      else inr px
  | None => inl "IndexSizeError"%string
  end.

(** The executor: handlers are installed, then the load is requested. *)
Definition requestImage (imageUrl : string) (wd : World) : World :=
  mkWorld (canvas wd) (console wd) (requests wd ++ [imageUrl]) (promise wd).

(** The [onload] handler of [processImage], with its try/catch. *)
Definition onloadHandler (rnd : Q -> Q) (weightOf : float -> Q)
    (img : ImageData) (wd : World) : World :=
  let wd := draw img wd in
  match getImageData wd with
  | inl error => settle (Rejected error) wd
  | inr imageData =>
      let wd := consoleLog "Step 1: Color segmentation..." wd in
      let segmented := colorSegmentation imageData in
      let wd := consoleLog "Step 2: Morphological operations..." wd in
      let morphed := morphologicalOperations segmented in
      let wd := consoleLog "Step 3: Edge refinement..." wd in
      let refined := refineEdges rnd weightOf morphed in
      let wd := draw refined wd in
      settle (Fulfilled (PngOf refined)) wd
  end.

Definition onerrorHandler (wd : World) : World :=
  settle (Rejected "Failed to load image") wd.

(** One call of [processImage]: the request, then the event the loader fires. *)
Definition processImage (rnd : Q -> Q) (weightOf : float -> Q)
    (imageUrl : string) (ev : LoadEvent) (wd : World) : World :=
  let wd := mkWorld (canvas wd) (console wd) (requests wd) None in
  let wd := requestImage imageUrl wd in
  match ev with
  | OnLoad img => onloadHandler rnd weightOf img wd
  | OnError => onerrorHandler wd
  end.

(** The three filters in sequence. *)
Definition pipeline (rnd : Q -> Q) (weightOf : float -> Q) (img : ImageData) : ImageData :=
  refineEdges rnd weightOf (morphologicalOperations (colorSegmentation img)).

Definition freshWorld : World := mkWorld None [] [] None.

(** ** Vocabulary of the statements *)

(** *** Sample images *)

(** A 5x5 grey image, opaque but for a transparent pixel at (3, 1). *)
Definition speck5x5 : ImageData := withPixel (solid 5 5 90 90 90 255) 3 1 90 90 90 0.

(** The 4x4 uniform white image. *)
Definition white4x4 : ImageData := solid 4 4 255 255 255 255.

(** Grey (96,96,96) 3x3 image whose centre pixel is (63,63,63). *)
Definition greyDot3x3 : ImageData :=
  withPixel (solid 3 3 96 96 96 255) 1 1 63 63 63 255.

(** Black 3x3 image whose centre pixel is (95,0,0). *)
Definition redDot3x3 : ImageData :=
  withPixel (solid 3 3 0 0 0 255) 1 1 95 0 0 255.


(** A 200x200 opaque black image. *)
Definition black200 : ImageData := solid 200 200 0 0 0 255.

(** A 5x5 image with alphas 0 and 255 in a checkerboard. *)
Definition checker5x5 : ImageData :=
  mkImageData
    (mjoin ((fun p => [10; 20; 30; if Z.even p then 255 else 0]) <$> seqZ 0 25)) 5 5.

(** *** Border sampling and the border histogram *)

(** Number of times pixel [p] was pushed to a sample list. *)
Definition occurrences (p : Z) (samples : list Z) : nat :=
  count_occ Z.eq_dec samples p.

(** The samples pushed by the second loop alone. *)
Definition columnOnly (w h : Z) : list Z := columnSamples w h [].

(** The four scans of the sampling loops, each taken alone. *)
Definition topScan (w : Z) : list Z := (fun x => 0 * w + x) <$> seqZ 0 (w - 0).
Definition bottomScan (w h : Z) : list Z := (fun x => (h - 1) * w + x) <$> seqZ 0 (w - 0).
Definition leftScan (w h : Z) : list Z := (fun y => y * w + 0) <$> seqZ 0 (h - 0).
Definition rightScan (w h : Z) : list Z := (fun y => y * w + (w - 1)) <$> seqZ 0 (h - 0).

(** Pixel index of a corner: left or right, top or bottom. *)
Definition corner (w h : Z) (right bottom : bool) : Z :=
  (if bottom then h - 1 else 0) * w + (if right then w - 1 else 0).

(** The count recorded for [key] in a counting object. *)
Fixpoint countOf (key : string) (counts : Counts) : Z :=
  match counts with
  | [] => 0
  | (k, n) :: rest => if String.eqb k key then n else countOf key rest
  end.

(** Number of border samples whose pixel has histogram key [key]. *)
Definition borderWeight (d : list Z) (w h : Z) (key : string) : Z :=
  Z.of_nat (count_occ string_dec ((fun p => keyAt d (p * 4)) <$> edgePixels w h) key).


#[global] Instance string_eq_decision : EqDecision string := string_dec.

(** *** Colours and the classification *)

(** Colours as triples. *)
Definition Color : Type := (Z * Z * Z)%type.

Definition rawColorAt (d : list Z) (i : Z) : Color :=
  (load d i, load d (i + 1), load d (i + 2)).

Definition quantizedColorAt (d : list Z) (i : Z) : Color :=
  (quantize (load d i), quantize (load d (i + 1)), quantize (load d (i + 2))).

Definition colorEqb (c1 c2 : Color) : bool :=
  let '(r1, g1, b1) := c1 in
  let '(r2, g2, b2) := c2 in
  (r1 =? r2) && (g1 =? g2) && (b1 =? b2).

(** Squared Euclidean distance in RGB space. *)
Definition dist2 (c1 c2 : Color) : Z :=
  let '(r1, g1, b1) := c1 in
  let '(r2, g2, b2) := c2 in
  (r1 - r2) ^ 2 + (g1 - g2) ^ 2 + (b1 - b2) ^ 2.

(** The colour a histogram key stands for. *)
Definition keyColor (key : string) : option Color :=
  match parseColor key with
  | Some r :: Some g :: Some b :: _ => Some (r, g, b)
  | _ => None
  end.

(** The background buckets as colours. *)
Definition bucketColors (d : list Z) (w h : Z) : list Color :=
  omap keyColor (backgroundColors d w h).

(** The classification the source computes: some bucket lies at distance
    below 80 (squared: below 6400) of the pixel's quantized colour; an exact
    match is the case of distance 0. *)
Definition quantizedBackground (d : list Z) (w h i : Z) : bool :=
  existsb (fun bucket =>
             colorEqb bucket (quantizedColorAt d i)
             || (dist2 (quantizedColorAt d i) bucket <? 6400))
    (bucketColors d w h).

(** The classification as the specification words it: an exact match of the
    quantized colour, or a bucket at distance below 80 of the raw colour. *)
Definition claimedBackground (d : list Z) (w h i : Z) : bool :=
  existsb (fun bucket => colorEqb bucket (quantizedColorAt d i)) (bucketColors d w h)
  || existsb (fun bucket => dist2 (rawColorAt d i) bucket <? 6400) (bucketColors d w h).


(** Exhaustive checks over the quantized values. *)
Definition keysParseBack : bool :=
  forallb (fun a => forallb (fun b => forallb (fun c =>
    bool_decide (parseColor (colorKey (32 * a) (32 * b) (32 * c))
                 = [Some (32 * a); Some (32 * b); Some (32 * c)]))
    (seqZ 0 8)) (seqZ 0 8)) (seqZ 0 8).


(** *** Edge detector and radial fallback *)

(** The stores of a loop over a pixel grid that writes all four channels,
    channel [c] of pixel (x, y) receiving [F c x y]. *)
Definition rgbaWrites (m w h : Z) (F : Z -> Z -> Z -> Z) : list (Z * Z) :=
  gridWrites m w h (fun x y =>
    [((y * w + x) * 4, F 0 x y); ((y * w + x) * 4 + 1, F 1 x y);
     ((y * w + x) * 4 + 2, F 2 x y); ((y * w + x) * 4 + 3, F 3 x y)]).

(** What [detectEdges] stores in channel [c] of an interior pixel. *)
Definition edgeSample (d : list Z) (w c x y : Z) : Z :=
  if c =? 3 then 255 else toUint8Clamp (magnitudeAt d w x y).

(** Distance of pixel (x, y) to the nearest side of a [w] x [h] image,
    counted in pixels: 0 on the first and last column and row, 1 next to
    them. *)
Definition pixelEdgeDistance (w h x y : Z) : Z :=
  Z.min (Z.min x (w - 1 - x)) (Z.min y (h - 1 - y)).

(** The pixels of a [w] x [h] image whose normalized distance to the centre
    is exactly 1.0, rows outermost. *)
Definition unitDistancePixels (w h : Z) : list (Z * Z) :=
  seqZ 0 h ≫= (fun y => seqZ 0 w ≫= (fun x =>
    if (normalizedDistanceAt w h x y =? 1)%float then [(x, y)] else [])).

(** *** Error analysis of the blur *)

(** The standard model of rounding to nearest: a relative error of at most
    the unit roundoff on a non-negative result. *)
Definition roundsToNearest (rnd : Q -> Q) : Prop :=
  forall q, (0 <= q)%Q ->
    ((1 - unitRoundoff) * q <= rnd q)%Q /\ (rnd q <= (1 + unitRoundoff) * q)%Q.

(** The in-kernel samples (alpha, weight) of pixel (x, y), in loop order. *)
Definition blurSamples (weightOf : float -> Q) (d : list Z) (w x y : Z) : list (Z * Q) :=
  (fun o => (load d (((y + snd o) * w + (x + fst o)) * 4 + 3),
             weightOf (offsetDistance (fst o) (snd o)))) <$> kernelOffsets.

(** Running the two sums over a list of samples. *)
Definition accumulateAll (rnd : Q -> Q) (samples : list (Z * Q)) (acc : Q * Q) : Q * Q :=
  fold_left (fun acc s => accumulate rnd acc (fst s) (snd s)) samples acc.

(** Accuracy lost by one accumulation step of the blur, from below and from
    above, and after [n] steps starting from the factor [c]. *)
Definition kappaLow : Q :=
  ((1 - unitRoundoff) * (1 - unitRoundoff) / (1 + unitRoundoff))%Q.

Definition kappaHigh : Q :=
  ((1 + unitRoundoff) * (1 + unitRoundoff) / (1 - unitRoundoff))%Q.

Fixpoint drift (k : Q) (n : nat) (c : Q) : Q :=
  match n with
  | O => c
  | S n' => drift k n' (k * c)%Q
  end.

(** What the two running sums satisfy after some samples with alphas in
    [lo, hi]: their quotient lies in [cl * lo, ch * hi]. *)
Definition blurInv (lo hi cl ch : Q) (acc : Q * Q) : Prop :=
  (0 <= snd acc /\ 0 <= fst acc /\
   cl * lo * snd acc <= fst acc /\ fst acc <= ch * hi * snd acc)%Q.


(** *** Totals of the histograms *)

(** Sum of the counts of a counting object. *)
Definition countTotal (counts : Counts) : Z :=
  foldr (fun e total => snd e + total) 0 counts.

(** *** The edge detector on a flat window *)

(** The accumulation of [detectEdges] over a window whose nine pixels have
    the same grey value. *)
Definition flatSobel (gray : float) : float * float :=
  for_ 0 9 (fun i acc =>
    ((fst acc + gray * coefficient sobelX i)%float,
     (snd acc + gray * coefficient sobelY i)%float)) (0%float, 0%float).

Definition flatMagnitude (gray : float) : float :=
  let pixelX := fst (flatSobel gray) in
  let pixelY := snd (flatSobel gray) in
  sqrt (pixelX * pixelX + pixelY * pixelY).

(** Exhaustive check over the sums R + G + B of three bytes: the magnitude
    of a flat window is stored as 0. *)
Definition flatWindowsVanish : bool :=
  forallb (fun s => toUint8Clamp (flatMagnitude (num s / 3)) =? 0) (seqZ 0 766).

(** ** Simple radial fallback ([processImageSimple]) *)

(** The [onload] handler of [processImageSimple], with its try/catch: the
    mask is written into the pixels read from the canvas, which are then put
    back and encoded.  Nothing is logged. *)
Definition onloadHandlerSimple (img : ImageData) (wd : World) : World :=
  let wd := draw img wd in
  match getImageData wd with
  | inl error => settle (Rejected error) wd
  | inr imageData =>
      let imageData := radialMask imageData in
      let wd := draw imageData wd in
      settle (Fulfilled (PngOf imageData)) wd
  end.

(** One call of [processImageSimple]: the request, then the event the
    loader fires. *)
Definition processImageSimple (imageUrl : string) (ev : LoadEvent) (wd : World) : World :=
  let wd := mkWorld (canvas wd) (console wd) (requests wd) None in
  let wd := requestImage imageUrl wd in
  match ev with
  | OnLoad img => onloadHandlerSimple img wd
  | OnError => onerrorHandler wd
  end.

(** A decoded image with no pixels. *)
Definition emptyImage (img : ImageData) : Prop := width img <= 0 \/ height img <= 0.

(** ** The remote service ([PhotoroomAPI]) *)

(** The class talks to the network, the console and the registry of object
    URLs.  Those are threaded as a state; a rejected promise or a thrown
    error ends the computation with that error, unless a [try] catches it. *)

(** A thrown value: an error object with its name and message. *)
Record JsError : Type := mkJsError { errorName : string; message : string }.

(** [new Error(message)] *)
Definition newError (message : string) : JsError := mkJsError "Error" message.

Record Blob : Type := mkBlob { blobType : string; blobBytes : list Z }.

Record File : Type := mkFile { fileName : string; fileType : string; fileBytes : list Z }.

(** [new File([blob], name, { type })] *)
Definition newFile (blob : Blob) (name type : string) : File :=
  mkFile name type (blobBytes blob).

Inductive FormValue : Type :=
  | FormFile (file : File)
  | FormText (text : string).

Record Request : Type := mkRequest {
  requestUrl : string;
  requestMethod : string;
  requestHeaders : list (string * string);
  requestBody : list (string * FormValue)
}.

(** A response: its status, and what reading its body as text or as a blob
    settles to. *)
Record Response : Type := mkResponse {
  ok : bool;
  status : Z;
  text : JsError + string;
  blob : JsError + Blob
}.

(** The host: what [fetch] settles to, given every request sent so far (the
    last one being the one asked), and the URL minted for the n-th blob. *)
Record Host : Type := mkHost {
  reply : list Request -> JsError + Response;
  urlOf : nat -> string
}.

Record Net : Type := mkNet {
  sent : list Request;
  consoleErrors : list (string * JsError);
  objectUrls : list Blob
}.

Definition M (A : Type) : Type := Net -> Net * (JsError + A).

Definition ret {A : Type} (a : A) : M A := fun net => (net, inr a).

Definition throw {A : Type} (error : JsError) : M A := fun net => (net, inl error).

Definition bind {A B : Type} (m : M A) (k : A -> M B) : M B :=
  fun net =>
    match m net with
    | (net', inl error) => (net', inl error)
    | (net', inr a) => k a net'
    end.

(** [try { body } catch (error) { handler }] *)
Definition tryCatch {A : Type} (body : M A) (handler : JsError -> M A) : M A :=
  fun net =>
    match body net with
    | (net', inl error) => handler error net'
    | (net', inr a) => (net', inr a)
    end.

(** [await] of a promise that settles to [settled]. *)
Definition await {A : Type} (settled : JsError + A) : M A := fun net => (net, settled).

Notation "'let!' x ':=' m 'in' k" := (bind m (fun x => k))
  (at level 10, x name, m at level 100, k at level 200).

Notation "m ';;;' k" := (bind m (fun _ => k))
  (at level 100, k at level 200, right associativity).

Definition fetch (host : Host) (request : Request) : M Response :=
  fun net =>
    let net := mkNet (sent net ++ [request]) (consoleErrors net) (objectUrls net) in
    (net, reply host (sent net)).

Definition consoleError (label : string) (error : JsError) : M unit :=
  fun net => (mkNet (sent net) (consoleErrors net ++ [(label, error)]) (objectUrls net), inr tt).

(** [URL.createObjectURL(blob)] *)
Definition createObjectURL (host : Host) (blob : Blob) : M string :=
  fun net =>
    (mkNet (sent net) (consoleErrors net) (objectUrls net ++ [blob]),
     inr (urlOf host (length (objectUrls net)))).

Definition baseUrl : string := "https://sdk.photoroom.com/v1/segment".

(** The request built by [removeBackground]. *)
Definition apiRequest (apiKey : string) (imageFile : File) : Request :=
  let formData := [] in
  let formData := formData ++ [("image_file"%string, FormFile imageFile)] in
  let formData := formData ++ [("format"%string, FormText "PNG")] in
  mkRequest baseUrl "POST" [("X-Api-Key"%string, apiKey)] formData.

Definition removeBackground (host : Host) (apiKey : string) (imageFile : File) : M string :=
  tryCatch
    (let! response := fetch host (apiRequest apiKey imageFile) in
     (if negb (ok response) then
        let! errorText := await (text response) in
        throw (newError ("Photoroom API error: " ++ numToString (status response)
                         ++ " - " ++ errorText))
      else ret tt) ;;;
     let! blob := await (blob response) in
     createObjectURL host blob)
    (fun error =>
       consoleError "Photoroom API error:" error ;;;
       throw (newError "Failed to process image with Photoroom API")).

(** The request of [fetch(dataUrl)]. *)
Definition getRequest (url : string) : Request := mkRequest url "GET" [] [].

Definition removeBackgroundFromDataUrl (host : Host) (apiKey : string)
    (dataUrl : string) : M string :=
  let! response := fetch host (getRequest dataUrl) in
  let! blob := await (blob response) in
  let file := newFile blob "image.jpg" (blobType blob) in
  removeBackground host apiKey file.

Definition genericFailure : JsError :=
  newError "Failed to process image with Photoroom API".

Definition freshNet : Net := mkNet [] [] [].

(** ** The page ([App]) *)

Record ProcessedImage : Type := mkProcessedImage {
  original : string;
  processed : string;
  filename : string
}.

(** The state hooks the handlers below touch, the value of the file input
    when it is mounted, and the alerts shown. *)
Record AppState : Type := mkAppState {
  uploadedImage : option string;
  processedImage : option ProcessedImage;
  isProcessing : bool;
  backgroundColor : string;
  showColorPicker : bool;
  dragActive : bool;
  processingStep : string;
  originalFile : option File;
  fileInputValue : option string;
  alerts : list string
}.

Definition setUploadedImage (v : option string) (st : AppState) : AppState :=
  mkAppState v (processedImage st) (isProcessing st) (backgroundColor st)
    (showColorPicker st) (dragActive st) (processingStep st) (originalFile st)
    (fileInputValue st) (alerts st).

Definition setProcessedImage (v : option ProcessedImage) (st : AppState) : AppState :=
  mkAppState (uploadedImage st) v (isProcessing st) (backgroundColor st)
    (showColorPicker st) (dragActive st) (processingStep st) (originalFile st)
    (fileInputValue st) (alerts st).

Definition setIsProcessing (v : bool) (st : AppState) : AppState :=
  mkAppState (uploadedImage st) (processedImage st) v (backgroundColor st)
    (showColorPicker st) (dragActive st) (processingStep st) (originalFile st)
    (fileInputValue st) (alerts st).

Definition setShowColorPicker (v : bool) (st : AppState) : AppState :=
  mkAppState (uploadedImage st) (processedImage st) (isProcessing st) (backgroundColor st)
    v (dragActive st) (processingStep st) (originalFile st)
    (fileInputValue st) (alerts st).

Definition setDragActive (v : bool) (st : AppState) : AppState :=
  mkAppState (uploadedImage st) (processedImage st) (isProcessing st) (backgroundColor st)
    (showColorPicker st) v (processingStep st) (originalFile st)
    (fileInputValue st) (alerts st).

Definition setProcessingStep (v : string) (st : AppState) : AppState :=
  mkAppState (uploadedImage st) (processedImage st) (isProcessing st) (backgroundColor st)
    (showColorPicker st) (dragActive st) v (originalFile st)
    (fileInputValue st) (alerts st).

Definition setOriginalFile (v : option File) (st : AppState) : AppState :=
  mkAppState (uploadedImage st) (processedImage st) (isProcessing st) (backgroundColor st)
    (showColorPicker st) (dragActive st) (processingStep st) v
    (fileInputValue st) (alerts st).

Definition setFileInputValue (v : option string) (st : AppState) : AppState :=
  mkAppState (uploadedImage st) (processedImage st) (isProcessing st) (backgroundColor st)
    (showColorPicker st) (dragActive st) (processingStep st) (originalFile st)
    v (alerts st).

Definition alert (msg : string) (st : AppState) : AppState :=
  mkAppState (uploadedImage st) (processedImage st) (isProcessing st) (backgroundColor st)
    (showColorPicker st) (dragActive st) (processingStep st) (originalFile st)
    (fileInputValue st) (alerts st ++ [msg]).

(** [handleDrag], on the type of the drag event. *)
Definition handleDrag (eventType : string) (st : AppState) : AppState :=
  if String.eqb eventType "dragenter" || String.eqb eventType "dragover"
  then setDragActive true st
  else if String.eqb eventType "dragleave" then setDragActive false st
  else st.

(** [handleFileUpload]; [readResult] is what the [FileReader] reports: the
    data URL, or nothing when the read fails and [onload] never fires. *)
Definition handleFileUpload (file : File) (readResult : option string)
    (st : AppState) : AppState :=
  if String.prefix "image/" (fileType file) then
    let st := setOriginalFile (Some file) st in
    match readResult with
    | Some result =>
        let st := setUploadedImage (Some result) st in
        setProcessedImage None st
    | None => st
    end
  else st.

(** [handleDrop], on the files of the drop. *)
Definition handleDrop (files : list File) (readResult : option string)
    (st : AppState) : AppState :=
  let st := setDragActive false st in
  match files with
  | file :: _ => handleFileUpload file readResult st
  | [] => st
  end.

(** [handleFileSelect], on the files of the input. *)
Definition handleFileSelect (files : list File) (readResult : option string)
    (st : AppState) : AppState :=
  match files with
  | file :: _ => handleFileUpload file readResult st
  | [] => st
  end.

Definition defaultApiKey : string :=
  "sk_pr_default_10dd528a0400cb6b67e26afa09c02b8dc38ac038".

(** [processImageWithPhotoroom].  [now] is the value of [Date.now()] when the
    result is stored.  The function awaits three times (a timer, the call,
    a timer); [meanwhile1], [meanwhile2] and [meanwhile3] are what other
    handlers do to the state during those waits.  The setters act on the
    state of the moment, [uploadedImage] is the value captured when the
    function was called. *)
Definition processImageWithPhotoroom (host : Host) (now : Z)
    (meanwhile1 meanwhile2 meanwhile3 : AppState -> AppState)
    (st : AppState) (net : Net) : AppState * Net :=
  match uploadedImage st with
  | None | Some EmptyString => (st, net)
  | Some uploaded =>
      let st := setIsProcessing true st in
      let st := setProcessingStep "Connecting to Photoroom API..." st in
      let st := setProcessingStep "Uploading image for processing..." st in
      let st := meanwhile1 st in
      let st := setProcessingStep "AI is analyzing your image..." st in
      let st := setProcessingStep "Removing background with professional AI..." st in
      let '(net, outcome) := removeBackgroundFromDataUrl host defaultApiKey uploaded net in
      let st := meanwhile2 st in
      let '(st, net) :=
        match outcome with
        | inr processedDataUrl =>
            let st := setProcessingStep "Finalizing high-quality result..." st in
            let st := meanwhile3 st in
            let st :=
              setProcessedImage
                (Some (mkProcessedImage uploaded processedDataUrl
                         ("processed_" ++ numToString now ++ ".png"))) st in
            (st, net)
        | inl error =>
            let '(net, _) := consoleError "Processing failed:" error net in
            (alert "Failed to process image. Please try again." st, net)
        end in
      let st := setIsProcessing false st in
      let st := setProcessingStep "" st in
      (st, net)
  end.

(** The state of the page when the call to the service settles: the
    handler has raised its flag and shown its steps, and two waits have
    passed. *)
Definition stateWhenCallSettles (meanwhile1 meanwhile2 : AppState -> AppState)
    (st : AppState) : AppState :=
  let st := setIsProcessing true st in
  let st := setProcessingStep "Connecting to Photoroom API..." st in
  let st := setProcessingStep "Uploading image for processing..." st in
  let st := meanwhile1 st in
  let st := setProcessingStep "AI is analyzing your image..." st in
  let st := setProcessingStep "Removing background with professional AI..." st in
  meanwhile2 st.

(** The call when no other handler runs during its waits. *)
Definition undisturbed (st : AppState) : AppState := st.

(** [resetApp] *)
Definition resetApp (st : AppState) : AppState :=
  let st := setUploadedImage None st in
  let st := setOriginalFile None st in
  let st := setProcessedImage None st in
  let st := setIsProcessing false st in
  let st := setShowColorPicker false st in
  match fileInputValue st with
  | Some _ => setFileInputValue (Some ""%string) st
  | None => st
  end.

(** The uploads among the requests sent. *)
Definition posts (net : Net) : list Request :=
  filter (fun request => requestMethod request = "POST"%string) (sent net).

(** [!value] on a string state. *)
Definition falsy (value : option string) : Prop :=
  value = None \/ value = Some ""%string.

(** *** Sample states and hosts *)

(** A page holding an uploaded PNG, and two hosts: one whose service answers
    with a PNG, one whose service cannot be reached.  Both decode the data
    URL, the first request of a call. *)
Definition sampleState : AppState :=
  mkAppState (Some "data:image/png;base64,iVBORw=="%string) None false "#ffffff" true false ""
    (Some (mkFile "cat.png" "image/png" [137; 80; 78; 71])) None [].

Definition sampleHost : Host :=
  mkHost (fun requests =>
            match requests with
            | [_] => inr (mkResponse true 200 (inr ""%string)
                            (inr (mkBlob "image/png" [137; 80; 78; 71])))
            | _ => inr (mkResponse true 200 (inr ""%string) (inr (mkBlob "image/png" [1])))
            end)
    (fun n => "blob:result"%string).

Definition offlineHost : Host :=
  mkHost (fun requests =>
            match requests with
            | [_] => inr (mkResponse true 200 (inr ""%string)
                            (inr (mkBlob "image/png" [137; 80; 78; 71])))
            | _ => inl (mkJsError "TypeError" "Failed to fetch")
            end)
    (fun n => "blob:result"%string).

(** * Part II: proofs *)

(** ** The host operations on small inputs *)

Example toUint8Clamp_samples :
  toUint8Clamp 0.5 = 0 /\ toUint8Clamp 1.5 = 2 /\ toUint8Clamp 2.5 = 2 /\
  toUint8Clamp 254.5 = 254 /\ toUint8Clamp 300 = 255 /\ toUint8Clamp (-3) = 0 /\
  toUint8Clamp nan = 0 /\ toUint8Clamp infinity = 255.
Proof. repeat split; vm_compute; reflexivity. Qed.

Example colorKey_samples :
  colorKey 224 0 32 = "224,0,32"%string /\
  parseColor "224,0,32" = [Some 224; Some 0; Some 32] /\
  quantize 255 = 224 /\ quantize 31 = 0 /\ quantize 32 = 32.
Proof. repeat split; vm_compute; reflexivity. Qed.

Example sortDesc_stable :
  sortDesc [("a", 1); ("b", 2); ("c", 2); ("d", 1); ("e", 3)]%string
  = [("e", 3); ("b", 2); ("c", 2); ("a", 1); ("d", 1)]%string.
Proof. vm_compute. reflexivity. Qed.

Example edgePixels_4x4 :
  edgePixels 4 4 = [0; 12; 1; 13; 2; 14; 3; 15; 0; 3; 4; 7; 8; 11; 12; 15].
Proof. vm_compute. reflexivity. Qed.

Example mathRound_samples :
  mathRound (5 # 2) = 3 /\ mathRound (7 # 3) = 2 /\ mathRound (-1 # 2) = 0.
Proof. repeat split; vm_compute; reflexivity. Qed.

(** ** Generic facts on stores and loops *)

Lemma ImageData_eq (a b : ImageData) :
  data a = data b -> width a = width b -> height a = height b -> a = b.
Proof. destruct a, b. simpl. by intros -> -> ->. Qed.


Lemma length_store a i v : length (store a i v) = length a.
Proof. unfold store. destruct (i <? 0); [done|]. by rewrite length_insert. Qed.

Lemma load_store_ne a i j v : i <> j -> load (store a i v) j = load a j.
Proof.
  intros Hne. unfold load, store.
  destruct (j <? 0) eqn:Hj; [done|]. destruct (i <? 0) eqn:Hi; [done|].
  rewrite list_lookup_insert_ne; [done|]. lia.
Qed.

Lemma load_store_eq a i v :
  0 <= i < len a -> load (store a i v) i = clamp8 v.
Proof.
  intros Hi. unfold load, store, len in *.
  destruct (i <? 0) eqn:E; [lia|].
  rewrite list_lookup_insert_eq; [done|]. lia.
Qed.

Lemma length_applyWrites ws a : length (applyWrites ws a) = length a.
Proof.
  revert a. induction ws as [|w ws IH]; intros a; [done|].
  simpl. unfold applyWrites in IH. rewrite IH. apply length_store.
Qed.

Lemma len_applyWrites ws a : len (applyWrites ws a) = len a.
Proof. unfold len. by rewrite length_applyWrites. Qed.

(** An index no store targets keeps its value. *)
Lemma load_applyWrites_miss ws a k :
  (forall v, (k, v) ∉ ws) -> load (applyWrites ws a) k = load a k.
Proof.
  revert a. induction ws as [|[i v] ws IH]; intros a Hk; [done|].
  simpl. unfold applyWrites in IH. rewrite IH.
  - apply load_store_ne. intros ->. apply (Hk v). left.
  - intros v' Hin. apply (Hk v'). by right.
Qed.

(** An index all of whose stores carry the same value holds that value. *)
Lemma load_applyWrites_hit ws a k v :
  (k, v) ∈ ws -> (forall v', (k, v') ∈ ws -> v' = v) ->
  0 <= k < len a -> load (applyWrites ws a) k = clamp8 v.
Proof.
  revert a. induction ws as [|[i u] ws IH]; intros a Hin Huniq Hk.
  - by apply elem_of_nil in Hin.
  - simpl. unfold applyWrites in IH.
    destruct (decide ((k, v) ∈ ws)) as [Hin'|Hnin].
    + apply IH; [done| |].
      * intros v' Hv'. apply Huniq. by right.
      * unfold len in *. by rewrite length_store.
    + apply elem_of_cons in Hin as [Heq|Hin]; [|done].
      injection Heq as <- <-.
      fold (applyWrites ws (store a k v)).
      rewrite load_applyWrites_miss.
      * by apply load_store_eq.
      * intros v' Hv'. apply Hnin. by rewrite <- (Huniq v') by (by right).
Qed.

(** A loop whose body is a block of stores is the concatenated store list. *)
Lemma fold_applyWrites {A} (W : A -> list (Z * Z)) (ps : list A) a :
  fold_left (fun a p => applyWrites (W p) a) ps a = applyWrites (ps ≫= W) a.
Proof.
  revert a. induction ps as [|p ps IH]; intros a; [done|].
  simpl. rewrite IH. unfold applyWrites. by rewrite fold_left_app.
Qed.

Lemma for_applyWrites lo hi (W : Z -> list (Z * Z)) a :
  for_ lo hi (fun i a => applyWrites (W i) a) a
  = applyWrites (seqZ lo (hi - lo) ≫= W) a.
Proof. unfold for_. apply fold_applyWrites. Qed.

Lemma for_ext {S} lo hi (f g : Z -> S -> S) s :
  (forall i s, lo <= i < hi -> f i s = g i s) -> for_ lo hi f s = for_ lo hi g s.
Proof.
  intros Hfg. unfold for_.
  assert (H : forall l s, (forall i, i ∈ l -> lo <= i < hi) ->
             fold_left (fun s i => f i s) l s = fold_left (fun s i => g i s) l s).
  { induction l as [|i l IH]; intros s' Hl; [done|]. simpl.
    rewrite Hfg by (apply Hl; left). apply IH. intros j Hj. apply Hl. by right. }
  apply H. intros i Hi. apply elem_of_seqZ in Hi. lia.
Qed.

Lemma elem_of_gridWrites m w h W p :
  p ∈ gridWrites m w h W <->
  exists x y, m <= y < h - m /\ m <= x < w - m /\ p ∈ W x y.
Proof.
  unfold gridWrites. rewrite list_elem_of_bind. split.
  - intros (y & Hp & Hy). apply list_elem_of_bind in Hp as (x & Hp & Hx).
    apply elem_of_seqZ in Hx, Hy. exists x, y. repeat split; try lia; done.
  - intros (x & y & Hy & Hx & Hp). exists y. split.
    + apply list_elem_of_bind. exists x. split; [done|]. apply elem_of_seqZ. lia.
    + apply elem_of_seqZ. lia.
Qed.

Lemma grid_loop m w h (body : Z -> Z -> list Z -> list Z) W a :
  (forall x y a, body x y a = applyWrites (W x y) a) ->
  for_ m (h - m) (fun y a => for_ m (w - m) (fun x a => body x y a) a) a
  = applyWrites (gridWrites m w h W) a.
Proof.
  intros Hbody. unfold gridWrites.
  rewrite <- for_applyWrites. apply for_ext. intros y a' _.
  rewrite <- for_applyWrites. apply for_ext. intros x a'' _. apply Hbody.
Qed.

(** Row-major indexing is injective on in-range columns. *)
Lemma pixel_inj w x y x' y' :
  0 <= x < w -> 0 <= x' < w -> y * w + x = y' * w + x' -> x = x' /\ y = y'.
Proof.
  intros Hx Hx' E.
  assert (y = y') as ->; [|lia].
  destruct (Z.lt_trichotomy y y') as [Hlt|[Heq|Hgt]]; [|done|]; exfalso; nia.
Qed.

Lemma pixel_bound w h x y :
  0 <= x < w -> 0 <= y < h -> 0 <= y * w + x < w * h.
Proof. intros Hx Hy. nia. Qed.

(** *** The store lists of the source's loops *)

Lemma erosion_writes src w h pd :
  erosion src w h pd
  = applyWrites (gridWrites 1 w h
      (fun x y => [((y * w + x) * 4 + 3, minAlphaAt src w x y)])) pd.
Proof. unfold erosion. by apply grid_loop. Qed.

Lemma dilation_writes src w h dd :
  dilation src w h dd
  = applyWrites (gridWrites 1 w h
      (fun x y => [((y * w + x) * 4 + 3, maxAlphaAt src w x y)])) dd.
Proof. unfold dilation. by apply grid_loop. Qed.

Lemma copyAll_writes src dst :
  copyAll src dst
  = applyWrites (seqZ 0 (len src - 0) ≫= (fun i => [(i, load src i)])) dst.
Proof. unfold copyAll. by rewrite <- for_applyWrites. Qed.

Lemma copyRGB_writes src dst :
  copyRGB src dst
  = applyWrites (steps4 (len src) ≫= (fun i =>
      [(i, load src i); (i + 1, load src (i + 1)); (i + 2, load src (i + 2))])) dst.
Proof. unfold copyRGB, for4. by rewrite <- fold_applyWrites. Qed.

Lemma elem_of_steps4 n i : i ∈ steps4 n <-> 0 <= i < n /\ i mod 4 = 0.
Proof.
  unfold steps4. rewrite list_elem_of_fmap. split.
  - intros (k & -> & Hk). apply elem_of_seqZ in Hk.
    assert (k < (n + 3) / 4) by lia.
    split; [|by rewrite Z.mul_comm, Z.mod_mul].
    assert (4 * ((n + 3) / 4) <= n + 3) by (apply Z.mul_div_le; lia). lia.
  - intros (Hi & Hm). exists (i / 4). split.
    + rewrite (Z.div_mod i 4) at 1 by lia. lia.
    + apply elem_of_seqZ. split; [apply Z.div_pos; lia|].
      simpl. apply Z.div_lt_upper_bound; [lia|].
      assert (n + 3 < 4 * ((n + 3) / 4) + 4).
      { pose proof (Z.mod_pos_bound (n + 3) 4 ltac:(lia)).
        rewrite (Z.div_mod (n + 3) 4) at 1 by lia. lia. }
      lia.
Qed.

(** *** Loads after a loop that stores one alpha per pixel of a grid *)

Section AlphaGrid.
Variables (m w h : Z) (F : Z -> Z -> Z).

Local Abbreviation alphaWrites := (alphaWrites m w h F).

Lemma elem_of_alphaWrites k v :
  (k, v) ∈ alphaWrites <->
  exists x y, m <= y < h - m /\ m <= x < w - m /\
              k = (y * w + x) * 4 + 3 /\ v = F x y.
Proof.
  unfold alphaWrites. rewrite elem_of_gridWrites. split.
  - intros (x & y & Hy & Hx & Hp). apply list_elem_of_singleton in Hp.
    injection Hp as -> ->. by exists x, y.
  - intros (x & y & Hy & Hx & -> & ->). exists x, y.
    repeat split; try lia. apply list_elem_of_singleton. done.
Qed.

Lemma load_alphaWrites_hit a x y :
  0 <= m -> m <= x < w - m -> m <= y < h - m ->
  0 <= (y * w + x) * 4 + 3 < len a ->
  load (applyWrites alphaWrites a) ((y * w + x) * 4 + 3) = clamp8 (F x y).
Proof.
  intros Hm Hx Hy Hk. apply load_applyWrites_hit; [| |done].
  - apply elem_of_alphaWrites. by exists x, y.
  - intros v' Hv'. apply elem_of_alphaWrites in Hv' as (x' & y' & Hy' & Hx' & E & ->).
    assert (y * w + x = y' * w + x') as E' by lia.
    apply pixel_inj in E' as [-> ->]; [done|lia|lia].
Qed.

(** The colour samples are never targeted. *)
Lemma load_alphaWrites_rgb a p c :
  0 <= c < 3 ->
  load (applyWrites alphaWrites a) (p * 4 + c) = load a (p * 4 + c).
Proof.
  intros Hc. apply load_applyWrites_miss. intros v Hv.
  apply elem_of_alphaWrites in Hv as (x & y & _ & _ & E & _). lia.
Qed.

(** Nor is the alpha of a pixel in the margin. *)
Lemma load_alphaWrites_margin a x y :
  0 <= m -> 0 <= x < w -> ~ (m <= x < w - m /\ m <= y < h - m) ->
  load (applyWrites alphaWrites a) ((y * w + x) * 4 + 3)
  = load a ((y * w + x) * 4 + 3).
Proof.
  intros Hm Hx Hout. apply load_applyWrites_miss. intros v Hv.
  apply elem_of_alphaWrites in Hv as (x' & y' & Hy' & Hx' & E & _).
  assert (y * w + x = y' * w + x') as E' by lia.
  apply pixel_inj in E' as [-> ->]; [|lia|lia]. apply Hout. lia.
Qed.
End AlphaGrid.

(** *** Byte contents *)

Lemma byte_clamp8 v : byte (clamp8 v).
Proof. unfold byte, clamp8. lia. Qed.

Lemma clamp8_byte v : byte v -> clamp8 v = v.
Proof. unfold byte, clamp8. lia. Qed.

Lemma byte_load a k : Forall byte a -> byte (load a k).
Proof.
  intros Ha. unfold load. destruct (k <? 0); [unfold byte; lia|].
  destruct (a !! Z.to_nat k) as [v|] eqn:E; simpl; [|unfold byte; lia].
  by eapply Forall_lookup_1.
Qed.

Lemma Forall_byte_store a i v : Forall byte a -> Forall byte (store a i v).
Proof.
  intros Ha. unfold store. destruct (i <? 0); [done|].
  apply Forall_insert; [done|apply byte_clamp8].
Qed.

Lemma Forall_byte_applyWrites ws a :
  Forall byte a -> Forall byte (applyWrites ws a).
Proof.
  revert a. induction ws as [|p ws IH]; intros a Ha; [done|].
  simpl. apply IH. by apply Forall_byte_store.
Qed.

Lemma Forall_byte_newArray n : Forall byte (newArray n).
Proof. apply Forall_replicate. unfold byte. lia. Qed.

Lemma len_newArray n : 0 <= n -> len (newArray n) = n.
Proof. intros Hn. unfold len, newArray. rewrite length_replicate. lia. Qed.

Lemma load_newArray n k : load (newArray n) k = 0.
Proof.
  unfold load, newArray. destruct (k <? 0); [done|].
  destruct (replicate (Z.to_nat n) 0 !! Z.to_nat k) as [v|] eqn:E; [|done].
  apply lookup_replicate in E as [-> _]. done.
Qed.

Lemma len_nonneg a : 0 <= len a.
Proof. unfold len. lia. Qed.

(** Two arrays of one length with equal loads are equal. *)
Lemma array_ext (a b : list Z) :
  len a = len b -> (forall k, 0 <= k < len a -> load a k = load b k) -> a = b.
Proof.
  unfold len. intros Hlen Hload. apply list_eq. intros i.
  destruct (decide (i < length a)%nat) as [Hi|Hi].
  - specialize (Hload (Z.of_nat i) ltac:(lia)). unfold load in Hload.
    destruct (Z.of_nat i <? 0) eqn:E; [lia|]. rewrite Nat2Z.id in Hload.
    destruct (lookup_lt_is_Some_2 a i Hi) as [u Hu].
    destruct (lookup_lt_is_Some_2 b i ltac:(lia)) as [v Hv].
    rewrite Hu, Hv in *. simpl in Hload. by subst.
  - rewrite !lookup_ge_None_2; [done|lia|lia].
Qed.

(** *** Copy loops *)

Lemma load_copyAll src dst k :
  len dst = len src -> Forall byte src -> 0 <= k < len src ->
  load (copyAll src dst) k = load src k.
Proof.
  intros Hlen Hb Hk. rewrite copyAll_writes.
  rewrite (load_applyWrites_hit _ _ k (load src k)).
  - apply clamp8_byte. by apply byte_load.
  - apply list_elem_of_bind. exists k. split; [left|apply elem_of_seqZ; lia].
  - intros v' Hv'. apply list_elem_of_bind in Hv' as (i & Hi & _).
    apply list_elem_of_singleton in Hi. by injection Hi as -> ->.
  - lia.
Qed.

Lemma load_copyRGB_rgb src dst p c :
  len dst = len src -> Forall byte src -> 0 <= c < 3 ->
  0 <= p * 4 + c < len src ->
  load (copyRGB src dst) (p * 4 + c) = load src (p * 4 + c).
Proof.
  intros Hlen Hb Hc Hk. rewrite copyRGB_writes.
  rewrite (load_applyWrites_hit _ _ _ (load src (p * 4 + c))).
  - apply clamp8_byte. by apply byte_load.
  - apply list_elem_of_bind. exists (p * 4). split.
    + assert (c = 0 \/ c = 1 \/ c = 2) as [-> | [-> | ->]] by lia.
      * rewrite Z.add_0_r. left.
      * right. left.
      * right. right. left.
    + apply elem_of_steps4. split; [lia|]. by rewrite Z.mod_mul.
  - intros v' Hv'. apply list_elem_of_bind in Hv' as (i & Hi & _).
    repeat (apply elem_of_cons in Hi as [Hi|Hi];
            [injection Hi as E ->; by rewrite E|]).
    by apply elem_of_nil in Hi.
  - lia.
Qed.

Lemma load_copyRGB_alpha src dst p :
  load (copyRGB src dst) (p * 4 + 3) = load dst (p * 4 + 3).
Proof.
  rewrite copyRGB_writes. apply load_applyWrites_miss. intros v Hv.
  apply list_elem_of_bind in Hv as (i & Hi & Hs).
  apply elem_of_steps4 in Hs as [_ Hmod].
  pose proof (Z.div_mod i 4 ltac:(lia)) as Hdiv.
  repeat (apply elem_of_cons in Hi as [Hi|Hi]; [injection Hi as E' _; lia|]).
  by apply elem_of_nil in Hi.
Qed.

(** *** The 3x3 minimum and maximum *)

Ltac unfold_kernel_loop :=
  unfold for_; change (seqZ 0 (3 - 0)) with [0; 1; 2]; cbn [fold_left];
  change (truthy (kernelAt _ _)) with true; cbv iota.

Ltac split_offset k :=
  match goal with
  | H : 0 <= k < 3 |- _ =>
      let E := fresh in
      assert (k = 0 \/ k = 1 \/ k = 2) as E by lia;
      clear H; destruct E as [-> | [-> | ->]]
  end.

Section Kernel.
Variables (src : list Z) (w x y : Z).

Local Abbreviation nb ky kx := (load src (((y + ky - 1) * w + (x + kx - 1)) * 4 + 3)).

Lemma minAlphaAt_le ky kx :
  0 <= ky < 3 -> 0 <= kx < 3 -> minAlphaAt src w x y <= nb ky kx.
Proof.
  intros Hky Hkx. unfold minAlphaAt. unfold_kernel_loop.
  split_offset ky; split_offset kx; lia.
Qed.

Lemma minAlphaAt_le_255 : minAlphaAt src w x y <= 255.
Proof. unfold minAlphaAt. unfold_kernel_loop. lia. Qed.

Lemma minAlphaAt_glb c :
  c <= 255 ->
  (forall ky kx, 0 <= ky < 3 -> 0 <= kx < 3 -> c <= nb ky kx) ->
  c <= minAlphaAt src w x y.
Proof.
  intros Hc H. unfold minAlphaAt. unfold_kernel_loop.
  pose proof (H 0 0 ltac:(lia) ltac:(lia)). pose proof (H 0 1 ltac:(lia) ltac:(lia)).
  pose proof (H 0 2 ltac:(lia) ltac:(lia)). pose proof (H 1 0 ltac:(lia) ltac:(lia)).
  pose proof (H 1 1 ltac:(lia) ltac:(lia)). pose proof (H 1 2 ltac:(lia) ltac:(lia)).
  pose proof (H 2 0 ltac:(lia) ltac:(lia)). pose proof (H 2 1 ltac:(lia) ltac:(lia)).
  pose proof (H 2 2 ltac:(lia) ltac:(lia)). lia.
Qed.

Lemma maxAlphaAt_ge ky kx :
  0 <= ky < 3 -> 0 <= kx < 3 -> nb ky kx <= maxAlphaAt src w x y.
Proof.
  intros Hky Hkx. unfold maxAlphaAt. unfold_kernel_loop.
  split_offset ky; split_offset kx; lia.
Qed.

Lemma maxAlphaAt_ge_0 : 0 <= maxAlphaAt src w x y.
Proof. unfold maxAlphaAt. unfold_kernel_loop. lia. Qed.

Lemma maxAlphaAt_lub c :
  0 <= c ->
  (forall ky kx, 0 <= ky < 3 -> 0 <= kx < 3 -> nb ky kx <= c) ->
  maxAlphaAt src w x y <= c.
Proof.
  intros Hc H. unfold maxAlphaAt. unfold_kernel_loop.
  pose proof (H 0 0 ltac:(lia) ltac:(lia)). pose proof (H 0 1 ltac:(lia) ltac:(lia)).
  pose proof (H 0 2 ltac:(lia) ltac:(lia)). pose proof (H 1 0 ltac:(lia) ltac:(lia)).
  pose proof (H 1 1 ltac:(lia) ltac:(lia)). pose proof (H 1 2 ltac:(lia) ltac:(lia)).
  pose proof (H 2 0 ltac:(lia) ltac:(lia)). pose proof (H 2 1 ltac:(lia) ltac:(lia)).
  pose proof (H 2 2 ltac:(lia) ltac:(lia)). lia.
Qed.
End Kernel.

Lemma byte_minAlphaAt src w x y : Forall byte src -> byte (minAlphaAt src w x y).
Proof.
  intros Hb. split; [|apply minAlphaAt_le_255].
  apply minAlphaAt_glb; [lia|]. intros. by apply byte_load.
Qed.

Lemma byte_maxAlphaAt src w x y : Forall byte src -> byte (maxAlphaAt src w x y).
Proof.
  intros Hb. split; [apply maxAlphaAt_ge_0|].
  apply maxAlphaAt_lub; [lia|]. intros. by apply byte_load.
Qed.

(** *** The opening, pixel by pixel *)

Lemma in_image_index img x y c :
  wf img -> inImage img x y -> 0 <= c < 4 ->
  0 <= (y * width img + x) * 4 + c < len (data img).
Proof.
  intros (Hw & Hh & Hlen & _) [Hx Hy] Hc. rewrite Hlen.
  pose proof (pixel_bound (width img) (height img) x y Hx Hy). nia.
Qed.

Lemma morphologicalOperations_eq img :
  morphologicalOperations img
  = mkImageData
      (dilation (eroded img) (width img) (height img)
         (copyAll (eroded img) (newArray (len (eroded img)))))
      (width img) (height img).
Proof. reflexivity. Qed.

Lemma len_copyRGB src dst : len (copyRGB src dst) = len dst.
Proof. rewrite copyRGB_writes. apply len_applyWrites. Qed.

Lemma len_copyAll src dst : len (copyAll src dst) = len dst.
Proof. rewrite copyAll_writes. apply len_applyWrites. Qed.

Lemma len_eroded img : len (eroded img) = len (data img).
Proof.
  unfold eroded. rewrite erosion_writes, len_applyWrites, len_copyRGB.
  apply len_newArray, len_nonneg.
Qed.

Lemma Forall_byte_eroded img : Forall byte (eroded img).
Proof.
  unfold eroded. rewrite erosion_writes, copyRGB_writes.
  apply Forall_byte_applyWrites, Forall_byte_applyWrites, Forall_byte_newArray.
Qed.

Lemma len_morphologicalOperations img :
  len (data (morphologicalOperations img)) = len (data img).
Proof.
  rewrite morphologicalOperations_eq. simpl.
  rewrite dilation_writes, len_applyWrites, len_copyAll.
  rewrite len_newArray by apply len_nonneg. apply len_eroded.
Qed.

Lemma Forall_byte_morphologicalOperations img :
  Forall byte (data (morphologicalOperations img)).
Proof.
  rewrite morphologicalOperations_eq. simpl. rewrite dilation_writes, copyAll_writes.
  apply Forall_byte_applyWrites, Forall_byte_applyWrites, Forall_byte_newArray.
Qed.

Lemma wf_morphologicalOperations img : wf img -> wf (morphologicalOperations img).
Proof.
  intros (Hw & Hh & Hlen & Hb). repeat split; try done.
  - by rewrite len_morphologicalOperations.
  - apply Forall_byte_morphologicalOperations.
Qed.

Lemma load_eroded_rgb img p c :
  wf img -> 0 <= c < 3 -> 0 <= p * 4 + c < len (data img) ->
  load (eroded img) (p * 4 + c) = load (data img) (p * 4 + c).
Proof.
  intros (_ & _ & _ & Hb) Hc Hk. unfold eroded. rewrite erosion_writes.
  fold (alphaWrites 1 (width img) (height img) (minAlphaAt (data img) (width img))).
  rewrite load_alphaWrites_rgb by done.
  apply load_copyRGB_rgb; try done. apply len_newArray, len_nonneg.
Qed.

Lemma load_eroded_interior img x y :
  wf img -> isInterior img x y ->
  load (eroded img) ((y * width img + x) * 4 + 3)
  = minAlphaAt (data img) (width img) x y.
Proof.
  intros Hwf [Hx Hy]. unfold eroded. rewrite erosion_writes.
  fold (alphaWrites 1 (width img) (height img) (minAlphaAt (data img) (width img))).
  rewrite load_alphaWrites_hit; try lia.
  - apply clamp8_byte, byte_minAlphaAt, Hwf.
  - rewrite len_copyRGB, len_newArray by apply len_nonneg.
    apply in_image_index; [done| |lia]. split; lia.
Qed.

Lemma load_eroded_margin img x y :
  0 <= x < width img -> ~ isInterior img x y ->
  load (eroded img) ((y * width img + x) * 4 + 3) = 0.
Proof.
  intros Hx Hout. unfold eroded. rewrite erosion_writes.
  fold (alphaWrites 1 (width img) (height img) (minAlphaAt (data img) (width img))).
  rewrite load_alphaWrites_margin; [|lia|done|done].
  rewrite load_copyRGB_alpha. apply load_newArray.
Qed.

Lemma load_morph_rgb img p c :
  wf img -> 0 <= c < 3 -> 0 <= p * 4 + c < len (data img) ->
  load (data (morphologicalOperations img)) (p * 4 + c) = load (data img) (p * 4 + c).
Proof.
  intros Hwf Hc Hk. rewrite morphologicalOperations_eq. simpl.
  rewrite dilation_writes.
  fold (alphaWrites 1 (width img) (height img) (maxAlphaAt (eroded img) (width img))).
  rewrite load_alphaWrites_rgb by done.
  rewrite load_copyAll.
  - by apply load_eroded_rgb.
  - apply len_newArray, len_nonneg.
  - apply Forall_byte_eroded.
  - by rewrite len_eroded.
Qed.

Lemma load_morph_interior img x y :
  wf img -> isInterior img x y ->
  load (data (morphologicalOperations img)) ((y * width img + x) * 4 + 3)
  = maxAlphaAt (eroded img) (width img) x y.
Proof.
  intros Hwf [Hx Hy]. rewrite morphologicalOperations_eq. simpl.
  rewrite dilation_writes.
  fold (alphaWrites 1 (width img) (height img) (maxAlphaAt (eroded img) (width img))).
  rewrite load_alphaWrites_hit; try lia.
  - apply clamp8_byte, byte_maxAlphaAt, Forall_byte_eroded.
  - rewrite len_copyAll, len_newArray, len_eroded by apply len_nonneg.
    apply in_image_index; [done| |lia]. split; lia.
Qed.

Lemma load_morph_margin img x y :
  wf img -> inImage img x y -> ~ isInterior img x y ->
  load (data (morphologicalOperations img)) ((y * width img + x) * 4 + 3) = 0.
Proof.
  intros Hwf Hin Hout. rewrite morphologicalOperations_eq. simpl.
  rewrite dilation_writes.
  fold (alphaWrites 1 (width img) (height img) (maxAlphaAt (eroded img) (width img))).
  rewrite load_alphaWrites_margin; [|lia|apply Hin|done].
  rewrite load_copyAll.
  - apply load_eroded_margin; [apply Hin|done].
  - apply len_newArray, len_nonneg.
  - apply Forall_byte_eroded.
  - rewrite len_eroded. apply in_image_index; [done|done|lia].
Qed.

(** The colour channels pass through the opening. *)
Lemma morph_rgb_unchanged img x y c :
  wf img -> inImage img x y -> 0 <= c < 3 ->
  channelAt (morphologicalOperations img) x y c = channelAt img x y c.
Proof.
  intros Hwf Hin Hc. unfold channelAt, pixelIndex.
  change (width (morphologicalOperations img)) with (width img).
  apply load_morph_rgb; [done|done|].
  pose proof (in_image_index img x y c Hwf Hin). lia.
Qed.

(** Every pixel of the one-pixel margin comes out fully transparent: the
    erosion starts from a zeroed array into which only R, G and B were
    copied, and neither loop visits the margin. *)
Lemma morph_margin_alpha_zero img x y :
  wf img -> inImage img x y -> ~ isInterior img x y ->
  alphaAt (morphologicalOperations img) x y = 0.
Proof.
  intros. unfold alphaAt, pixelIndex.
  change (width (morphologicalOperations img)) with (width img).
  by apply load_morph_margin.
Qed.

(** Every sample offset of a well-formed image is a channel of a pixel. *)
Lemma index_decompose img k :
  wf img -> 0 <= k < len (data img) ->
  exists x y c, inImage img x y /\ 0 <= c < 4 /\ k = (y * width img + x) * 4 + c.
Proof.
  intros (Hw & Hh & Hlen & _) Hk. rewrite Hlen in Hk.
  set (w := width img) in *. set (h := height img) in *.
  exists ((k / 4) mod w), ((k / 4) / w), (k mod 4).
  pose proof (Z.mod_pos_bound k 4 ltac:(lia)).
  pose proof (Z.mod_pos_bound (k / 4) w ltac:(lia)).
  pose proof (Z.div_mod k 4 ltac:(lia)).
  pose proof (Z.div_mod (k / 4) w ltac:(lia)).
  assert (0 <= k / 4) by (apply Z.div_pos; lia).
  assert (0 <= k / 4 / w) by (apply Z.div_pos; lia).
  assert (k / 4 < w * h) by (apply Z.div_lt_upper_bound; lia).
  assert (k / 4 / w < h) by (apply Z.div_lt_upper_bound; lia).
  repeat split; try lia.
Qed.

(** *** Idempotence on masks with a transparent margin *)

(** Rewriting with a fact about the opened image, whose width is the input's. *)
Ltac rewrite_opened H :=
  let E := fresh in
  pose proof H as E;
  change (width (morphologicalOperations ?i)) with (width i) in E;
  rewrite E; clear E.

Lemma interior_dec img x y : isInterior img x y \/ ~ isInterior img x y.
Proof. unfold isInterior. lia. Qed.

Lemma morph_zeroMargin img : wf img -> zeroMargin (morphologicalOperations img).
Proof.
  intros Hwf x y Hin Hout.
  apply morph_margin_alpha_zero; [done|exact Hin|exact Hout].
Qed.

Lemma neighbour_inImage img x y ky kx :
  isInterior img x y -> 0 <= ky < 3 -> 0 <= kx < 3 ->
  inImage img (x + kx - 1) (y + ky - 1).
Proof. unfold isInterior, inImage. lia. Qed.

(** The opening never raises an alpha. *)
Lemma morph_alpha_le img x y :
  wf img -> inImage img x y ->
  alphaAt (morphologicalOperations img) x y <= alphaAt img x y.
Proof.
  intros Hwf Hin.
  assert (byte (alphaAt img x y)) as Hb by apply byte_load, Hwf.
  destruct (interior_dec img x y) as [Hint|Hout].
  - unfold alphaAt at 1. unfold pixelIndex at 1.
    change (width (morphologicalOperations img)) with (width img).
    rewrite load_morph_interior by done.
    apply maxAlphaAt_lub; [apply Hb|]. intros ky kx Hky Hkx.
    pose proof (neighbour_inImage img x y ky kx Hint Hky Hkx) as Hnb.
    destruct (interior_dec img (x + kx - 1) (y + ky - 1)) as [Hint'|Hout'].
    + rewrite load_eroded_interior by done.
      pose proof (minAlphaAt_le (data img) (width img) (x + kx - 1) (y + ky - 1)
                    (2 - ky) (2 - kx) ltac:(lia) ltac:(lia)) as Hle.
      replace (y + ky - 1 + (2 - ky) - 1) with y in Hle by lia.
      replace (x + kx - 1 + (2 - kx) - 1) with x in Hle by lia.
      apply Hle.
    + rewrite load_eroded_margin; [apply Hb|apply Hnb|done].
  - rewrite morph_margin_alpha_zero by done. apply Hb.
Qed.

(** An eroded value is below the opened alpha of every neighbour, when the
    margin of the input is transparent. *)
Lemma eroded_le_morph img x y ky kx :
  wf img -> zeroMargin img -> isInterior img x y ->
  0 <= ky < 3 -> 0 <= kx < 3 ->
  minAlphaAt (data img) (width img) x y
  <= load (data (morphologicalOperations img))
       (((y + ky - 1) * width img + (x + kx - 1)) * 4 + 3).
Proof.
  intros Hwf Hzero Hint Hky Hkx.
  pose proof (neighbour_inImage img x y ky kx Hint Hky Hkx) as Hnb.
  destruct (interior_dec img (x + kx - 1) (y + ky - 1)) as [Hint'|Hout'].
  - rewrite load_morph_interior by done.
    pose proof (maxAlphaAt_ge (eroded img) (width img) (x + kx - 1) (y + ky - 1)
                  (2 - ky) (2 - kx) ltac:(lia) ltac:(lia)) as Hge.
    replace (y + ky - 1 + (2 - ky) - 1) with y in Hge by lia.
    replace (x + kx - 1 + (2 - kx) - 1) with x in Hge by lia.
    by rewrite load_eroded_interior in Hge.
  - rewrite load_morph_margin by done.
    pose proof (minAlphaAt_le (data img) (width img) x y ky kx Hky Hkx) as Hle.
    pose proof (Hzero _ _ Hnb Hout') as Hz. unfold alphaAt, pixelIndex in Hz.
    lia.
Qed.

(** Eroding the opened mask gives the eroded mask back. *)
Lemma minAlphaAt_morph img x y :
  wf img -> zeroMargin img -> isInterior img x y ->
  minAlphaAt (data (morphologicalOperations img)) (width img) x y
  = minAlphaAt (data img) (width img) x y.
Proof.
  intros Hwf Hzero Hint. apply Z.le_antisymm.
  - apply minAlphaAt_glb; [apply minAlphaAt_le_255|]. intros ky kx Hky Hkx.
    etrans; [apply (minAlphaAt_le _ _ _ _ ky kx Hky Hkx)|].
    apply (morph_alpha_le img (x + kx - 1) (y + ky - 1) Hwf).
    by apply neighbour_inImage.
  - apply minAlphaAt_glb; [apply minAlphaAt_le_255|]. intros ky kx Hky Hkx.
    by apply eroded_le_morph.
Qed.

Lemma load_eroded_morph img x y :
  wf img -> zeroMargin img -> inImage img x y ->
  load (eroded (morphologicalOperations img)) ((y * width img + x) * 4 + 3)
  = load (eroded img) ((y * width img + x) * 4 + 3).
Proof.
  intros Hwf Hzero Hin.
  pose proof (wf_morphologicalOperations img Hwf) as Hwf'.
  destruct (interior_dec img x y) as [Hint|Hout].
  - rewrite_opened (load_eroded_interior (morphologicalOperations img) x y Hwf' Hint).
    rewrite load_eroded_interior by done. by apply minAlphaAt_morph.
  - rewrite_opened (load_eroded_margin (morphologicalOperations img) x y (proj1 Hin) Hout).
    rewrite load_eroded_margin; [done|apply Hin|done].
Qed.

Lemma maxAlphaAt_ext s1 s2 w x y :
  (forall ky kx, 0 <= ky < 3 -> 0 <= kx < 3 ->
     load s1 (((y + ky - 1) * w + (x + kx - 1)) * 4 + 3)
     = load s2 (((y + ky - 1) * w + (x + kx - 1)) * 4 + 3)) ->
  maxAlphaAt s1 w x y = maxAlphaAt s2 w x y.
Proof.
  intros H. apply Z.le_antisymm.
  - apply maxAlphaAt_lub; [apply maxAlphaAt_ge_0|]. intros ky kx Hky Hkx.
    rewrite H by done. by apply maxAlphaAt_ge.
  - apply maxAlphaAt_lub; [apply maxAlphaAt_ge_0|]. intros ky kx Hky Hkx.
    rewrite <- H by done. by apply maxAlphaAt_ge.
Qed.

Lemma morph_idempotent_zeroMargin img :
  wf img -> zeroMargin img ->
  morphologicalOperations (morphologicalOperations img)
  = morphologicalOperations img.
Proof.
  intros Hwf Hzero.
  pose proof (wf_morphologicalOperations img Hwf) as Hwf'.
  assert (data (morphologicalOperations (morphologicalOperations img))
          = data (morphologicalOperations img)) as Hdata.
  { apply array_ext; [apply len_morphologicalOperations|].
    intros k Hk. rewrite len_morphologicalOperations in Hk.
    destruct (index_decompose _ k Hwf' Hk) as (x & y & c & Hin & Hc & ->).
    change (width (morphologicalOperations img)) with (width img) in *.
    assert (c = 3 \/ 0 <= c < 3) as [-> | Hc3] by lia.
    - destruct (interior_dec img x y) as [Hint|Hout].
      + rewrite_opened (load_morph_interior (morphologicalOperations img) x y Hwf' Hint).
        rewrite load_morph_interior by done.
        apply maxAlphaAt_ext. intros ky kx Hky Hkx.
        apply load_eroded_morph; [done|done|]. by apply neighbour_inImage.
      + rewrite_opened (load_morph_margin (morphologicalOperations img) x y Hwf' Hin Hout).
        by rewrite load_morph_margin.
    - by apply load_morph_rgb. }
  by apply ImageData_eq.
Qed.

(** The executable check implies well-formedness. *)
Lemma wfb_wf img : wfb img = true -> wf img.
Proof.
  unfold wfb, wf. rewrite !andb_true_iff. intros [[[Hw Hh] Hl] Hb].
  repeat split; try lia.
  apply Forall_forall. intros v Hv. apply list_elem_of_In in Hv.
  rewrite forallb_forall in Hb. specialize (Hb v Hv). unfold byte. lia.
Qed.

(** ** Claims on the morphological opening *)

(** C1 (the margin keeps its alpha, the colours are unchanged): the code
    does not keep the alpha of the one-pixel margin.  On the fully opaque
    white 3x3 image the corner pixel (0, 0) enters with alpha 255 and leaves
    with alpha 0, and so does the whole margin; the colour channels do pass
    through.  [morph_margin_alpha_zero] and [morph_rgb_unchanged] give both
    facts for every image. *)
Theorem morph_margin_alpha_not_retained :
  wf (solid 3 3 255 255 255 255) /\
  alphaAt (solid 3 3 255 255 255 255) 0 0 = 255 /\
  alphaAt (morphologicalOperations (solid 3 3 255 255 255 255)) 0 0 = 0 /\
  alphaAt (morphologicalOperations (solid 3 3 255 255 255 255)) 1 1 = 255 /\
  data (morphologicalOperations (solid 3 3 255 255 255 255))
  = [255; 255; 255; 0;  255; 255; 255; 0;    255; 255; 255; 0;
     255; 255; 255; 0;  255; 255; 255; 255;  255; 255; 255; 0;
     255; 255; 255; 0;  255; 255; 255; 0;    255; 255; 255; 0].
Proof.
  split; [apply wfb_wf; vm_compute; reflexivity|].
  repeat split; vm_compute; reflexivity.
Qed.

(** C3 (idempotence on already-opened masks): once a buffer is the result of
    one opening, a second opening and a third give the same buffer.  No
    assumption on thin features is needed. *)
Theorem opening_idempotent_once_opened (img : ImageData) :
  wf img ->
  let opened := morphologicalOperations img in
  morphologicalOperations (morphologicalOperations opened)
  = morphologicalOperations opened.
Proof.
  intros Hwf opened. subst opened.
  apply morph_idempotent_zeroMargin.
  - by apply wf_morphologicalOperations.
  - by apply morph_zeroMargin.
Qed.

Lemma opening_idempotent_once_opened_witness :
  wf speck5x5 /\
  morphologicalOperations (morphologicalOperations (morphologicalOperations speck5x5))
  = morphologicalOperations (morphologicalOperations speck5x5).
Proof.
  assert (wf speck5x5) as Hwf by (apply wfb_wf; vm_compute; reflexivity).
  split; [exact Hwf|]. exact (opening_idempotent_once_opened speck5x5 Hwf).
Defined.

(** The first opening is not yet a fixed point: it reads the margin the
    input had, the second one reads the transparent margin the first left. *)
Lemma opening_changes_unopened_mask :
  morphologicalOperations (morphologicalOperations (solid 4 4 255 255 255 255))
  <> morphologicalOperations (solid 4 4 255 255 255 255).
Proof. vm_compute. discriminate. Qed.

(** ** The segmenter's mask loop *)

Lemma maskLoop_writes d bg sd :
  maskLoop d bg sd
  = applyWrites (steps4 (len d) ≫= (fun i =>
      [(i, load d i); (i + 1, load d (i + 1)); (i + 2, load d (i + 2));
       (i + 3, if isBackgroundAt d bg i then 0 else 255)])) sd.
Proof. unfold maskLoop, for4. by rewrite <- fold_applyWrites. Qed.

Lemma len_maskLoop d bg sd : len (maskLoop d bg sd) = len sd.
Proof. rewrite maskLoop_writes. apply len_applyWrites. Qed.

Lemma load_maskLoop_rgb d bg sd p c :
  len sd = len d -> Forall byte d -> 0 <= c < 3 ->
  0 <= p * 4 + c < len d ->
  load (maskLoop d bg sd) (p * 4 + c) = load d (p * 4 + c).
Proof.
  intros Hlen Hb Hc Hk. rewrite maskLoop_writes.
  rewrite (load_applyWrites_hit _ _ _ (load d (p * 4 + c))).
  - apply clamp8_byte. by apply byte_load.
  - apply list_elem_of_bind. exists (p * 4). split.
    + assert (c = 0 \/ c = 1 \/ c = 2) as [-> | [-> | ->]] by lia.
      * rewrite Z.add_0_r. left.
      * right. left.
      * right. right. left.
    + apply elem_of_steps4. split; [lia|]. by rewrite Z.mod_mul.
  - intros v' Hv'. apply list_elem_of_bind in Hv' as (i & Hi & Hs).
    apply elem_of_steps4 in Hs as [_ Hmod].
    pose proof (Z.div_mod i 4 ltac:(lia)) as Hdiv.
    repeat (apply elem_of_cons in Hi as [Hi|Hi];
            [injection Hi as E ->; first [by rewrite E | lia]|]).
    by apply elem_of_nil in Hi.
  - lia.
Qed.

Lemma load_maskLoop_alpha d bg sd p :
  len sd = len d -> 0 <= p * 4 + 3 < len d ->
  load (maskLoop d bg sd) (p * 4 + 3)
  = if isBackgroundAt d bg (p * 4) then 0 else 255.
Proof.
  intros Hlen Hk. rewrite maskLoop_writes.
  rewrite (load_applyWrites_hit _ _ _ (if isBackgroundAt d bg (p * 4) then 0 else 255)).
  - by destruct (isBackgroundAt d bg (p * 4)).
  - apply list_elem_of_bind. exists (p * 4). split.
    + do 3 right. left.
    + apply elem_of_steps4. split; [lia|]. by rewrite Z.mod_mul.
  - intros v' Hv'. apply list_elem_of_bind in Hv' as (i & Hi & Hs).
    apply elem_of_steps4 in Hs as [_ Hmod].
    pose proof (Z.div_mod i 4 ltac:(lia)) as Hdiv.
    repeat (apply elem_of_cons in Hi as [Hi|Hi];
            [injection Hi as E ->; first [lia | by replace i with (p * 4) by lia]|]).
    by apply elem_of_nil in Hi.
  - lia.
Qed.

Lemma colorSegmentation_eq img :
  colorSegmentation img
  = mkImageData
      (maskLoop (data img) (backgroundColors (data img) (width img) (height img))
         (newArray (len (data img))))
      (width img) (height img).
Proof. reflexivity. Qed.

Lemma len_colorSegmentation img :
  len (data (colorSegmentation img)) = len (data img).
Proof.
  rewrite colorSegmentation_eq. simpl. rewrite len_maskLoop.
  apply len_newArray, len_nonneg.
Qed.

Lemma wf_colorSegmentation img : wf img -> wf (colorSegmentation img).
Proof.
  intros (Hw & Hh & Hlen & Hb). repeat split; try done.
  - by rewrite len_colorSegmentation.
  - rewrite colorSegmentation_eq. simpl. rewrite maskLoop_writes.
    apply Forall_byte_applyWrites, Forall_byte_newArray.
Qed.

Lemma segment_rgb img x y c :
  wf img -> inImage img x y -> 0 <= c < 3 ->
  channelAt (colorSegmentation img) x y c = channelAt img x y c.
Proof.
  intros Hwf Hin Hc. unfold channelAt, pixelIndex.
  change (width (colorSegmentation img)) with (width img).
  rewrite colorSegmentation_eq. simpl.
  pose proof (in_image_index img x y c Hwf Hin ltac:(lia)).
  apply load_maskLoop_rgb; try done.
  - apply len_newArray, len_nonneg.
  - apply Hwf.
Qed.

Lemma segment_alpha img x y :
  wf img -> inImage img x y ->
  alphaAt (colorSegmentation img) x y
  = if isBackgroundAt (data img)
         (backgroundColors (data img) (width img) (height img))
         (pixelIndex (width img) x y)
    then 0 else 255.
Proof.
  intros Hwf Hin. unfold alphaAt, pixelIndex.
  change (width (colorSegmentation img)) with (width img).
  rewrite colorSegmentation_eq. simpl.
  pose proof (in_image_index img x y 3 Hwf Hin ltac:(lia)).
  apply load_maskLoop_alpha; [|done].
  apply len_newArray, len_nonneg.
Qed.

(** ** Border sampling *)

Lemma for_push2 (lo hi : Z) (f g : Z -> Z) (init : list Z) :
  for_ lo hi (fun i ep => (ep ++ [f i]) ++ [g i]) init
  = init ++ (seqZ lo (hi - lo) ≫= (fun i => [f i; g i])).
Proof.
  unfold for_. generalize (seqZ lo (hi - lo)) as l. intros l. revert init.
  induction l as [|i l IH]; intros init; simpl.
  - by rewrite app_nil_r.
  - rewrite IH. by rewrite <- !app_assoc.
Qed.

Lemma rowSamples_eq w h :
  rowSamples w h = seqZ 0 (w - 0) ≫= (fun x => [0 * w + x; (h - 1) * w + x]).
Proof. unfold rowSamples. by rewrite for_push2. Qed.

Lemma columnOnly_eq w h :
  columnOnly w h = seqZ 0 (h - 0) ≫= (fun y => [y * w + 0; y * w + (w - 1)]).
Proof. unfold columnOnly, columnSamples. by rewrite for_push2. Qed.

Lemma edgePixels_eq w h : edgePixels w h = rowSamples w h ++ columnOnly w h.
Proof.
  unfold edgePixels, columnOnly, columnSamples. by rewrite !for_push2.
Qed.

(** Every border sample is a pixel of the image. *)
Lemma edgePixels_inImage w h p :
  1 <= w -> 1 <= h -> p ∈ edgePixels w h -> 0 <= p < w * h.
Proof.
  intros Hw Hh. rewrite edgePixels_eq, rowSamples_eq, columnOnly_eq.
  intros Hp. apply elem_of_app in Hp as [Hp|Hp];
    apply list_elem_of_bind in Hp as (i & Hp & Hi); apply elem_of_seqZ in Hi;
    repeat (apply elem_of_cons in Hp as [->|Hp]; [nia|]);
    by apply elem_of_nil in Hp.
Qed.

Lemma occurrences_app p l1 l2 :
  occurrences p (l1 ++ l2) = (occurrences p l1 + occurrences p l2)%nat.
Proof. unfold occurrences. apply count_occ_app. Qed.

Lemma occurrences_push2 p (f g : Z -> Z) (l : list Z) :
  occurrences p (l ≫= (fun i => [f i; g i]))
  = (occurrences p (f <$> l) + occurrences p (g <$> l))%nat.
Proof.
  unfold occurrences. induction l as [|i l IH]; [done|].
  cbn [mbind list_bind fmap list_fmap app count_occ]. cbn in IH. rewrite IH.
  destruct (Z.eq_dec (f i) p), (Z.eq_dec (g i) p); lia.
Qed.

(** An injective scan pushes a pixel at most once. *)
Lemma occurrences_scan_le p (f : Z -> Z) lo n :
  (forall i j, f i = f j -> i = j) ->
  (occurrences p (f <$> seqZ lo n) <= 1)%nat.
Proof.
  intros Hinj. unfold occurrences. apply NoDup_count_occ, NoDup_ListNoDup.
  apply NoDup_fmap_2_strong; [|apply NoDup_seqZ]. intros i j _ _. apply Hinj.
Qed.

Lemma occurrences_scan_hit p (f : Z -> Z) lo n i :
  (forall i j, f i = f j -> i = j) -> lo <= i < lo + n -> f i = p ->
  occurrences p (f <$> seqZ lo n) = 1%nat.
Proof.
  intros Hinj Hi Hp. pose proof (occurrences_scan_le p f lo n Hinj) as Hle.
  assert (occurrences p (f <$> seqZ lo n) > 0)%nat; [|lia].
  unfold occurrences. apply count_occ_In. apply list_elem_of_In.
  apply list_elem_of_fmap. exists i. split; [done|]. by apply elem_of_seqZ.
Qed.

Lemma occurrences_scan_miss p (f : Z -> Z) lo n :
  (forall i, lo <= i < lo + n -> f i <> p) ->
  occurrences p (f <$> seqZ lo n) = 0%nat.
Proof.
  intros Hmiss. unfold occurrences. apply count_occ_not_In.
  rewrite <- list_elem_of_In. intros Hin.
  apply list_elem_of_fmap in Hin as (i & Hp & Hi). apply elem_of_seqZ in Hi.
  by apply (Hmiss i).
Qed.

Section Scans.
Variables (w h : Z).
Hypothesis (Hw : 1 <= w).

Lemma top_inj i j : 0 * w + i = 0 * w + j -> i = j.
Proof. lia. Qed.

Lemma bottom_inj i j : (h - 1) * w + i = (h - 1) * w + j -> i = j.
Proof. lia. Qed.

Lemma left_inj i j : i * w + 0 = j * w + 0 -> i = j.
Proof. nia. Qed.

Lemma right_inj i j : i * w + (w - 1) = j * w + (w - 1) -> i = j.
Proof. nia. Qed.

Lemma occurrences_rowSamples p :
  occurrences p (rowSamples w h)
  = (occurrences p (topScan w) + occurrences p (bottomScan w h))%nat.
Proof. rewrite rowSamples_eq. apply occurrences_push2. Qed.

Lemma occurrences_columnOnly p :
  occurrences p (columnOnly w h)
  = (occurrences p (leftScan w h) + occurrences p (rightScan w h))%nat.
Proof. rewrite columnOnly_eq. apply occurrences_push2. Qed.

Lemma occurrences_topScan_le p : (occurrences p (topScan w) <= 1)%nat.
Proof. apply occurrences_scan_le, top_inj. Qed.

Lemma occurrences_bottomScan_le p : (occurrences p (bottomScan w h) <= 1)%nat.
Proof. apply occurrences_scan_le, bottom_inj. Qed.

Lemma occurrences_leftScan_le p : (occurrences p (leftScan w h) <= 1)%nat.
Proof. apply occurrences_scan_le, left_inj. Qed.

Lemma occurrences_rightScan_le p : (occurrences p (rightScan w h) <= 1)%nat.
Proof. apply occurrences_scan_le, right_inj. Qed.

(** No pixel is sampled more than four times. *)
Lemma occurrences_edgePixels_le p : (occurrences p (edgePixels w h) <= 4)%nat.
Proof.
  rewrite edgePixels_eq, occurrences_app, occurrences_rowSamples,
    occurrences_columnOnly.
  pose proof (occurrences_topScan_le p). pose proof (occurrences_bottomScan_le p).
  pose proof (occurrences_leftScan_le p). pose proof (occurrences_rightScan_le p).
  lia.
Qed.

Lemma occurrences_topScan_hit p :
  0 <= p < w -> occurrences p (topScan w) = 1%nat.
Proof.
  intros Hp. apply (occurrences_scan_hit p _ 0 (w - 0) p top_inj); lia.
Qed.

Lemma occurrences_topScan_miss p :
  ~ (0 <= p < w) -> occurrences p (topScan w) = 0%nat.
Proof. intros Hp. apply occurrences_scan_miss. intros i Hi. lia. Qed.

Lemma occurrences_bottomScan_hit x :
  0 <= x < w -> occurrences ((h - 1) * w + x) (bottomScan w h) = 1%nat.
Proof.
  intros Hx. apply (occurrences_scan_hit _ _ 0 (w - 0) x bottom_inj); lia.
Qed.

Lemma occurrences_bottomScan_miss p :
  ~ ((h - 1) * w <= p < (h - 1) * w + w) -> occurrences p (bottomScan w h) = 0%nat.
Proof. intros Hp. apply occurrences_scan_miss. intros i Hi. lia. Qed.

Lemma occurrences_leftScan_hit y :
  0 <= y < h -> occurrences (y * w + 0) (leftScan w h) = 1%nat.
Proof.
  intros Hy. apply (occurrences_scan_hit _ _ 0 (h - 0) y left_inj); lia.
Qed.

Lemma occurrences_leftScan_miss p :
  p mod w <> 0 -> occurrences p (leftScan w h) = 0%nat.
Proof.
  intros Hp. apply occurrences_scan_miss. intros i Hi E. apply Hp.
  rewrite <- E, Z.add_0_r. apply Z.mod_mul. lia.
Qed.

Lemma occurrences_rightScan_hit y :
  0 <= y < h -> occurrences (y * w + (w - 1)) (rightScan w h) = 1%nat.
Proof.
  intros Hy. apply (occurrences_scan_hit _ _ 0 (h - 0) y right_inj); lia.
Qed.

Lemma occurrences_rightScan_miss p :
  p mod w <> w - 1 -> occurrences p (rightScan w h) = 0%nat.
Proof.
  intros Hp. apply occurrences_scan_miss. intros i Hi E. apply Hp.
  rewrite <- E, Z.add_comm, Z.mod_add by lia. apply Z.mod_small. lia.
Qed.
End Scans.

Section Corners.
Variables (w h : Z).
Hypotheses (Hw : 1 <= w) (Hh : 1 <= h).

Lemma corner_rows_ge right bottom :
  (1 <= occurrences (corner w h right bottom) (rowSamples w h))%nat.
Proof.
  rewrite occurrences_rowSamples. unfold corner.
  destruct bottom.
  - rewrite (occurrences_bottomScan_hit w h) by (destruct right; lia). lia.
  - rewrite (occurrences_topScan_hit w) by (destruct right; lia). lia.
Qed.

Lemma corner_columns_ge right bottom :
  (1 <= occurrences (corner w h right bottom) (columnOnly w h))%nat.
Proof.
  rewrite occurrences_columnOnly. unfold corner.
  destruct right.
  - rewrite (occurrences_rightScan_hit w h Hw) by (destruct bottom; lia). lia.
  - rewrite (occurrences_leftScan_hit w h Hw) by (destruct bottom; lia). lia.
Qed.

Lemma corner_mod right bottom :
  corner w h right bottom mod w = if right then w - 1 else 0.
Proof.
  unfold corner. rewrite Z.add_comm, Z.mod_add by lia.
  apply Z.mod_small. destruct right; lia.
Qed.

(** With at least two rows and two columns the opposite scans miss. *)
Lemma corner_rows_exact right bottom :
  2 <= w -> 2 <= h ->
  occurrences (corner w h right bottom) (rowSamples w h) = 1%nat.
Proof.
  intros Hw2 Hh2. rewrite occurrences_rowSamples. unfold corner.
  destruct bottom.
  - rewrite (occurrences_bottomScan_hit w h) by (destruct right; lia).
    rewrite (occurrences_topScan_miss w); [done|]. destruct right; nia.
  - rewrite (occurrences_topScan_hit w) by (destruct right; lia).
    rewrite (occurrences_bottomScan_miss w h); [done|]. destruct right; nia.
Qed.

Lemma corner_columns_exact right bottom :
  2 <= w -> 2 <= h ->
  occurrences (corner w h right bottom) (columnOnly w h) = 1%nat.
Proof.
  intros Hw2 Hh2. rewrite occurrences_columnOnly.
  pose proof (corner_mod right bottom) as Hmod.
  destruct right.
  - rewrite (occurrences_leftScan_miss w h Hw) by lia.
    unfold corner. rewrite (occurrences_rightScan_hit w h Hw); [done|].
    destruct bottom; lia.
  - rewrite (occurrences_rightScan_miss w h Hw) by lia.
    unfold corner. rewrite (occurrences_leftScan_hit w h Hw); [done|].
    destruct bottom; lia.
Qed.

(** On a single column both column scans push every pixel; on a single row
    both row scans do. *)
Lemma corner_degenerate right bottom :
  w = 1 \/ h = 1 ->
  (3 <= occurrences (corner w h right bottom) (edgePixels w h))%nat.
Proof.
  intros Hdeg. rewrite edgePixels_eq, occurrences_app.
  pose proof (corner_rows_ge right bottom) as Hr.
  pose proof (corner_columns_ge right bottom) as Hc.
  destruct Hdeg as [-> | ->].
  - assert (occurrences (corner 1 h right bottom) (columnOnly 1 h) = 2%nat); [|lia].
    rewrite occurrences_columnOnly.
    replace (corner 1 h right bottom) with ((if bottom then h - 1 else 0) * 1 + 0)
      by (unfold corner; destruct right; lia).
    rewrite (occurrences_leftScan_hit 1 h) by (destruct bottom; lia).
    replace ((if bottom then h - 1 else 0) * 1 + 0)
      with ((if bottom then h - 1 else 0) * 1 + (1 - 1)) by lia.
    rewrite (occurrences_rightScan_hit 1 h) by (destruct bottom; lia). done.
  - assert (occurrences (corner w 1 right bottom) (rowSamples w 1) = 2%nat); [|lia].
    rewrite occurrences_rowSamples.
    replace (corner w 1 right bottom) with ((1 - 1) * w + (if right then w - 1 else 0))
      by (unfold corner; destruct bottom; lia).
    rewrite (occurrences_bottomScan_hit w 1) by (destruct right; lia).
    rewrite (occurrences_topScan_hit w) by (destruct right; lia). done.
Qed.
End Corners.

(** ** The border histogram counts samples *)

Lemma countOf_bump key k counts :
  countOf key (bump k counts)
  = countOf key counts + (if String.eqb k key then 1 else 0).
Proof.
  induction counts as [|[k' n] rest IH]; simpl.
  - destruct (String.eqb k key); lia.
  - destruct (String.eqb k' k) eqn:E; simpl.
    + apply String.eqb_eq in E as ->. destruct (String.eqb k key); lia.
    + destruct (String.eqb k' key) eqn:E'; [|apply IH].
      apply String.eqb_eq in E' as ->.
      rewrite String.eqb_sym in E. rewrite E. lia.
Qed.

Lemma countOf_fold_bump key (keys : list string) counts :
  countOf key (fold_left (fun c k => bump k c) keys counts)
  = countOf key counts + Z.of_nat (count_occ string_dec keys key).
Proof.
  revert counts. induction keys as [|k keys IH]; intros counts; simpl; [lia|].
  rewrite IH, countOf_bump.
  destruct (string_dec k key) as [->|Hne].
  - rewrite String.eqb_refl. lia.
  - apply String.eqb_neq in Hne. rewrite Hne. lia.
Qed.

(** Every sample adds one to the count of its colour: a pixel pushed twice
    weighs twice. *)
Lemma fold_bump_fmap {A} (f : A -> string) (l : list A) counts :
  fold_left (fun c p => bump (f p) c) l counts
  = fold_left (fun c k => bump k c) (f <$> l) counts.
Proof. revert counts. induction l as [|p l IH]; intros c; [done|]. apply IH. Qed.

Lemma edgeColorCounts_weight d w h key :
  countOf key (edgeColorCounts d w h) = borderWeight d w h key.
Proof.
  unfold edgeColorCounts, borderWeight.
  rewrite (fold_bump_fmap (fun p => keyAt d (p * 4))), countOf_fold_bump.
  simpl. lia.
Qed.

(** ** Keys, colours and the distance test *)

Lemma forallb_seqZ (P : Z -> bool) lo n :
  forallb P (seqZ lo n) = true -> forall k, lo <= k < lo + n -> P k = true.
Proof.
  intros H k Hk. rewrite forallb_forall in H. apply H.
  apply list_elem_of_In, elem_of_seqZ. done.
Qed.

Lemma keysParseBack_true : keysParseBack = true.
Proof. vm_compute. reflexivity. Qed.


Lemma parseColor_colorKey a b c :
  0 <= a < 8 -> 0 <= b < 8 -> 0 <= c < 8 ->
  parseColor (colorKey (32 * a) (32 * b) (32 * c))
  = [Some (32 * a); Some (32 * b); Some (32 * c)].
Proof.
  intros Ha Hb Hc. pose proof keysParseBack_true as H. unfold keysParseBack in H.
  pose proof (forallb_seqZ _ _ _ H a ltac:(lia)) as H1. cbv beta in H1.
  pose proof (forallb_seqZ _ _ _ H1 b ltac:(lia)) as H2. cbv beta in H2.
  pose proof (forallb_seqZ _ _ _ H2 c ltac:(lia)) as H3. cbv beta in H3.
  by apply bool_decide_eq_true in H3.
Qed.



Lemma quantize_byte v : byte v -> exists a, 0 <= a < 8 /\ quantize v = 32 * a.
Proof.
  intros [Hlo Hhi]. exists (v / 32). unfold quantize. split; [|lia].
  split; [apply Z.div_pos; lia|]. apply Z.div_lt_upper_bound; lia.
Qed.




(** ** The background set holds keys of border pixels *)

Lemma insertDesc_perm e l : insertDesc e l ≡ₚ e :: l.
Proof.
  induction l as [|e' l IH]; simpl; [done|].
  destruct (snd e <? snd e'); [|done].
  rewrite IH. apply Permutation_swap.
Qed.

Lemma sortDesc_perm l : sortDesc l ≡ₚ l.
Proof.
  induction l as [|e l IH]; simpl; [done|].
  rewrite insertDesc_perm. by constructor.
Qed.

Lemma bump_keys key counts k :
  k ∈ (fst <$> bump key counts) -> k = key \/ k ∈ (fst <$> counts).
Proof.
  induction counts as [|[k' n] rest IH]; simpl.
  - intros H. apply list_elem_of_singleton in H. by left.
  - destruct (String.eqb k' key); simpl; [by right|].
    intros H. apply elem_of_cons in H as [->|H]; [right; left|].
    destruct (IH H) as [->|H']; [by left|right; by right].
Qed.





(** ** The decision, in terms of colours *)



(** ** The background set is the three most frequent border colours *)

Lemma bump_fresh key counts :
  key ∉ (fst <$> counts) -> bump key counts = counts ++ [(key, 0 + 1)].
Proof.
  induction counts as [|[k n] rest IH]; simpl; [done|].
  intros Hnin. apply not_elem_of_cons in Hnin as [Hne Hnin].
  destruct (String.eqb k key) eqn:E.
  - apply String.eqb_eq in E. by subst.
  - by rewrite IH.
Qed.

Lemma bump_known_keys key counts :
  key ∈ (fst <$> counts) -> fst <$> bump key counts = fst <$> counts.
Proof.
  induction counts as [|[k n] rest IH]; simpl.
  - intros H. by apply elem_of_nil in H.
  - intros H. destruct (String.eqb k key) eqn:E; simpl; [done|].
    apply elem_of_cons in H as [->|H]; [by rewrite String.eqb_refl in E|].
    f_equal. by apply IH.
Qed.

Lemma bump_NoDup key counts :
  NoDup (fst <$> counts) -> NoDup (fst <$> bump key counts).
Proof.
  intros Hnd. destruct (decide (key ∈ (fst <$> counts))) as [Hin|Hnin].
  - by rewrite bump_known_keys.
  - rewrite bump_fresh by done. rewrite fmap_app. simpl.
    apply NoDup_app. split; [done|]. split; [|apply NoDup_singleton].
    intros k Hk Hk'. apply list_elem_of_singleton in Hk'. by subst.
Qed.

Lemma edgeColorCounts_NoDup d w h : NoDup (fst <$> edgeColorCounts d w h).
Proof.
  unfold edgeColorCounts.
  assert (forall l c, NoDup (fst <$> c) ->
            NoDup (fst <$> fold_left (fun counts pixelIndex =>
                     let i := pixelIndex * 4 in bump (keyAt d i) counts) l c)) as H.
  { induction l as [|p l IH]; intros c Hc; [done|]. simpl. apply IH.
    by apply bump_NoDup. }
  apply H. constructor.
Qed.






Lemma fold_setAdd_NoDup (l : list string) :
  NoDup l -> forall s, NoDup (s ++ l) -> fold_left setAdd l s = s ++ l.
Proof.
  induction l as [|k l IH]; intros Hl s Hs; simpl; [by rewrite app_nil_r|].
  assert (setHas s k = false) as Hhas.
  { unfold setHas. apply not_true_is_false. intros H.
    apply existsb_exists in H as (k' & Hk' & E). apply String.eqb_eq in E as <-.
    apply NoDup_app in Hs as (_ & Hdisj & _). apply (Hdisj k).
    - by apply list_elem_of_In.
    - left. }
  unfold setAdd at 2. rewrite Hhas.
  apply NoDup_cons in Hl as [_ Hl].
  rewrite IH; [by rewrite <- app_assoc|done|by rewrite <- app_assoc].
Qed.

Lemma sortedEdgeColors_NoDup d w h : NoDup (sortedEdgeColors d w h).
Proof.
  unfold sortedEdgeColors. rewrite fmap_take.
  apply (sublist_NoDup _ (fst <$> sortDesc (edgeColorCounts d w h)));
    [|apply sublist_take].
  rewrite sortDesc_perm. apply edgeColorCounts_NoDup.
Qed.

(** The set receives the three keys as they come: none is a duplicate. *)
Lemma backgroundColors_eq d w h : backgroundColors d w h = sortedEdgeColors d w h.
Proof.
  unfold backgroundColors.
  rewrite fold_setAdd_NoDup; [done|apply sortedEdgeColors_NoDup|].
  apply sortedEdgeColors_NoDup.
Qed.



(** ** Claims on the background colour segmenter *)

(** C6: the segmenter keeps the dimensions and the R, G and B samples of
    every pixel, and every alpha it writes is 0 or 255. *)
Theorem segmenter_rgb_kept_alpha_binary (img : ImageData) :
  wf img ->
  width (colorSegmentation img) = width img /\
  height (colorSegmentation img) = height img /\
  forall x y, inImage img x y ->
    channelAt (colorSegmentation img) x y 0 = channelAt img x y 0 /\
    channelAt (colorSegmentation img) x y 1 = channelAt img x y 1 /\
    channelAt (colorSegmentation img) x y 2 = channelAt img x y 2 /\
    (alphaAt (colorSegmentation img) x y = 0 \/
     alphaAt (colorSegmentation img) x y = 255).
Proof.
  intros Hwf. split; [done|]. split; [done|]. intros x y Hin.
  repeat split; try (apply segment_rgb; [done|done|lia]).
  rewrite segment_alpha by done.
  destruct (isBackgroundAt _ _ _); [by left|by right].
Qed.

Lemma segmenter_rgb_kept_alpha_binary_witness :
  wf greyDot3x3 /\
  channelAt (colorSegmentation greyDot3x3) 1 1 0 = channelAt greyDot3x3 1 1 0 /\
  (alphaAt (colorSegmentation greyDot3x3) 1 1 = 0 \/
   alphaAt (colorSegmentation greyDot3x3) 1 1 = 255).
Proof.
  assert (wf greyDot3x3) as Hwf by (apply wfb_wf; vm_compute; reflexivity).
  assert (inImage greyDot3x3 1 1) as Hin by (vm_compute; intuition discriminate).
  pose proof (segmenter_rgb_kept_alpha_binary greyDot3x3 Hwf) as (_ & _ & H).
  destruct (H 1 1 Hin) as (Hr & _ & _ & Ha). split; [exact Hwf|]. split; [exact Hr|exact Ha].
Defined.




(** The other way round: on the black 3x3 image with a (95,0,0) centre the
    bucket (0,0,0) is at distance 95 of the raw colour and matches no
    quantized colour of the centre, yet the centre is removed (alpha 0): its
    quantized colour (64,0,0) is at distance 64. *)
Lemma quantized_distance_removes_far_raw_colour :
  alphaAt (colorSegmentation redDot3x3) 1 1 = 0 /\
  claimedBackground (data redDot3x3) 3 3 (pixelIndex 3 1 1) = false /\
  quantizedBackground (data redDot3x3) 3 3 (pixelIndex 3 1 1) = true.
Proof. repeat split; vm_compute; reflexivity. Qed.

(** C8: on the 4x4 uniform white image every pixel has key 224,224,224, the
    border histogram holds that key alone (16 samples: 12 border pixels, the
    corners twice), it is the background set, all 16 pixels are classified
    background and come out with alpha 0. *)
Theorem white4x4_all_background :
  quantize 255 = 224 /\
  keyAt (data white4x4) <$> steps4 (len (data white4x4))
  = replicate 16 "224,224,224"%string /\
  edgeColorCounts (data white4x4) 4 4 = [("224,224,224"%string, 16)] /\
  backgroundColors (data white4x4) 4 4 = ["224,224,224"%string] /\
  isBackgroundAt (data white4x4) (backgroundColors (data white4x4) 4 4)
    <$> steps4 (len (data white4x4))
  = replicate 16 true /\
  (fun p => alphaAt (colorSegmentation white4x4) (p mod 4) (p / 4)) <$> seqZ 0 16
  = replicate 16 0 /\
  (fun p => rawColorAt (data (colorSegmentation white4x4)) (p * 4)) <$> seqZ 0 16
  = replicate 16 (255, 255, 255).
Proof. repeat split; vm_compute; reflexivity. Qed.

(** C10: every corner is pushed at least once by the row loops and at least
    once by the column loops; with at least two rows and two columns exactly
    once by each, twice in all.  No pixel is pushed more than four times; on
    a single row or column a corner is pushed at least three times, and the
    1x1 image pushes its only pixel four times.  Each push adds one to the
    histogram count of the pixel's colour. *)
Theorem corner_pixels_sampled_twice (w h : Z) :
  1 <= w -> 1 <= h ->
  (forall right bottom,
     (1 <= occurrences (corner w h right bottom) (rowSamples w h))%nat /\
     (1 <= occurrences (corner w h right bottom) (columnOnly w h))%nat) /\
  (2 <= w -> 2 <= h -> forall right bottom,
     occurrences (corner w h right bottom) (rowSamples w h) = 1%nat /\
     occurrences (corner w h right bottom) (columnOnly w h) = 1%nat /\
     occurrences (corner w h right bottom) (edgePixels w h) = 2%nat) /\
  (forall p, (occurrences p (edgePixels w h) <= 4)%nat) /\
  (w = 1 \/ h = 1 -> forall right bottom,
     (3 <= occurrences (corner w h right bottom) (edgePixels w h))%nat) /\
  (w = 1 -> h = 1 -> occurrences 0 (edgePixels w h) = 4%nat) /\
  (forall d key, countOf key (edgeColorCounts d w h) = borderWeight d w h key).
Proof.
  intros Hw Hh. repeat split.
  - by apply corner_rows_ge.
  - by apply corner_columns_ge.
  - by apply corner_rows_exact.
  - by apply corner_columns_exact.
  - rewrite edgePixels_eq, occurrences_app.
    rewrite corner_rows_exact, corner_columns_exact by done. done.
  - by apply occurrences_edgePixels_le.
  - intros Hdeg right bottom. by apply corner_degenerate.
  - intros -> ->. vm_compute. reflexivity.
  - intros d key. apply edgeColorCounts_weight.
Qed.

Lemma corner_pixels_sampled_twice_witness :
  occurrences (corner 4 4 true false) (rowSamples 4 4) = 1%nat /\
  occurrences (corner 4 4 true false) (columnOnly 4 4) = 1%nat /\
  occurrences (corner 4 4 true false) (edgePixels 4 4) = 2%nat.
Proof.
  pose proof (corner_pixels_sampled_twice 4 4 ltac:(lia) ltac:(lia)) as (_ & H & _).
  exact (H ltac:(lia) ltac:(lia) true false).
Defined.

(** ** Loads after a loop that stores four channels per pixel of a grid *)

Section RgbaGrid.
Variables (m w h : Z) (F : Z -> Z -> Z -> Z).

Lemma elem_of_rgbaWrites k v :
  (k, v) ∈ rgbaWrites m w h F <->
  exists x y c, m <= y < h - m /\ m <= x < w - m /\ 0 <= c < 4 /\
                k = (y * w + x) * 4 + c /\ v = F c x y.
Proof.
  unfold rgbaWrites. rewrite elem_of_gridWrites. split.
  - intros (x & y & Hy & Hx & Hp).
    repeat (apply elem_of_cons in Hp as [Hp|Hp];
            [injection Hp as -> ->;
             first [ exists x, y, 0; repeat split; lia
                   | exists x, y, 1; repeat split; lia
                   | exists x, y, 2; repeat split; lia
                   | exists x, y, 3; repeat split; lia ]|]).
    by apply elem_of_nil in Hp.
  - intros (x & y & c & Hy & Hx & Hc & -> & ->). exists x, y.
    repeat split; try lia.
    assert (c = 0 \/ c = 1 \/ c = 2 \/ c = 3) as [-> | [-> | [-> | ->]]] by lia.
    + rewrite Z.add_0_r. left.
    + right. left.
    + do 2 right. left.
    + do 3 right. left.
Qed.

Lemma load_rgbaWrites_hit a x y c :
  0 <= m -> m <= x < w - m -> m <= y < h - m -> 0 <= c < 4 ->
  0 <= (y * w + x) * 4 + c < len a ->
  load (applyWrites (rgbaWrites m w h F) a) ((y * w + x) * 4 + c) = clamp8 (F c x y).
Proof.
  intros Hm Hx Hy Hc Hk. apply load_applyWrites_hit; [| |done].
  - apply elem_of_rgbaWrites. by exists x, y, c.
  - intros v' Hv'.
    apply elem_of_rgbaWrites in Hv' as (x' & y' & c' & Hy' & Hx' & Hc' & E & ->).
    assert (c = c') as <- by lia.
    assert (y * w + x = y' * w + x') as E' by lia.
    apply pixel_inj in E' as [-> ->]; [done|lia|lia].
Qed.

Lemma load_rgbaWrites_margin a x y c :
  0 <= m -> 0 <= x < w -> ~ (m <= x < w - m /\ m <= y < h - m) -> 0 <= c < 4 ->
  load (applyWrites (rgbaWrites m w h F) a) ((y * w + x) * 4 + c)
  = load a ((y * w + x) * 4 + c).
Proof.
  intros Hm Hx Hout Hc. apply load_applyWrites_miss. intros v Hv.
  apply elem_of_rgbaWrites in Hv as (x' & y' & c' & Hy' & Hx' & Hc' & E & _).
  assert (c = c') as <- by lia.
  assert (y * w + x = y' * w + x') as E' by lia.
  apply pixel_inj in E' as [-> ->]; [|lia|lia]. apply Hout. lia.
Qed.
End RgbaGrid.

(** ** Conversion of a double to a byte *)

Lemma roundHalfEven_nonneg m e : 0 <= m -> 0 <= roundHalfEven m e.
Proof.
  intros Hm. unfold roundHalfEven. destruct (0 <=? e) eqn:E.
  - apply Z.mul_nonneg_nonneg; [done|]. apply Z.pow_nonneg. lia.
  - assert (0 < 2 ^ (- e)) as Hd by (apply Z.pow_pos_nonneg; lia).
    assert (0 <= m / 2 ^ (- e)) by (apply Z.div_pos; lia).
    cbv zeta. repeat (destruct (_ <? _) || destruct (Z.even _)); lia.
Qed.

Lemma byte_toUint8Clamp x : byte (toUint8Clamp x).
Proof.
  unfold toUint8Clamp, byte. destruct (Prim2SF x) as [s|s| |s m e]; try lia.
  - destruct s; lia.
  - destruct s; [lia|]. pose proof (roundHalfEven_nonneg (Z.pos m) e ltac:(lia)). lia.
Qed.

(** ** The edge detector, pixel by pixel *)

(** The accumulation of the horizontal kernel, term by term: the window is
    visited row by row and the centre column has weight 0. *)
Lemma sobelAt_pixelX d w x y :
  fst (sobelAt d w x y)
  = (0 + grayAt d (((y + -1) * w + (x + -1)) * 4) * -1
       + grayAt d (((y + -1) * w + (x + 0)) * 4) * 0
       + grayAt d (((y + -1) * w + (x + 1)) * 4) * 1
       + grayAt d (((y + 0) * w + (x + -1)) * 4) * -2
       + grayAt d (((y + 0) * w + (x + 0)) * 4) * 0
       + grayAt d (((y + 0) * w + (x + 1)) * 4) * 2
       + grayAt d (((y + 1) * w + (x + -1)) * 4) * -1
       + grayAt d (((y + 1) * w + (x + 0)) * 4) * 0
       + grayAt d (((y + 1) * w + (x + 1)) * 4) * 1)%float.
Proof. reflexivity. Qed.

Lemma sobelAt_pixelY d w x y :
  snd (sobelAt d w x y)
  = (0 + grayAt d (((y + -1) * w + (x + -1)) * 4) * -1
       + grayAt d (((y + -1) * w + (x + 0)) * 4) * -2
       + grayAt d (((y + -1) * w + (x + 1)) * 4) * -1
       + grayAt d (((y + 0) * w + (x + -1)) * 4) * 0
       + grayAt d (((y + 0) * w + (x + 0)) * 4) * 0
       + grayAt d (((y + 0) * w + (x + 1)) * 4) * 0
       + grayAt d (((y + 1) * w + (x + -1)) * 4) * 1
       + grayAt d (((y + 1) * w + (x + 0)) * 4) * 2
       + grayAt d (((y + 1) * w + (x + 1)) * 4) * 1)%float.
Proof. reflexivity. Qed.

Lemma detectEdges_eq img :
  detectEdges img
  = mkImageData
      (applyWrites
         (rgbaWrites 1 (width img) (height img) (edgeSample (data img) (width img)))
         (newArray (len (data img))))
      (width img) (height img).
Proof.
  unfold detectEdges. cbv zeta. f_equal.
  unfold rgbaWrites. by apply grid_loop.
Qed.

Lemma len_detectEdges img : len (data (detectEdges img)) = len (data img).
Proof.
  rewrite detectEdges_eq. simpl. rewrite len_applyWrites.
  apply len_newArray, len_nonneg.
Qed.

Lemma detectEdges_interior img x y c :
  wf img -> isInterior img x y -> 0 <= c < 4 ->
  channelAt (detectEdges img) x y c = edgeSample (data img) (width img) c x y.
Proof.
  intros Hwf [Hx Hy] Hc. unfold channelAt, pixelIndex.
  change (width (detectEdges img)) with (width img).
  rewrite detectEdges_eq. simpl. rewrite load_rgbaWrites_hit; try lia.
  - apply clamp8_byte. unfold edgeSample.
    destruct (c =? 3); [unfold byte; lia|apply byte_toUint8Clamp].
  - rewrite len_newArray by apply len_nonneg.
    apply in_image_index; [done| |lia]. split; lia.
Qed.

Lemma detectEdges_margin img x y c :
  inImage img x y -> ~ isInterior img x y -> 0 <= c < 4 ->
  channelAt (detectEdges img) x y c = 0.
Proof.
  intros Hin Hout Hc. unfold channelAt, pixelIndex.
  change (width (detectEdges img)) with (width img).
  rewrite detectEdges_eq. simpl.
  rewrite load_rgbaWrites_margin; [apply load_newArray|lia|apply Hin|done|done].
Qed.

(** ** Claims on the edge detector *)




(** ** Ordering of doubles against the constant 50 *)

Lemma digits2_pos_upper m : Z.pos m < 2 ^ Z.pos (digits2_pos m).
Proof.
  induction m as [m IH|m IH|]; cbn [digits2_pos].
  - rewrite Pos2Z.inj_succ, Z.pow_succ_r by lia. lia.
  - rewrite Pos2Z.inj_succ, Z.pow_succ_r by lia. lia.
  - reflexivity.
Qed.

Lemma digits2_pos_lower m : 2 ^ (Z.pos (digits2_pos m) - 1) <= Z.pos m.
Proof.
  induction m as [m IH|m IH|]; cbn [digits2_pos].
  - rewrite Pos2Z.inj_succ.
    replace (Z.succ (Z.pos (digits2_pos m)) - 1)
      with (Z.succ (Z.pos (digits2_pos m) - 1)) by lia.
    rewrite Z.pow_succ_r by lia. lia.
  - rewrite Pos2Z.inj_succ.
    replace (Z.succ (Z.pos (digits2_pos m)) - 1)
      with (Z.succ (Z.pos (digits2_pos m) - 1)) by lia.
    rewrite Z.pow_succ_r by lia. lia.
  - simpl. lia.
Qed.

(** The mantissa and exponent of a double: at most 53 bits, and exactly 53
    bits above the subnormal exponent. *)
Lemma valid_mantissa s m e :
  valid_binary (S754_finite s m e) = true ->
  Z.pos m < 2 ^ 53 /\ (-1074 < e -> 2 ^ 52 <= Z.pos m).
Proof.
  unfold SpecFloat.valid_binary, SpecFloat.bounded, SpecFloat.canonical_mantissa,
    SpecFloat.fexp, SpecFloat.emin, prec, emax.
  rewrite andb_true_iff, Z.eqb_eq, Z.leb_le. intros [Hc _].
  pose proof (digits2_pos_upper m) as Hu. pose proof (digits2_pos_lower m) as Hl.
  split.
  - assert (Z.pos (digits2_pos m) <= 53) as Hd by lia.
    eapply Z.lt_le_trans; [exact Hu|]. apply Z.pow_le_mono_r; lia.
  - intros He. assert (Z.pos (digits2_pos m) = 53) as Hd by lia.
    rewrite Hd in Hl. exact Hl.
Qed.

Lemma roundHalfEven_bounds m e :
  0 <= m -> e < 0 ->
  m / 2 ^ (- e) <= roundHalfEven m e <= m / 2 ^ (- e) + 1.
Proof.
  intros Hm He. unfold roundHalfEven.
  destruct (0 <=? e) eqn:E; [lia|]. cbv zeta.
  repeat (destruct (_ <? _) || destruct (Z.even _)); lia.
Qed.

Lemma Prim2SF_50 : Prim2SF 50 = S754_finite false 7036874417766400 (-47).
Proof. vm_compute. reflexivity. Qed.

Lemma SFcompare_pos_lt m e m0 e0 :
  SFltb (S754_finite false m e) (S754_finite false m0 e0) = true ->
  e < e0 \/ (e = e0 /\ Z.pos m < Z.pos m0).
Proof.
  unfold SFltb, SFcompare.
  change (PosDef.Pos.compare_cont Eq m m0) with (Pos.compare_cont Eq m m0).
  rewrite Pos.compare_cont_spec. simpl.
  destruct (Z.compare_spec e e0) as [->|Hl|Hg]; [|by left|discriminate].
  destruct (Pos.compare_spec m m0); try discriminate. intros _. right. lia.
Qed.

Lemma SFcompare_pos_ge m e m0 e0 :
  SFltb (S754_finite false m e) (S754_finite false m0 e0) = false ->
  e0 < e \/ (e = e0 /\ Z.pos m0 <= Z.pos m).
Proof.
  unfold SFltb, SFcompare.
  change (PosDef.Pos.compare_cont Eq m m0) with (Pos.compare_cont Eq m m0).
  rewrite Pos.compare_cont_spec. simpl.
  destruct (Z.compare_spec e e0) as [->|Hl|Hg]; [|discriminate|by left].
  destruct (Pos.compare_spec m m0); try discriminate; intros _; right; lia.
Qed.

Lemma toUint8Clamp_lt_50 (a : float) :
  (a <? 50)%float = true -> toUint8Clamp a <= 50.
Proof.
  rewrite ltb_spec, Prim2SF_50. unfold toUint8Clamp.
  pose proof (Prim2SF_valid a) as Hv.
  destruct (Prim2SF a) as [s|s| |s m e]; try lia.
  - destruct s; simpl; intros; [lia|discriminate].
  - destruct s; [lia|]. intros Hlt.
    apply valid_mantissa in Hv as [Hm _].
    apply SFcompare_pos_lt in Hlt as Hcase.
    assert (Z.pos m / 2 ^ (- e) < 50) as Hf.
    { apply Z.div_lt_upper_bound; [apply Z.pow_pos_nonneg; lia|].
      destruct Hcase as [He|[-> Hm']].
      - assert (2 ^ 48 <= 2 ^ (- e)) by (apply Z.pow_le_mono_r; lia).
        change (2 ^ 53) with (32 * 2 ^ 48) in Hm. lia.
      - change (2 ^ (- -47)) with 140737488355328. lia. }
    pose proof (roundHalfEven_bounds (Z.pos m) e ltac:(lia) ltac:(lia)). lia.
Qed.

Lemma toUint8Clamp_ge_50 (a : float) :
  is_nan a = false -> (a <? 50)%float = false -> 50 <= toUint8Clamp a.
Proof.
  unfold is_nan. rewrite FloatAxioms.eqb_spec, ltb_spec, Prim2SF_50. unfold toUint8Clamp.
  pose proof (Prim2SF_valid a) as Hv.
  destruct (Prim2SF a) as [s|s| |s m e]; simpl; try done.
  - destruct s; [done|lia].
  - destruct s; [done|]. intros _ Hlt.
    apply valid_mantissa in Hv as [Hm Hn].
    apply SFcompare_pos_ge in Hlt as Hcase.
    assert (50 <= roundHalfEven (Z.pos m) e); [|lia].
    destruct Hcase as [Hgt|[-> Hm']].
    + specialize (Hn ltac:(lia)).
      destruct (Z.lt_ge_cases e 0) as [Hneg|Hpos].
      * pose proof (roundHalfEven_bounds (Z.pos m) e ltac:(lia) ltac:(lia)) as [Hlo _].
        assert (50 <= Z.pos m / 2 ^ (- e)); [|lia].
        apply Z.div_le_lower_bound; [apply Z.pow_pos_nonneg; lia|].
        assert (2 ^ (- e) <= 2 ^ 46) by (apply Z.pow_le_mono_r; lia).
        change (2 ^ 52) with (64 * 2 ^ 46) in Hn. lia.
      * unfold roundHalfEven. destruct (0 <=? e) eqn:E; [|lia].
        assert (1 <= 2 ^ e) by (apply (Z.pow_le_mono_r 2 0 e); lia).
        change (2 ^ 52) with 4503599627370496 in Hn. nia.
    + pose proof (roundHalfEven_bounds (Z.pos m) (-47) ltac:(lia) ltac:(lia)) as [Hlo _].
      assert (50 <= Z.pos m / 2 ^ (- -47)); [|lia].
      apply Z.div_le_lower_bound; [done|]. change (2 ^ (- -47)) with 140737488355328. lia.
Qed.

(** The byte stored for [Math.min(alpha, 50)] is the smaller of 50 and the
    byte [alpha] alone would give. *)
Lemma toUint8Clamp_jsMin_50 (a : float) :
  toUint8Clamp (jsMin a 50) = Z.min (toUint8Clamp a) 50.
Proof.
  unfold jsMin. destruct (is_nan a) eqn:Hnan; simpl.
  - assert (toUint8Clamp a = 0) as ->; [|reflexivity].
    unfold is_nan in Hnan. rewrite FloatAxioms.eqb_spec in Hnan. unfold toUint8Clamp.
    destruct (Prim2SF a) as [s|s| |s m e]; try done.
    + destruct s; done.
    + exfalso. unfold SFeqb, SFcompare in Hnan.
      change (PosDef.Pos.compare_cont Eq m m) with (Pos.compare_cont Eq m m) in Hnan.
      destruct s; rewrite Z.compare_refl, Pos.compare_cont_refl in Hnan; done.
  - change (is_nan 50) with false. cbv iota.
    destruct (a <? 50)%float eqn:Hlt.
    + pose proof (toUint8Clamp_lt_50 a Hlt). lia.
    + pose proof (toUint8Clamp_ge_50 a Hnan Hlt).
      change (toUint8Clamp 50) with 50. lia.
Qed.

(** ** The radial mask, pixel by pixel *)

Lemma grid_loop0 w h (body : Z -> Z -> list Z -> list Z) W a :
  (forall x y a, body x y a = applyWrites (W x y) a) ->
  for_ 0 h (fun y a => for_ 0 w (fun x a => body x y a) a) a
  = applyWrites (gridWrites 0 w h W) a.
Proof.
  intros H. pose proof (grid_loop 0 w h body W a H) as E.
  rewrite !Z.sub_0_r in E. exact E.
Qed.

Lemma radialMask_eq img :
  radialMask img
  = mkImageData
      (applyWrites
         (alphaWrites 0 (width img) (height img)
            (fun x y => toUint8Clamp (simpleAlphaAt (width img) (height img) x y)))
         (data img))
      (width img) (height img).
Proof.
  unfold radialMask. cbv zeta. f_equal.
  unfold alphaWrites. by apply grid_loop0.
Qed.

Lemma radialMask_alpha img x y :
  wf img -> inImage img x y ->
  alphaAt (radialMask img) x y
  = toUint8Clamp (simpleAlphaAt (width img) (height img) x y).
Proof.
  intros Hwf [Hx Hy]. unfold alphaAt, pixelIndex.
  change (width (radialMask img)) with (width img).
  rewrite radialMask_eq. simpl. rewrite load_alphaWrites_hit; try lia.
  - apply clamp8_byte, byte_toUint8Clamp.
  - apply in_image_index; [done|done|lia].
Qed.

(** The band of the code against the distance to the nearest side: the test
    holds at distance below 10 of the left and top sides and at distance
    below 9 of the right and bottom sides. *)
Lemma isEdgePixel_band w h x y :
  isEdgePixel w h x y = true
  <-> x < 10 \/ w - 1 - x < 9 \/ y < 10 \/ h - 1 - y < 9.
Proof. unfold isEdgePixel. rewrite !orb_true_iff, !Z.ltb_lt. lia. Qed.

Lemma isEdgePixel_within_10 w h x y :
  isEdgePixel w h x y = true -> pixelEdgeDistance w h x y < 10.
Proof. rewrite isEdgePixel_band. unfold pixelEdgeDistance. lia. Qed.

(** The pixels at distance below 10 that the test misses are those of
    column [w - 10] and of row [h - 10]. *)
Lemma isEdgePixel_missed w h x y :
  pixelEdgeDistance w h x y < 10 -> isEdgePixel w h x y = false ->
  x = w - 10 \/ y = h - 10.
Proof.
  intros Hd Hb. apply not_true_iff_false in Hb. rewrite isEdgePixel_band in Hb.
  unfold pixelEdgeDistance in Hd. lia.
Qed.

(** ** Claims on the simple radial fallback *)

(** What the loop stores: the cap is applied where the test of the code
    holds and nowhere else. *)
Lemma radialMask_cap_on_band img x y :
  wf img -> inImage img x y ->
  alphaAt (radialMask img) x y
  = if isEdgePixel (width img) (height img) x y
    then Z.min (toUint8Clamp
                  (radialAlpha (normalizedDistanceAt (width img) (height img) x y))) 50
    else toUint8Clamp (radialAlpha (normalizedDistanceAt (width img) (height img) x y)).
Proof.
  intros Hwf Hin. rewrite radialMask_alpha by done. unfold simpleAlphaAt, capAlpha.
  destruct (isEdgePixel (width img) (height img) x y); [|done].
  apply toUint8Clamp_jsMin_50.
Qed.

(** On every image the pixels of column [width - 10] and of row
    [height - 10] that are at least 10 away from the left and top sides are
    at distance 9 or less of a side and keep their radial alpha,
    uncapped. *)
Lemma radialMask_far_side_uncapped img x y :
  wf img -> 10 <= x <= width img - 10 -> 10 <= y <= height img - 10 ->
  x = width img - 10 \/ y = height img - 10 ->
  inImage img x y /\
  pixelEdgeDistance (width img) (height img) x y = 9 /\
  alphaAt (radialMask img) x y
  = toUint8Clamp (radialAlpha (normalizedDistanceAt (width img) (height img) x y)).
Proof.
  intros Hwf Hx Hy Hfar.
  assert (inImage img x y) as Hin by (unfold inImage; lia).
  split; [exact Hin|]. split; [unfold pixelEdgeDistance; lia|].
  rewrite radialMask_cap_on_band by done.
  assert (isEdgePixel (width img) (height img) x y = false) as ->; [|done].
  apply not_true_iff_false. rewrite isEdgePixel_band. lia.
Qed.

(** C4 (every pixel at distance below 10 of the nearest side is capped at
    50): the code does not cap the pixels at distance 9 of the right and
    bottom sides.  Its test is [x < 10 || x > width - 10 || y < 10 ||
    y > height - 10]: ten columns on the left, nine on the right.  On the
    200x200 image pixel (190,100) is 9 pixels from the last column and
    leaves with alpha 232, while its mirror image (9,100), 9 pixels from the
    first column, is capped at 50; likewise (100,190) against (100,9).  The
    two values the claim gives hold: (100,100) gets 255 and (5,100) gets
    50.  The only pixel of this image at normalized distance 1.0 is the
    corner (0,0), inside the band; it gets 0, and the radial alpha at 1.0 is
    0. *)
Theorem radial_edge_band_misses_far_side :
  wf black200 /\
  inImage black200 190 100 /\
  pixelEdgeDistance 200 200 190 100 = 9 /\
  alphaAt (radialMask black200) 190 100 = 232 /\
  pixelEdgeDistance 200 200 9 100 = 9 /\
  alphaAt (radialMask black200) 9 100 = 50 /\
  pixelEdgeDistance 200 200 100 190 = 9 /\
  alphaAt (radialMask black200) 100 190 = 232 /\
  pixelEdgeDistance 200 200 100 9 = 9 /\
  alphaAt (radialMask black200) 100 9 = 50 /\
  alphaAt (radialMask black200) 100 100 = 255 /\
  alphaAt (radialMask black200) 5 100 = 50 /\
  unitDistancePixels 200 200 = [(0, 0)] /\
  isEdgePixel 200 200 0 0 = true /\
  alphaAt (radialMask black200) 0 0 = 0 /\
  toUint8Clamp (radialAlpha 1) = 0.
Proof.
  assert (wf black200) as Hwf by (apply wfb_wf; vm_compute; reflexivity).
  assert (forall x y, 0 <= x < 200 -> 0 <= y < 200 ->
            alphaAt (radialMask black200) x y = toUint8Clamp (simpleAlphaAt 200 200 x y))
    as Halpha.
  { intros x y Hx Hy. apply (radialMask_alpha black200 x y Hwf). split; assumption. }
  split; [exact Hwf|]. split; [vm_compute; intuition discriminate|].
  rewrite !Halpha by lia.
  repeat split; vm_compute; reflexivity.
Qed.

(** The band is the set [x < 10 || x > w - 10 || y < 10 || y > h - 10]: ten
    columns on the left, nine on the right.  Column 190 of a 200-wide image
    is outside it, column 191 inside. *)
Lemma radial_band_far_side :
  isEdgePixel 200 200 9 100 = true /\
  isEdgePixel 200 200 190 100 = false /\
  isEdgePixel 200 200 191 100 = true /\
  toUint8Clamp (simpleAlphaAt 200 200 190 100) = 232 /\
  toUint8Clamp (simpleAlphaAt 200 200 191 100) = 50.
Proof. repeat split; vm_compute; reflexivity. Qed.

(** The only pixel at normalized distance 1.0 is the corner (0, 0), which
    lies in the band; its alpha is 0 as well. *)
Lemma radial_corner_transparent :
  normalizedDistanceAt 200 200 0 0 = 1%float /\
  isEdgePixel 200 200 0 0 = true /\
  toUint8Clamp (simpleAlphaAt 200 200 0 0) = 0.
Proof. repeat split; vm_compute; reflexivity. Qed.

(** ** The blur: the loops as a fold over the kernel *)

Lemma fold_left_if {A B} (P : B -> bool) (F : A -> B -> A) (l : list B) acc :
  fold_left (fun acc b => if P b then F acc b else acc) l acc
  = fold_left F (List.filter P l) acc.
Proof.
  revert acc. induction l as [|b l IH]; intros acc; [done|].
  simpl. destruct (P b); simpl; apply IH.
Qed.

Lemma fold_left_fmap {A B C} (f : A -> C -> A) (g : B -> C) (l : list B) acc :
  fold_left f (g <$> l) acc = fold_left (fun acc b => f acc (g b)) l acc.
Proof. revert acc. induction l as [|b l IH]; intros acc; [done|]. apply IH. Qed.

Lemma fold_left_nested {A} (G : A -> Z -> Z -> A) (xs ys : list Z) acc :
  fold_left (fun acc dy => fold_left (fun acc dx => G acc dx dy) xs acc) ys acc
  = fold_left (fun acc o => G acc (fst o) (snd o))
      (ys ≫= (fun dy => (fun dx => (dx, dy)) <$> xs)) acc.
Proof.
  revert acc. induction ys as [|dy ys IH]; intros acc; [done|].
  cbn [fold_left mbind list_bind]. rewrite fold_left_app, fold_left_fmap.
  cbn [fst snd]. apply IH.
Qed.

(** The offsets the two loops keep are the thirteen of [kernelOffsets]. *)
Lemma kernelOffsets_filter :
  List.filter (fun o => inKernel (fst o) (snd o))
    (seqZ (- blurRadius) (blurRadius + 1 - - blurRadius) ≫= (fun dy =>
       (fun dx => (dx, dy)) <$> seqZ (- blurRadius) (blurRadius + 1 - - blurRadius)))
  = kernelOffsets.
Proof. vm_compute. reflexivity. Qed.

Lemma blurSums_eq rnd weightOf d w x y :
  blurSums rnd weightOf d w x y
  = accumulateAll rnd (blurSamples weightOf d w x y) (0%Q, 0%Q).
Proof.
  unfold blurSums, for_. cbv zeta.
  rewrite (fold_left_nested
             (fun acc dx dy =>
                if inKernel dx dy
                then accumulate rnd acc (load d (((y + dy) * w + (x + dx)) * 4 + 3))
                       (weightOf (offsetDistance dx dy))
                else acc)).
  rewrite (fold_left_if (fun o => inKernel (fst o) (snd o))
             (fun acc o =>
                accumulate rnd acc
                  (load d (((y + snd o) * w + (x + fst o)) * 4 + 3))
                  (weightOf (offsetDistance (fst o) (snd o))))).
  rewrite kernelOffsets_filter.
  unfold accumulateAll, blurSamples. by rewrite fold_left_fmap.
Qed.

(** ** Error analysis of the two running sums *)

Local Open Scope Q_scope.

Lemma Qmul_shrink (t X : Q) : 0 <= t -> t <= 1 -> 0 <= X -> t * X <= X.
Proof. intros. nra. Qed.

Lemma Qmul_grow (t X : Q) : 1 <= t -> 0 <= X -> X <= t * X.
Proof. intros. nra. Qed.

Lemma Qmul_nonneg (a b : Q) : 0 <= a -> 0 <= b -> 0 <= a * b.
Proof. intros. nra. Qed.

Lemma alg_lower (u k c lo a w S W r1 S' W' : Q) :
  0 <= u -> u <= 1 -> k * (1 + u) == (1 - u) * (1 - u) ->
  0 <= c -> c <= 1 -> 0 <= lo -> lo <= a -> 0 < w -> 0 <= W ->
  c * lo * W <= S ->
  (1 - u) * (a * w) <= r1 -> (1 - u) * (S + r1) <= S' ->
  W' <= (1 + u) * (W + w) -> 0 <= W' ->
  (k * c) * lo * W' <= S'.
Proof.
  intros Hu0 Hu1 Hk Hc0 Hc1 Hlo Ha Hw HW HS Hr1 HS' HW' HW0.
  assert (0 <= k) as Hk0.
  { assert (0 <= k * (1 + u)) by (rewrite Hk; nra). nra. }
  assert (0 <= c * lo) as HP by nra.
  assert (k * c * lo * W' <= (c * lo) * ((1 - u) * (1 - u)) * (W + w)) as H1.
  { assert (k * (c * lo) * W' <= k * (c * lo) * ((1 + u) * (W + w))) as H.
    { assert (0 <= k * (c * lo)) by nra. nra. }
    assert (k * (c * lo) * ((1 + u) * (W + w)) == (k * (1 + u)) * (c * lo) * (W + w)) as E by ring.
    rewrite Hk in E. lra. }
  assert ((1 - u) * (c * lo * W) + (1 - u) * (1 - u) * (lo * w) <= S') as H2.
  { assert ((1 - u) * (c * lo * W) <= (1 - u) * S) by nra.
    assert ((1 - u) * ((1 - u) * (lo * w)) <= (1 - u) * r1).
    { assert (lo * w <= a * w) by nra.
      assert ((1 - u) * (lo * w) <= (1 - u) * (a * w)) by nra. nra. }
    lra. }
  assert ((c * lo) * ((1 - u) * (1 - u)) * (W + w)
          <= (1 - u) * (c * lo * W) + (1 - u) * (1 - u) * (lo * w)) as H3.
  { assert (0 <= c * lo * W) as HX by (apply Qmul_nonneg; [nra|assumption]).
    pose proof (Qmul_shrink (1 - u) ((1 - u) * (c * lo * W)) ltac:(lra) ltac:(lra)
                  ltac:(apply Qmul_nonneg; [lra|exact HX])) as Ha'.
    assert (0 <= (1 - u) * (1 - u) * (lo * w)) as HY
      by (repeat apply Qmul_nonneg; lra).
    pose proof (Qmul_shrink c ((1 - u) * (1 - u) * (lo * w)) Hc0 Hc1 HY) as Hb'.
    lra. }
  lra.
Qed.

Lemma alg_upper (u k c hi a w S W r1 S' W' : Q) :
  0 <= u -> u < 1 -> k * (1 - u) == (1 + u) * (1 + u) ->
  1 <= c -> 0 <= a -> a <= hi -> 0 < w -> 0 <= W ->
  0 <= S -> S <= c * hi * W ->
  r1 <= (1 + u) * (a * w) -> S' <= (1 + u) * (S + r1) ->
  (1 - u) * (W + w) <= W' ->
  S' <= (k * c) * hi * W'.
Proof.
  intros Hu0 Hu1 Hk Hc1 Ha0 Ha Hw HW HS0 HS Hr1 HS' HW'.
  assert (0 <= k) as Hk0.
  { assert (0 <= k * (1 - u)) by (rewrite Hk; nra). nra. }
  assert (0 <= c * hi) as HP by nra.
  assert ((c * hi) * ((1 + u) * (1 + u)) * (W + w) <= k * c * hi * W') as H1.
  { assert (k * (c * hi) * ((1 - u) * (W + w)) <= k * (c * hi) * W') as H.
    { assert (0 <= k * (c * hi)) by nra. nra. }
    assert (k * (c * hi) * ((1 - u) * (W + w)) == (k * (1 - u)) * (c * hi) * (W + w)) as E by ring.
    rewrite Hk in E. lra. }
  assert (S' <= (1 + u) * (c * hi * W) + (1 + u) * (1 + u) * (hi * w)) as H2.
  { assert ((1 + u) * S <= (1 + u) * (c * hi * W)) by nra.
    assert ((1 + u) * r1 <= (1 + u) * ((1 + u) * (hi * w))).
    { assert (a * w <= hi * w) by nra.
      assert ((1 + u) * (a * w) <= (1 + u) * (hi * w)) by nra. nra. }
    lra. }
  assert ((1 + u) * (c * hi * W) + (1 + u) * (1 + u) * (hi * w)
          <= (c * hi) * ((1 + u) * (1 + u)) * (W + w)) as H3.
  { assert (0 <= c * hi * W) as HX by (apply Qmul_nonneg; [nra|assumption]).
    pose proof (Qmul_grow (1 + u) ((1 + u) * (c * hi * W)) ltac:(lra)
                  ltac:(apply Qmul_nonneg; [lra|exact HX])) as Ha'.
    assert (0 <= hi) as Hhi by lra.
    assert (0 <= (1 + u) * (1 + u) * (hi * w)) as HY
      by (repeat apply Qmul_nonneg; lra).
    pose proof (Qmul_grow c ((1 + u) * (1 + u) * (hi * w)) Hc1 HY) as Hb'.
    lra. }
  lra.
Qed.

Local Abbreviation u := unitRoundoff.

Lemma unitRoundoff_range : 0 <= u /\ u < 1.
Proof. split; [vm_compute; discriminate|vm_compute; reflexivity]. Qed.

Lemma kappaLow_eq : kappaLow * (1 + u) == (1 - u) * (1 - u).
Proof. vm_compute. reflexivity. Qed.

Lemma kappaHigh_eq : kappaHigh * (1 - u) == (1 + u) * (1 + u).
Proof. vm_compute. reflexivity. Qed.

Lemma kappaLow_range : 0 <= kappaLow /\ kappaLow <= 1.
Proof. split; vm_compute; discriminate. Qed.

Lemma kappaHigh_range : 1 <= kappaHigh.
Proof. vm_compute. discriminate. Qed.

Section BlurBound.
Variable rnd : Q -> Q.
Hypothesis Hrnd : roundsToNearest rnd.

Lemma accumulate_inv lo hi cl ch acc (a : Z) (w : Q) :
  0 <= cl -> cl <= 1 -> 1 <= ch -> 0 <= lo ->
  lo <= inject_Z a -> inject_Z a <= hi -> 0 < w ->
  blurInv lo hi cl ch acc ->
  blurInv lo hi (kappaLow * cl) (kappaHigh * ch) (accumulate rnd acc a w) /\
  0 < snd (accumulate rnd acc a w).
Proof.
  intros Hcl0 Hcl1 Hch Hlo Hla Hah Hw (HW & HS & HL & HU).
  destruct acc as [S W]. unfold accumulate, blurInv in *. cbn [fst snd] in *.
  destruct unitRoundoff_range as [Hu0 Hu1].
  assert (0 <= inject_Z a * w) as Haw by (apply Qmul_nonneg; lra).
  destruct (Hrnd (inject_Z a * w) Haw) as [Hr1l Hr1u].
  assert (0 <= rnd (inject_Z a * w)) as Hr1.
  { assert (0 <= (1 - u) * (inject_Z a * w)) by (apply Qmul_nonneg; lra). lra. }
  destruct (Hrnd (S + rnd (inject_Z a * w)) ltac:(lra)) as [HSl HSu].
  destruct (Hrnd (W + w) ltac:(lra)) as [HWl HWu].
  assert (0 < (1 - u) * (W + w)) as HWpos.
  { apply Qmult_lt_0_compat; lra. }
  assert (0 <= (1 - u) * (S + rnd (inject_Z a * w))) as HSpos
    by (apply Qmul_nonneg; lra).
  split; [|lra]. repeat split; try lra.
  - eapply (alg_lower u kappaLow cl lo (inject_Z a) w S W); eauto; try lra.
    apply kappaLow_eq.
  - eapply (alg_upper u kappaHigh ch hi (inject_Z a) w S W); eauto; try lra.
    apply kappaHigh_eq.
Qed.

Lemma accumulateAll_inv lo hi (samples : list (Z * Q)) :
  0 <= lo ->
  (forall s, s ∈ samples -> lo <= inject_Z (fst s) /\ inject_Z (fst s) <= hi /\ 0 < snd s) ->
  forall cl ch acc,
  0 <= cl -> cl <= 1 -> 1 <= ch ->
  blurInv lo hi cl ch acc ->
  blurInv lo hi (drift kappaLow (length samples) cl)
    (drift kappaHigh (length samples) ch) (accumulateAll rnd samples acc) /\
  (samples <> [] -> 0 < snd (accumulateAll rnd samples acc)).
Proof.
  intros Hlo. induction samples as [|s samples IH]; intros Hs cl ch acc Hcl0 Hcl1 Hch Hinv.
  - split; [exact Hinv|done].
  - destruct (Hs s ltac:(left)) as (Hsl & Hsh & Hsw).
    destruct (accumulate_inv lo hi cl ch acc (fst s) (snd s)
                Hcl0 Hcl1 Hch Hlo Hsl Hsh Hsw Hinv) as [Hinv' Hpos].
    destruct kappaLow_range as [Hk0 Hk1]. pose proof kappaHigh_range as HK.
    assert (0 <= kappaLow * cl) as H1 by (by apply Qmul_nonneg).
    assert (kappaLow * cl <= 1) as H2.
    { pose proof (Qmul_shrink kappaLow cl Hk0 Hk1 Hcl0). lra. }
    assert (1 <= kappaHigh * ch) as H3.
    { pose proof (Qmul_grow kappaHigh ch HK ltac:(lra)). lra. }
    destruct (IH (fun s' Hs' => Hs s' ltac:(by right)) _ _ _ H1 H2 H3 Hinv') as [Hfin Hfin'].
    split; [exact Hfin|]. intros _.
    destruct samples as [|s' samples']; [exact Hpos|]. by apply Hfin'.
Qed.
End BlurBound.

Lemma drift_low_13 :
  0 <= 1 - (1 - u) * drift kappaLow 13 1 /\
  255 * (1 - (1 - u) * drift kappaLow 13 1) <= 1 # 2.
Proof. split; vm_compute; discriminate. Qed.

Lemma drift_high_13 :
  0 <= (1 + u) * drift kappaHigh 13 1 - 1 /\
  255 * ((1 + u) * drift kappaHigh 13 1 - 1) < 1 # 2.
Proof. split; [vm_compute; discriminate|vm_compute; reflexivity]. Qed.

Lemma round_lower (c lo q : Q) :
  0 <= 1 - c -> 255 * (1 - c) <= 1 # 2 -> 0 <= lo -> lo <= 255 ->
  c * lo <= q -> lo <= q + (1 # 2).
Proof.
  intros Hd0 Hd Hlo0 Hlo Hq.
  assert ((1 - c) * lo <= (1 - c) * 255) by nra. lra.
Qed.

Lemma round_upper (c hi q : Q) :
  0 <= c - 1 -> 255 * (c - 1) < 1 # 2 -> 0 <= hi -> hi <= 255 ->
  q <= c * hi -> q + (1 # 2) < hi + 1.
Proof.
  intros Hd0 Hd Hhi0 Hhi Hq.
  assert ((c - 1) * hi <= (c - 1) * 255) by nra. lra.
Qed.

Lemma inject_Z_le (a b : Z) : (a <= b)%Z -> inject_Z a <= inject_Z b.
Proof. intros H. by rewrite <- Zle_Qle. Qed.

Lemma mathRound_bounds (rnd : Q -> Q) (samples : list (Z * Q)) (lo hi : Z) :
  roundsToNearest rnd -> length samples = 13%nat ->
  (0 <= lo)%Z -> (lo <= hi)%Z -> (hi <= 255)%Z ->
  (forall s, s ∈ samples -> (lo <= fst s)%Z /\ (fst s <= hi)%Z /\ 0 < snd s) ->
  (lo <= mathRound (rnd (fst (accumulateAll rnd samples (0%Q, 0%Q))
                         / snd (accumulateAll rnd samples (0%Q, 0%Q)))%Q) <= hi)%Z.
Proof.
  intros Hrnd Hlen Hlo Hlh Hhi Hs.
  assert (0 <= inject_Z lo) as HloQ by (apply (inject_Z_le 0 lo); lia).
  assert (inject_Z lo <= 255) as Hlo255 by (apply (inject_Z_le lo 255); lia).
  assert (0 <= inject_Z hi) as HhiQ by (apply (inject_Z_le 0 hi); lia).
  assert (inject_Z hi <= 255) as Hhi255 by (apply (inject_Z_le hi 255); lia).
  destruct (accumulateAll_inv rnd Hrnd (inject_Z lo) (inject_Z hi) samples HloQ) with
    (cl := 1) (ch := 1) (acc := (0%Q, 0%Q)) as [(HW & HS & HL & HU) Hpos].
  - intros s Hin. destruct (Hs s Hin) as (H1 & H2 & H3).
    split; [by apply inject_Z_le|]. split; [by apply inject_Z_le|done].
  - lra.
  - lra.
  - lra.
  - unfold blurInv. cbn [fst snd]. lra.
  - rewrite Hlen in HL, HU.
    assert (samples <> []) as Hne by (intros ->; discriminate).
    specialize (Hpos Hne).
    set (S := fst (accumulateAll rnd samples (0%Q, 0%Q))) in *.
    set (W := snd (accumulateAll rnd samples (0%Q, 0%Q))) in *.
    destruct drift_low_13 as [Hl0 Hl]. destruct drift_high_13 as [Hh0 Hh].
    set (cl := drift kappaLow 13 1) in *. set (ch := drift kappaHigh 13 1) in *.
    clearbody cl ch S W.
    destruct unitRoundoff_range as [Hu0 Hu1].
    assert (0 <= cl) as Hcl.
    { assert (0 <= (1 - u) * cl) by lra.
      destruct (Qlt_le_dec cl 0) as [Hneg|]; [|done].
      assert (0 <= (1 - u) * (- cl)) by (apply Qmul_nonneg; lra). lra. }
    assert (cl * inject_Z lo <= S / W) as Hq1.
    { apply Qle_shift_div_l; [done|]. lra. }
    assert (S / W <= ch * inject_Z hi) as Hq2.
    { apply Qle_shift_div_r; [done|]. lra. }
    assert (0 <= S / W) as Hq0.
    { assert (0 <= cl * inject_Z lo) by (by apply Qmul_nonneg). lra. }
    destruct (Hrnd (S / W) Hq0) as [Hr1 Hr2].
    set (q := rnd (S / W)) in *. clearbody q.
    assert ((1 - u) * cl * inject_Z lo <= q) as Hlow.
    { assert ((1 - u) * (cl * inject_Z lo) <= (1 - u) * (S / W)) by nra. lra. }
    assert (q <= (1 + u) * ch * inject_Z hi) as Hup.
    { assert ((1 + u) * (S / W) <= (1 + u) * (ch * inject_Z hi)) by nra. lra. }
    pose proof (round_lower ((1 - u) * cl) (inject_Z lo) q Hl0 Hl HloQ Hlo255 Hlow) as HA.
    pose proof (round_upper ((1 + u) * ch) (inject_Z hi) q Hh0 Hh HhiQ Hhi255 Hup) as HB.
    unfold mathRound. split.
    + rewrite <- (Qfloor_Z lo). by apply Qfloor_resp_le.
    + pose proof (Qfloor_le (q + (1 # 2))) as HF.
      assert (inject_Z (Qfloor (q + (1 # 2))) < inject_Z (hi + 1)) as HG.
      { rewrite inject_Z_plus. change (inject_Z 1) with 1. lra. }
      rewrite <- Zlt_Qlt in HG. lia.
Qed.

Local Close Scope Q_scope.

(** ** The blur, pixel by pixel *)

Lemma kernelOffsets_inKernel o :
  o ∈ kernelOffsets ->
  -2 <= fst o <= 2 /\ -2 <= snd o <= 2 /\ inKernel (fst o) (snd o) = true.
Proof.
  revert o. apply Forall_forall. unfold kernelOffsets.
  repeat (constructor; [vm_compute; intuition discriminate|]). constructor.
Qed.

Lemma blur_neighbour_inImage img x y dx dy :
  isProcessed img x y -> -2 <= dx <= 2 -> -2 <= dy <= 2 ->
  inImage img (x + dx) (y + dy).
Proof. unfold isProcessed, inImage. lia. Qed.

Lemma refineEdges_eq rnd weightOf img :
  refineEdges rnd weightOf img
  = mkImageData
      (applyWrites
         (alphaWrites 2 (width img) (height img)
            (smoothedAlpha rnd weightOf (data img) (width img)))
         (copyAll (data img) (newArray (len (data img)))))
      (width img) (height img).
Proof.
  unfold refineEdges. cbv zeta. f_equal.
  unfold alphaWrites. by apply grid_loop.
Qed.

Lemma len_refineEdges rnd weightOf img :
  len (data (refineEdges rnd weightOf img)) = len (data img).
Proof.
  rewrite refineEdges_eq. simpl. rewrite len_applyWrites, len_copyAll.
  apply len_newArray, len_nonneg.
Qed.

Lemma wf_refineEdges rnd weightOf img :
  wf img -> wf (refineEdges rnd weightOf img).
Proof.
  intros (Hw & Hh & Hlen & Hb). repeat split; try done.
  - by rewrite len_refineEdges.
  - rewrite refineEdges_eq. simpl. rewrite copyAll_writes.
    apply Forall_byte_applyWrites, Forall_byte_applyWrites, Forall_byte_newArray.
Qed.

Lemma refineEdges_rgb rnd weightOf img x y c :
  wf img -> inImage img x y -> 0 <= c < 3 ->
  channelAt (refineEdges rnd weightOf img) x y c = channelAt img x y c.
Proof.
  intros Hwf Hin Hc. unfold channelAt, pixelIndex.
  change (width (refineEdges rnd weightOf img)) with (width img).
  rewrite refineEdges_eq. simpl. rewrite load_alphaWrites_rgb by done.
  apply load_copyAll.
  - apply len_newArray, len_nonneg.
  - apply Hwf.
  - apply in_image_index; [done|done|lia].
Qed.

Lemma refineEdges_margin rnd weightOf img x y :
  wf img -> inImage img x y -> ~ isProcessed img x y ->
  alphaAt (refineEdges rnd weightOf img) x y = alphaAt img x y.
Proof.
  intros Hwf Hin Hout. unfold alphaAt, pixelIndex.
  change (width (refineEdges rnd weightOf img)) with (width img).
  rewrite refineEdges_eq. simpl.
  rewrite load_alphaWrites_margin; [|lia|apply Hin|exact Hout].
  apply load_copyAll.
  - apply len_newArray, len_nonneg.
  - apply Hwf.
  - apply in_image_index; [done|done|lia].
Qed.

Lemma smoothedAlpha_bounds rnd weightOf d w x y lo hi :
  roundsToNearest rnd -> (forall dist, (0 < weightOf dist)%Q) ->
  0 <= lo -> lo <= hi -> hi <= 255 ->
  (forall dx dy, -2 <= dx <= 2 -> -2 <= dy <= 2 -> inKernel dx dy = true ->
     lo <= load d (((y + dy) * w + (x + dx)) * 4 + 3) <= hi) ->
  lo <= smoothedAlpha rnd weightOf d w x y <= hi.
Proof.
  intros Hrnd Hw Hlo Hlh Hhi Hnb. unfold smoothedAlpha. cbv zeta.
  rewrite blurSums_eq. apply mathRound_bounds; try done.
  intros s Hs. unfold blurSamples in Hs.
  apply list_elem_of_fmap in Hs as (o & -> & Ho). cbn [fst snd].
  destruct (kernelOffsets_inKernel o Ho) as (Hdx & Hdy & Hk).
  destruct (Hnb (fst o) (snd o) Hdx Hdy Hk). repeat split; try done; apply Hw.
Qed.

Lemma refineEdges_processed rnd weightOf img x y :
  roundsToNearest rnd -> (forall dist, (0 < weightOf dist)%Q) ->
  wf img -> isProcessed img x y ->
  alphaAt (refineEdges rnd weightOf img) x y
  = smoothedAlpha rnd weightOf (data img) (width img) x y.
Proof.
  intros Hrnd Hw Hwf [Hx Hy]. unfold alphaAt, pixelIndex.
  change (width (refineEdges rnd weightOf img)) with (width img).
  rewrite refineEdges_eq. simpl. rewrite load_alphaWrites_hit; try lia.
  - apply clamp8_byte. unfold byte.
    apply smoothedAlpha_bounds; try done; try lia.
    intros dx dy _ _ _. apply (byte_load (data img)), Hwf.
  - rewrite len_copyAll, len_newArray by apply len_nonneg.
    apply in_image_index; [done| |lia]. split; lia.
Qed.

(** ** Claims on the edge smoothing *)

(** C7: with sums rounded to nearest and positive weights, the alpha written
    for a processed pixel lies between any two bounds of the input alphas
    over the in-kernel offsets (distance at most 2), so between their
    minimum and maximum; the colour channels of every pixel and the alpha of
    every pixel of the 2-pixel margin are those of the input. *)
Theorem refineEdges_alpha_within_neighbourhood
    (rnd : Q -> Q) (weightOf : float -> Q) (img : ImageData) :
  roundsToNearest rnd -> (forall dist, (0 < weightOf dist)%Q) -> wf img ->
  (forall x y lo hi, isProcessed img x y ->
     (forall dx dy, -2 <= dx <= 2 -> -2 <= dy <= 2 -> inKernel dx dy = true ->
        lo <= alphaAt img (x + dx) (y + dy) <= hi) ->
     lo <= alphaAt (refineEdges rnd weightOf img) x y <= hi) /\
  (forall x y c, inImage img x y -> 0 <= c < 3 ->
     channelAt (refineEdges rnd weightOf img) x y c = channelAt img x y c) /\
  (forall x y, inImage img x y -> ~ isProcessed img x y ->
     alphaAt (refineEdges rnd weightOf img) x y = alphaAt img x y).
Proof.
  intros Hrnd Hw Hwf. split; [|split].
  - intros x y lo hi Hproc Hnb.
    rewrite refineEdges_processed by done.
    pose proof (Hnb 0 0 ltac:(lia) ltac:(lia) ltac:(vm_compute; reflexivity)) as H00.
    assert (byte (alphaAt img (x + 0) (y + 0))) as Hb00 by apply byte_load, Hwf.
    assert (Z.max lo 0 <= smoothedAlpha rnd weightOf (data img) (width img) x y
            <= Z.min hi 255); [|lia].
    apply smoothedAlpha_bounds; try done; try (unfold byte in Hb00; lia).
    intros dx dy Hdx Hdy Hk. specialize (Hnb dx dy Hdx Hdy Hk).
    assert (byte (alphaAt img (x + dx) (y + dy))) as Hb by apply byte_load, Hwf.
    unfold alphaAt, pixelIndex, byte in *. lia.
  - intros x y c Hin Hc. by apply refineEdges_rgb.
  - intros x y Hin Hout. by apply refineEdges_margin.
Qed.

Lemma exactRnd_roundsToNearest : roundsToNearest exactRnd.
Proof.
  intros q Hq. unfold exactRnd.
  assert (0 <= unitRoundoff * q)%Q as H.
  { apply Qmul_nonneg; [|done]. vm_compute. discriminate. }
  split; lra.
Qed.

Lemma sampleWeight_pos dist : (0 < sampleWeight dist)%Q.
Proof.
  unfold sampleWeight.
  repeat (destruct (_ <? _)%float); reflexivity.
Qed.

Lemma refineEdges_alpha_within_neighbourhood_witness :
  wf checker5x5 /\
  0 <= alphaAt (refineEdges exactRnd sampleWeight checker5x5) 2 2 <= 255 /\
  alphaAt (refineEdges exactRnd sampleWeight checker5x5) 0 3 = alphaAt checker5x5 0 3.
Proof.
  assert (wf checker5x5) as Hwf by (apply wfb_wf; vm_compute; reflexivity).
  pose proof (refineEdges_alpha_within_neighbourhood exactRnd sampleWeight checker5x5
                exactRnd_roundsToNearest sampleWeight_pos Hwf) as (Hb & _ & Hm).
  split; [exact Hwf|]. split.
  - apply Hb; [vm_compute; intuition discriminate|].
    intros dx dy _ _ _. apply (byte_load (data checker5x5)), Hwf.
  - apply Hm; vm_compute; intuition discriminate.
Defined.

(** ** Claims on the main pipeline *)

Lemma getImageData_drawn img wd :
  0 < width img -> 0 < height img -> getImageData (draw img wd) = inr img.
Proof.
  intros Hw Hh. unfold getImageData, draw. simpl.
  destruct (width img <=? 0) eqn:E1; [lia|].
  destruct (height img <=? 0) eqn:E2; [lia|]. reflexivity.
Qed.


(** The whole pipeline on the 5x5 checkerboard, with exact sums. *)
Example processImage_checker5x5 :
  promise (processImage exactRnd sampleWeight "blob:checker" (OnLoad checker5x5) freshWorld)
  = Some (Fulfilled (PngOf (pipeline exactRnd sampleWeight checker5x5))) /\
  alphaAt (pipeline exactRnd sampleWeight checker5x5) 2 2 = 0 /\
  requests (processImage exactRnd sampleWeight "blob:checker" OnError freshWorld)
  = ["blob:checker"%string].
Proof. repeat split; vm_compute; reflexivity. Qed.

(** * Part III: further properties of the filters *)

(** ** The opening as a whole *)

(** The 3x3 extrema are attained, or are the value the loop started from. *)
Lemma max_step (src : list Z) (w x y a ky kx : Z) :
  0 <= ky < 3 -> 0 <= kx < 3 ->
  (a = 0 \/
   exists ky' kx', 0 <= ky' < 3 /\ 0 <= kx' < 3 /\
     a = load src (((y + ky' - 1) * w + (x + kx' - 1)) * 4 + 3)) ->
  Z.max a (load src (((y + ky - 1) * w + (x + kx - 1)) * 4 + 3)) = 0 \/
  exists ky' kx', 0 <= ky' < 3 /\ 0 <= kx' < 3 /\
    Z.max a (load src (((y + ky - 1) * w + (x + kx - 1)) * 4 + 3))
    = load src (((y + ky' - 1) * w + (x + kx' - 1)) * 4 + 3).
Proof.
  intros Hky Hkx IH.
  destruct (Z.max_spec a (load src (((y + ky - 1) * w + (x + kx - 1)) * 4 + 3)))
    as [[_ ->]|[_ ->]]; [|exact IH].
  right. by exists ky, kx.
Qed.

Lemma min_step (src : list Z) (w x y a ky kx : Z) :
  0 <= ky < 3 -> 0 <= kx < 3 ->
  (a = 255 \/
   exists ky' kx', 0 <= ky' < 3 /\ 0 <= kx' < 3 /\
     a = load src (((y + ky' - 1) * w + (x + kx' - 1)) * 4 + 3)) ->
  Z.min a (load src (((y + ky - 1) * w + (x + kx - 1)) * 4 + 3)) = 255 \/
  exists ky' kx', 0 <= ky' < 3 /\ 0 <= kx' < 3 /\
    Z.min a (load src (((y + ky - 1) * w + (x + kx - 1)) * 4 + 3))
    = load src (((y + ky' - 1) * w + (x + kx' - 1)) * 4 + 3).
Proof.
  intros Hky Hkx IH.
  destruct (Z.min_spec a (load src (((y + ky - 1) * w + (x + kx - 1)) * 4 + 3)))
    as [[_ ->]|[_ ->]]; [exact IH|].
  right. by exists ky, kx.
Qed.

Lemma maxAlphaAt_attained src w x y :
  maxAlphaAt src w x y = 0 \/
  exists ky kx, 0 <= ky < 3 /\ 0 <= kx < 3 /\
    maxAlphaAt src w x y = load src (((y + ky - 1) * w + (x + kx - 1)) * 4 + 3).
Proof.
  unfold maxAlphaAt. unfold_kernel_loop.
  repeat (apply max_step; [lia|lia|]). by left.
Qed.

Lemma minAlphaAt_attained src w x y :
  minAlphaAt src w x y = 255 \/
  exists ky kx, 0 <= ky < 3 /\ 0 <= kx < 3 /\
    minAlphaAt src w x y = load src (((y + ky - 1) * w + (x + kx - 1)) * 4 + 3).
Proof.
  unfold minAlphaAt. unfold_kernel_loop.
  repeat (apply min_step; [lia|lia|]). by left.
Qed.

(** A window sample, as the alpha of the neighbour it belongs to. *)
Lemma window_alphaAt img x y ky kx :
  load (data img) (((y + ky - 1) * width img + (x + kx - 1)) * 4 + 3)
  = alphaAt img (x + (kx - 1)) (y + (ky - 1)).
Proof. unfold alphaAt, pixelIndex. f_equal. ring. Qed.

Lemma alphaAt_window img x y dx dy :
  alphaAt img (x + dx) (y + dy)
  = load (data img) (((y + (dy + 1) - 1) * width img + (x + (dx + 1) - 1)) * 4 + 3).
Proof. unfold alphaAt, pixelIndex. f_equal. ring. Qed.

Lemma alphaAt_morph_interior img x y :
  wf img -> isInterior img x y ->
  alphaAt (morphologicalOperations img) x y = maxAlphaAt (eroded img) (width img) x y.
Proof.
  intros Hwf Hint. unfold alphaAt, pixelIndex.
  change (width (morphologicalOperations img)) with (width img).
  by apply load_morph_interior.
Qed.

(** The eroded alpha of any pixel of the image: the window minimum inside,
    zero on the margin. *)
Lemma eroded_window img x y ky kx :
  wf img -> isInterior img x y -> 0 <= ky < 3 -> 0 <= kx < 3 ->
  load (eroded img) (((y + ky - 1) * width img + (x + kx - 1)) * 4 + 3)
  = 0 \/
  (isInterior img (x + kx - 1) (y + ky - 1) /\
   load (eroded img) (((y + ky - 1) * width img + (x + kx - 1)) * 4 + 3)
   = minAlphaAt (data img) (width img) (x + kx - 1) (y + ky - 1)).
Proof.
  intros Hwf Hint Hky Hkx.
  pose proof (neighbour_inImage img x y ky kx Hint Hky Hkx) as Hnb.
  destruct (interior_dec img (x + kx - 1) (y + ky - 1)) as [Hint'|Hout'].
  - right. split; [done|]. by apply load_eroded_interior.
  - left. apply load_eroded_margin; [apply Hnb|done].
Qed.

(** X1: the opening never raises an alpha, and what it writes is a byte. *)
Theorem opening_never_raises_alpha (img : ImageData) (x y : Z) :
  wf img -> inImage img x y ->
  0 <= alphaAt (morphologicalOperations img) x y <= alphaAt img x y.
Proof.
  intros Hwf Hin. split; [|by apply morph_alpha_le].
  apply (byte_load (data (morphologicalOperations img))).
  apply Forall_byte_morphologicalOperations.
Qed.

Lemma opening_never_raises_alpha_witness :
  wf speck5x5 /\ inImage speck5x5 2 2 /\
  0 <= alphaAt (morphologicalOperations speck5x5) 2 2 <= alphaAt speck5x5 2 2.
Proof.
  assert (wf speck5x5) as Hwf by (apply wfb_wf; vm_compute; reflexivity).
  assert (inImage speck5x5 2 2) as Hin by (vm_compute; intuition discriminate).
  split; [exact Hwf|]. split; [exact Hin|].
  exact (opening_never_raises_alpha speck5x5 2 2 Hwf Hin).
Defined.

(** X2: the opening keeps the dimensions, the length of the buffer and the
    R, G and B samples of every pixel, and returns a well-formed image. *)
Theorem opening_keeps_colours_and_shape (img : ImageData) :
  wf img ->
  wf (morphologicalOperations img) /\
  width (morphologicalOperations img) = width img /\
  height (morphologicalOperations img) = height img /\
  len (data (morphologicalOperations img)) = len (data img) /\
  forall x y c, inImage img x y -> 0 <= c < 3 ->
    channelAt (morphologicalOperations img) x y c = channelAt img x y c.
Proof.
  intros Hwf. split; [by apply wf_morphologicalOperations|].
  split; [reflexivity|]. split; [reflexivity|].
  split; [apply len_morphologicalOperations|].
  intros x y c Hin Hc. by apply morph_rgb_unchanged.
Qed.

Lemma opening_keeps_colours_and_shape_witness :
  wf speck5x5 /\
  channelAt (morphologicalOperations speck5x5) 3 1 0 = channelAt speck5x5 3 1 0.
Proof.
  assert (wf speck5x5) as Hwf by (apply wfb_wf; vm_compute; reflexivity).
  split; [exact Hwf|].
  destruct (opening_keeps_colours_and_shape speck5x5 Hwf) as (_ & _ & _ & _ & H).
  apply H; vm_compute; intuition discriminate.
Defined.

Lemma minAlphaAt_mono s1 s2 w x y :
  (forall ky kx, 0 <= ky < 3 -> 0 <= kx < 3 ->
     load s1 (((y + ky - 1) * w + (x + kx - 1)) * 4 + 3)
     <= load s2 (((y + ky - 1) * w + (x + kx - 1)) * 4 + 3)) ->
  minAlphaAt s1 w x y <= minAlphaAt s2 w x y.
Proof.
  intros H. apply minAlphaAt_glb; [apply minAlphaAt_le_255|].
  intros ky kx Hky Hkx.
  etrans; [apply (minAlphaAt_le s1 w x y ky kx Hky Hkx)|by apply H].
Qed.

(** X3: the opening is monotone: a mask that is nowhere more opaque than
    another one stays so after both are opened. *)
Theorem opening_monotone (a b : ImageData) :
  wf a -> wf b -> width a = width b -> height a = height b ->
  (forall x y, inImage a x y -> alphaAt a x y <= alphaAt b x y) ->
  forall x y, inImage a x y ->
    alphaAt (morphologicalOperations a) x y <= alphaAt (morphologicalOperations b) x y.
Proof.
  intros Hwa Hwb Ew Eh Hle x y Hin.
  assert (forall u v, isInterior a u v <-> isInterior b u v) as Hint_ab
    by (intros u v; unfold isInterior; rewrite Ew, Eh; done).
  assert (inImage b x y) as Hinb by (unfold inImage in *; rewrite <- Ew, <- Eh; done).
  destruct (interior_dec a x y) as [Hint|Hout].
  - rewrite !alphaAt_morph_interior by (done || by apply Hint_ab).
    rewrite <- Ew.
    apply maxAlphaAt_lub; [apply maxAlphaAt_ge_0|]. intros ky kx Hky Hkx.
    etrans; [|apply (maxAlphaAt_ge (eroded b) (width a) x y ky kx Hky Hkx)].
    destruct (eroded_window a x y ky kx Hwa Hint Hky Hkx) as [-> | [Hq ->]].
    + apply (byte_load (eroded b)), Forall_byte_eroded.
    + pose proof (proj1 (Hint_ab _ _) Hq) as Hqb.
      pose proof (load_eroded_interior b _ _ Hwb Hqb) as E.
      rewrite <- Ew in E. rewrite E.
      apply minAlphaAt_mono. intros ky' kx' Hky' Hkx'.
      pose proof (window_alphaAt b (x + kx - 1) (y + ky - 1) ky' kx') as Eb.
      rewrite <- Ew in Eb. rewrite Eb, window_alphaAt.
      apply Hle. pose proof (neighbour_inImage a _ _ ky' kx' Hq Hky' Hkx') as Hn.
      unfold inImage in *. lia.
  - rewrite (morph_margin_alpha_zero a) by done.
    apply (byte_load (data (morphologicalOperations b))).
    apply Forall_byte_morphologicalOperations.
Qed.

Lemma opening_monotone_witness :
  alphaAt (morphologicalOperations speck5x5) 2 2
  <= alphaAt (morphologicalOperations (solid 5 5 90 90 90 255)) 2 2.
Proof.
  assert (wf speck5x5) as Hwa by (apply wfb_wf; vm_compute; reflexivity).
  assert (wf (solid 5 5 90 90 90 255)) as Hwb by (apply wfb_wf; vm_compute; reflexivity).
  apply (opening_monotone speck5x5 (solid 5 5 90 90 90 255) Hwa Hwb eq_refl eq_refl).
  - intros x y [Hx Hy]. change (width speck5x5) with 5 in Hx.
    change (height speck5x5) with 5 in Hy.
    assert (x = 0 \/ x = 1 \/ x = 2 \/ x = 3 \/ x = 4) as Hxs by lia.
    assert (y = 0 \/ y = 1 \/ y = 2 \/ y = 3 \/ y = 4) as Hys by lia.
    destruct Hxs as [-> | [-> | [-> | [-> | ->]]]];
      destruct Hys as [-> | [-> | [-> | [-> | ->]]]]; vm_compute; discriminate.
  - vm_compute. intuition discriminate.
Defined.

(** X4: a pixel the opening leaves with a positive alpha lies in a 3x3 block,
    centred on an interior pixel next to it, all of whose pixels had at
    least that alpha in the input.  Features that contain no full 3x3 block
    are erased. *)
Theorem opening_survivor_has_block (img : ImageData) (x y : Z) :
  wf img -> inImage img x y ->
  0 < alphaAt (morphologicalOperations img) x y ->
  exists cx cy,
    isInterior img cx cy /\ x - 1 <= cx <= x + 1 /\ y - 1 <= cy <= y + 1 /\
    forall dx dy, -1 <= dx <= 1 -> -1 <= dy <= 1 ->
      alphaAt (morphologicalOperations img) x y <= alphaAt img (cx + dx) (cy + dy).
Proof.
  intros Hwf Hin Hpos.
  destruct (interior_dec img x y) as [Hint|Hout];
    [|rewrite morph_margin_alpha_zero in Hpos by done; lia].
  rewrite alphaAt_morph_interior in * by done.
  destruct (maxAlphaAt_attained (eroded img) (width img) x y)
    as [E|(ky & kx & Hky & Hkx & E)]; [lia|].
  destruct (eroded_window img x y ky kx Hwf Hint Hky Hkx) as [E0 | [Hq Eq]]; [lia|].
  exists (x + kx - 1), (y + ky - 1). split; [done|]. split; [lia|]. split; [lia|].
  intros dx dy Hdx Hdy. rewrite E, Eq, alphaAt_window.
  apply minAlphaAt_le; lia.
Qed.

Lemma opening_survivor_has_block_witness :
  exists cx cy,
    isInterior speck5x5 cx cy /\ 1 - 1 <= cx <= 1 + 1 /\ 2 - 1 <= cy <= 2 + 1 /\
    forall dx dy, -1 <= dx <= 1 -> -1 <= dy <= 1 ->
      alphaAt (morphologicalOperations speck5x5) 1 2 <= alphaAt speck5x5 (cx + dx) (cy + dy).
Proof.
  apply (opening_survivor_has_block speck5x5 1 2).
  - apply wfb_wf. vm_compute. reflexivity.
  - vm_compute. intuition discriminate.
  - vm_compute. reflexivity.
Defined.

(** X5: conversely, a 3x3 block centred on an interior pixel whose nine
    alphas are at least [v] keeps at least [v] on each of its interior
    pixels; with X1, a fully opaque block stays fully opaque there. *)
Theorem opening_keeps_solid_block (img : ImageData) (cx cy x y v : Z) :
  wf img -> isInterior img cx cy -> isInterior img x y ->
  cx - 1 <= x <= cx + 1 -> cy - 1 <= y <= cy + 1 -> v <= 255 ->
  (forall dx dy, -1 <= dx <= 1 -> -1 <= dy <= 1 ->
     v <= alphaAt img (cx + dx) (cy + dy)) ->
  v <= alphaAt (morphologicalOperations img) x y.
Proof.
  intros Hwf Hc Hint Hx Hy Hv Hblock.
  rewrite alphaAt_morph_interior by done.
  pose proof (maxAlphaAt_ge (eroded img) (width img) x y (cy - y + 1) (cx - x + 1)
                ltac:(lia) ltac:(lia)) as Hge.
  replace (y + (cy - y + 1) - 1) with cy in Hge by lia.
  replace (x + (cx - x + 1) - 1) with cx in Hge by lia.
  rewrite load_eroded_interior in Hge by done.
  etrans; [|exact Hge].
  apply minAlphaAt_glb; [done|]. intros ky kx Hky Hkx.
  rewrite window_alphaAt. apply Hblock; lia.
Qed.

Lemma opening_keeps_solid_block_witness :
  90 <= alphaAt (morphologicalOperations (solid 5 5 90 90 90 90)) 2 1.
Proof.
  apply (opening_keeps_solid_block (solid 5 5 90 90 90 90) 2 2 2 1 90).
  - apply wfb_wf. vm_compute. reflexivity.
  - vm_compute. intuition discriminate.
  - vm_compute. intuition discriminate.
  - lia.
  - lia.
  - lia.
  - intros dx dy Hdx Hdy.
    assert (dx = -1 \/ dx = 0 \/ dx = 1) as Hxs by lia.
    assert (dy = -1 \/ dy = 0 \/ dy = 1) as Hys by lia.
    destruct Hxs as [-> | [-> | ->]]; destruct Hys as [-> | [-> | ->]];
      vm_compute; discriminate.
Defined.

(** X6: an image fewer than three pixels wide or high has no interior
    pixel, and the opening returns it fully transparent. *)
Theorem opening_small_image_transparent (img : ImageData) :
  wf img -> width img < 3 \/ height img < 3 ->
  forall x y, inImage img x y -> alphaAt (morphologicalOperations img) x y = 0.
Proof.
  intros Hwf Hsmall x y Hin. apply morph_margin_alpha_zero; [done|done|].
  unfold isInterior. lia.
Qed.

Lemma opening_small_image_transparent_witness :
  alphaAt (morphologicalOperations (solid 2 6 10 20 30 255)) 1 3 = 0.
Proof.
  apply (opening_small_image_transparent (solid 2 6 10 20 30 255)).
  - apply wfb_wf. vm_compute. reflexivity.
  - left. vm_compute. reflexivity.
  - vm_compute. intuition discriminate.
Defined.

(** X7: a binary mask stays binary: when every input alpha is 0 or 255, so
    is every alpha of the opened image. *)
Theorem opening_binary_stays_binary (img : ImageData) :
  wf img ->
  (forall x y, inImage img x y -> alphaAt img x y = 0 \/ alphaAt img x y = 255) ->
  forall x y, inImage img x y ->
    alphaAt (morphologicalOperations img) x y = 0 \/
    alphaAt (morphologicalOperations img) x y = 255.
Proof.
  intros Hwf Hbin x y Hin.
  destruct (interior_dec img x y) as [Hint|Hout];
    [|left; by apply morph_margin_alpha_zero].
  rewrite alphaAt_morph_interior by done.
  destruct (maxAlphaAt_attained (eroded img) (width img) x y)
    as [E|(ky & kx & Hky & Hkx & E)]; [by left|].
  rewrite E.
  destruct (eroded_window img x y ky kx Hwf Hint Hky Hkx) as [E0 | [Hq ->]]; [by left|].
  destruct (minAlphaAt_attained (data img) (width img) (x + kx - 1) (y + ky - 1))
    as [E1|(ky' & kx' & Hky' & Hkx' & ->)]; [by right|].
  rewrite window_alphaAt. apply Hbin.
  pose proof (neighbour_inImage img _ _ ky' kx' Hq Hky' Hkx') as Hn.
  unfold inImage in *. lia.
Qed.

Lemma opening_binary_stays_binary_witness :
  alphaAt (morphologicalOperations checker5x5) 2 2 = 0 \/
  alphaAt (morphologicalOperations checker5x5) 2 2 = 255.
Proof.
  apply (opening_binary_stays_binary checker5x5).
  - apply wfb_wf. vm_compute. reflexivity.
  - intros x y [Hx Hy]. change (width checker5x5) with 5 in Hx.
    change (height checker5x5) with 5 in Hy.
    assert (x = 0 \/ x = 1 \/ x = 2 \/ x = 3 \/ x = 4) as Hxs by lia.
    assert (y = 0 \/ y = 1 \/ y = 2 \/ y = 3 \/ y = 4) as Hys by lia.
    destruct Hxs as [-> | [-> | [-> | [-> | ->]]]];
      destruct Hys as [-> | [-> | [-> | [-> | ->]]]];
      vm_compute; (by left) || (by right).
  - vm_compute. intuition discriminate.
Defined.

(** ** The segmenter as a whole *)

(** *** Samples of the border and keys of the histogram *)

Lemma edgePixels_border w h p :
  1 <= w -> 1 <= h -> p ∈ edgePixels w h ->
  exists x y, 0 <= x < w /\ 0 <= y < h /\
    (x = 0 \/ y = 0 \/ x = w - 1 \/ y = h - 1) /\ p = y * w + x.
Proof.
  intros Hw Hh. rewrite edgePixels_eq, rowSamples_eq, columnOnly_eq.
  intros Hp. apply elem_of_app in Hp as [Hp|Hp];
    apply list_elem_of_bind in Hp as (i & Hp & Hi); apply elem_of_seqZ in Hi;
    apply elem_of_cons in Hp as [->|Hp].
  - exists i, 0. repeat split; lia.
  - apply list_elem_of_singleton in Hp as ->. exists i, (h - 1). repeat split; lia.
  - exists 0, i. repeat split; lia.
  - apply list_elem_of_singleton in Hp as ->. exists (w - 1), i. repeat split; lia.
Qed.

Lemma border_edgePixels w h x y :
  0 <= x < w -> 0 <= y < h ->
  x = 0 \/ y = 0 \/ x = w - 1 \/ y = h - 1 ->
  y * w + x ∈ edgePixels w h.
Proof.
  intros Hx Hy Hb. rewrite edgePixels_eq, rowSamples_eq, columnOnly_eq.
  apply elem_of_app.
  destruct Hb as [-> | [-> | [-> | ->]]].
  - right. apply list_elem_of_bind. exists y. split; [left|apply elem_of_seqZ; lia].
  - left. apply list_elem_of_bind. exists x. split; [left|apply elem_of_seqZ; lia].
  - right. apply list_elem_of_bind. exists y.
    split; [right; left|apply elem_of_seqZ; lia].
  - left. apply list_elem_of_bind. exists x.
    split; [right; left|apply elem_of_seqZ; lia].
Qed.

Lemma bump_keeps_keys key counts k :
  k ∈ (fst <$> counts) -> k ∈ (fst <$> bump key counts).
Proof.
  induction counts as [|[k' n] rest IH]; simpl.
  - intros H. by apply elem_of_nil in H.
  - intros H. destruct (String.eqb k' key); simpl; [done|].
    apply elem_of_cons in H as [->|H]; [left|right; by apply IH].
Qed.

Lemma bump_adds_key key counts : key ∈ (fst <$> bump key counts).
Proof.
  induction counts as [|[k' n] rest IH]; simpl; [left|].
  destruct (String.eqb k' key) eqn:E; simpl.
  - apply String.eqb_eq in E as ->. left.
  - by right.
Qed.

Lemma fold_bump_keys (keys : list string) counts k :
  k ∈ (fst <$> fold_left (fun c key => bump key c) keys counts)
  <-> k ∈ keys \/ k ∈ (fst <$> counts).
Proof.
  revert counts. induction keys as [|key keys IH]; intros counts; simpl.
  - split; [by right|]. intros [H|H]; [by apply elem_of_nil in H|done].
  - rewrite IH. split.
    + intros [H|H]; [left; by right|].
      apply bump_keys in H as [->|H]; [left; left|by right].
    + intros [H|H].
      * apply elem_of_cons in H as [->|H]; [right; apply bump_adds_key|by left].
      * right. by apply bump_keeps_keys.
Qed.

(** The keys of the border histogram are the keys of the border samples. *)
Lemma edgeColorCounts_key_iff d w h k :
  k ∈ (fst <$> edgeColorCounts d w h)
  <-> exists p, p ∈ edgePixels w h /\ k = keyAt d (p * 4).
Proof.
  unfold edgeColorCounts.
  rewrite (fold_bump_fmap (fun p => keyAt d (p * 4))), fold_bump_keys.
  rewrite list_elem_of_fmap. split.
  - intros [(p & -> & Hp)|H]; [by exists p|by apply elem_of_nil in H].
  - intros (p & Hp & ->). left. by exists p.
Qed.

Lemma backgroundColors_border_keys d w h k :
  k ∈ backgroundColors d w h -> k ∈ (fst <$> edgeColorCounts d w h).
Proof.
  rewrite backgroundColors_eq. unfold sortedEdgeColors. intros H.
  rewrite fmap_take in H.
  rewrite <- (sortDesc_perm (edgeColorCounts d w h)).
  eapply elem_of_sublist; [exact H|]. apply sublist_take.
Qed.

Lemma backgroundColors_all d w h :
  (length (edgeColorCounts d w h) <= 3)%nat ->
  forall k, k ∈ (fst <$> edgeColorCounts d w h) -> k ∈ backgroundColors d w h.
Proof.
  intros Hlen k Hk. rewrite backgroundColors_eq. unfold sortedEdgeColors.
  rewrite take_ge by (by rewrite sortDesc_perm).
  by rewrite sortDesc_perm.
Qed.

Lemma setHas_elem (s : list string) key : key ∈ s -> setHas s key = true.
Proof.
  intros H. unfold setHas. apply existsb_exists. exists key.
  split; [by apply list_elem_of_In|apply String.eqb_refl].
Qed.

(** A pixel whose key is in the background set is background. *)
Lemma isBackgroundAt_member d bg i : keyAt d i ∈ bg -> isBackgroundAt d bg i = true.
Proof.
  intros H. unfold isBackgroundAt. cbv zeta. fold (keyAt d i).
  by rewrite (setHas_elem bg (keyAt d i) H).
Qed.

Lemma segment_member_transparent img x y :
  wf img -> inImage img x y ->
  keyAt (data img) (pixelIndex (width img) x y)
    ∈ backgroundColors (data img) (width img) (height img) ->
  alphaAt (colorSegmentation img) x y = 0.
Proof.
  intros Hwf Hin Hk. rewrite segment_alpha by done.
  by rewrite isBackgroundAt_member.
Qed.

(** X8: the segmenter never returns a fully opaque image: some pixel of the
    border (one of the most frequent border colour) comes out transparent. *)
Theorem segmenter_removes_a_border_pixel (img : ImageData) :
  wf img ->
  exists x y, inImage img x y /\ isBorder img x y /\
    alphaAt (colorSegmentation img) x y = 0.
Proof.
  intros Hwf. pose proof Hwf as (Hw & Hh & _).
  set (d := data img). set (w := width img). set (h := height img).
  assert (exists k, k ∈ backgroundColors d w h) as (k & Hk).
  { rewrite backgroundColors_eq. unfold sortedEdgeColors.
    destruct (sortDesc (edgeColorCounts d w h)) as [|e rest] eqn:E.
    - exfalso.
      assert (keyAt d ((0 * w + 0) * 4) ∈ (fst <$> edgeColorCounts d w h)) as H0.
      { apply edgeColorCounts_key_iff. exists (0 * w + 0). split; [|done].
        apply border_edgePixels; lia. }
      rewrite <- (sortDesc_perm (edgeColorCounts d w h)), E in H0.
      by apply elem_of_nil in H0.
    - exists (fst e). simpl. left. }
  pose proof (backgroundColors_border_keys d w h k Hk) as Hhist.
  apply edgeColorCounts_key_iff in Hhist as (p & Hp & ->).
  apply edgePixels_border in Hp as (x & y & Hx & Hy & Hb & ->); [|lia|lia].
  exists x, y. split; [done|]. split; [exact Hb|].
  by apply segment_member_transparent.
Qed.

Lemma segmenter_removes_a_border_pixel_witness :
  exists x y, inImage greyDot3x3 x y /\ isBorder greyDot3x3 x y /\
    alphaAt (colorSegmentation greyDot3x3) x y = 0.
Proof.
  apply (segmenter_removes_a_border_pixel greyDot3x3).
  apply wfb_wf. vm_compute. reflexivity.
Defined.

(** With at most three keys on the border, each of them is selected. *)
Lemma border_keys_selected (img : ImageData) (palette : list string) :
  wf img -> (length palette <= 3)%nat ->
  (forall x y, inImage img x y -> isBorder img x y ->
     keyAt (data img) (pixelIndex (width img) x y) ∈ palette) ->
  forall x y, inImage img x y -> isBorder img x y ->
    keyAt (data img) (pixelIndex (width img) x y)
      ∈ backgroundColors (data img) (width img) (height img).
Proof.
  intros Hwf Hlen Hpal. pose proof Hwf as (Hw & Hh & _).
  set (d := data img) in *. set (w := width img) in *. set (h := height img) in *.
  assert (length (edgeColorCounts d w h) <= 3)%nat as Hhist.
  { rewrite <- (length_fmap fst). etrans; [|exact Hlen].
    apply submseteq_length, NoDup_submseteq; [apply edgeColorCounts_NoDup|].
    intros k Hk. apply edgeColorCounts_key_iff in Hk as (p & Hp & ->).
    apply edgePixels_border in Hp as (x & y & Hx & Hy & Hb & ->); [|lia|lia].
    by apply Hpal. }
  intros x y [Hx Hy] Hb. apply backgroundColors_all; [done|].
  apply edgeColorCounts_key_iff. exists (y * w + x). split; [|done].
  by apply border_edgePixels.
Qed.

(** X9: when the border shows at most three quantized colours, all of them
    are taken as background: every border pixel comes out transparent, and
    so does every pixel sharing the key of a border pixel. *)
Theorem segmenter_clears_border_of_few_colours (img : ImageData) (palette : list string) :
  wf img -> (length palette <= 3)%nat ->
  (forall x y, inImage img x y -> isBorder img x y ->
     keyAt (data img) (pixelIndex (width img) x y) ∈ palette) ->
  (forall x y, inImage img x y -> isBorder img x y ->
     alphaAt (colorSegmentation img) x y = 0) /\
  (forall x y bx by_, inImage img x y -> inImage img bx by_ -> isBorder img bx by_ ->
     keyAt (data img) (pixelIndex (width img) x y)
     = keyAt (data img) (pixelIndex (width img) bx by_) ->
     alphaAt (colorSegmentation img) x y = 0).
Proof.
  intros Hwf Hlen Hpal.
  pose proof (border_keys_selected img palette Hwf Hlen Hpal) as Hbg.
  split.
  - intros x y Hin Hb. apply segment_member_transparent; [done|done|by apply Hbg].
  - intros x y bx by_ Hin Hbin Hb E.
    apply segment_member_transparent; [done|done|].
    rewrite E. by apply Hbg.
Qed.

Lemma segmenter_clears_border_of_few_colours_witness :
  alphaAt (colorSegmentation greyDot3x3) 2 1 = 0.
Proof.
  assert (wf greyDot3x3) as Hwf by (apply wfb_wf; vm_compute; reflexivity).
  refine (proj1 (segmenter_clears_border_of_few_colours greyDot3x3 ["96,96,96"%string]
                   Hwf ltac:(simpl; lia) _) 2 1 _ _).
  - intros x y [Hx Hy] Hb. unfold isBorder in Hb.
    change (width greyDot3x3) with 3 in *. change (height greyDot3x3) with 3 in *.
    assert (x = 0 \/ x = 1 \/ x = 2) as Hxs by lia.
    assert (y = 0 \/ y = 1 \/ y = 2) as Hys by lia.
    destruct Hxs as [-> | [-> | ->]]; destruct Hys as [-> | [-> | ->]];
      first [lia | vm_compute; left].
  - vm_compute. intuition discriminate.
  - right. right. left. reflexivity.
Defined.

(** X10: the decision depends on the quantized colour alone: two pixels
    whose three samples fall in the same buckets of width 32 get the same
    alpha. *)
Theorem segmenter_decides_by_quantized_colour (img : ImageData) (x y x' y' : Z) :
  wf img -> inImage img x y -> inImage img x' y' ->
  (forall c, 0 <= c < 3 ->
     quantize (channelAt img x y c) = quantize (channelAt img x' y' c)) ->
  alphaAt (colorSegmentation img) x y = alphaAt (colorSegmentation img) x' y'.
Proof.
  intros Hwf Hin Hin' Hq. rewrite !segment_alpha by done.
  pose proof (Hq 0 ltac:(lia)) as H0. pose proof (Hq 1 ltac:(lia)) as H1.
  pose proof (Hq 2 ltac:(lia)) as H2.
  unfold channelAt in H0, H1, H2. rewrite !Z.add_0_r in H0.
  unfold isBackgroundAt. cbv zeta. by rewrite H0, H1, H2.
Qed.

Lemma segmenter_decides_by_quantized_colour_witness :
  alphaAt (colorSegmentation greyDot3x3) 0 0 = alphaAt (colorSegmentation greyDot3x3) 2 1.
Proof.
  apply (segmenter_decides_by_quantized_colour greyDot3x3 0 0 2 1).
  - apply wfb_wf. vm_compute. reflexivity.
  - vm_compute. intuition discriminate.
  - vm_compute. intuition discriminate.
  - intros c Hc. assert (c = 0 \/ c = 1 \/ c = 2) as [-> | [-> | ->]] by lia;
      vm_compute; reflexivity.
Defined.

(** X11: keys round-trip: splitting the key of a pixel at the commas and
    reading the parts as numbers gives back its three quantized samples, so
    two pixels share a key exactly when their quantized colours agree. *)
Theorem histogram_key_round_trip (d : list Z) (i j : Z) :
  Forall byte d ->
  parseColor (keyAt d i)
  = [Some (quantize (load d i)); Some (quantize (load d (i + 1)));
     Some (quantize (load d (i + 2)))] /\
  (keyAt d i = keyAt d j <-> quantizedColorAt d i = quantizedColorAt d j).
Proof.
  intros Hb.
  assert (forall k, parseColor (keyAt d k)
            = [Some (quantize (load d k)); Some (quantize (load d (k + 1)));
               Some (quantize (load d (k + 2)))]) as Hparse.
  { intros k. unfold keyAt. cbv zeta.
    destruct (quantize_byte (load d k) (byte_load _ _ Hb)) as (a & Ha & ->).
    destruct (quantize_byte (load d (k + 1)) (byte_load _ _ Hb)) as (b & Hb' & ->).
    destruct (quantize_byte (load d (k + 2)) (byte_load _ _ Hb)) as (c & Hc & ->).
    by apply parseColor_colorKey. }
  split; [apply Hparse|]. split.
  - intros E. pose proof (Hparse i) as Hi. rewrite E, Hparse in Hi.
    injection Hi as E0 E1 E2. unfold quantizedColorAt. by rewrite E0, E1, E2.
  - unfold quantizedColorAt, keyAt. intros E. injection E as E0 E1 E2.
    cbv zeta. by rewrite E0, E1, E2.
Qed.

Lemma histogram_key_round_trip_witness :
  parseColor (keyAt (data greyDot3x3) 16) = [Some 32; Some 32; Some 32].
Proof.
  refine (proj1 (histogram_key_round_trip (data greyDot3x3) 16 0 _)).
  assert (wf greyDot3x3) as Hwf by (apply wfb_wf; vm_compute; reflexivity).
  apply Hwf.
Defined.

(** *** Totals *)

Lemma countTotal_bump key counts : countTotal (bump key counts) = countTotal counts + 1.
Proof.
  induction counts as [|[k n] rest IH]; [reflexivity|].
  cbn [bump]. destruct (String.eqb k key).
  - unfold countTotal. cbn [foldr snd]. lia.
  - change (countTotal ((k, n) :: bump key rest)) with (n + countTotal (bump key rest)).
    change (countTotal ((k, n) :: rest)) with (n + countTotal rest).
    rewrite IH. lia.
Qed.

Lemma countTotal_fold_bump {A} (f : A -> string) (l : list A) counts :
  countTotal (fold_left (fun c p => bump (f p) c) l counts)
  = countTotal counts + Z.of_nat (length l).
Proof.
  revert counts. induction l as [|p l IH]; intros counts; simpl; [lia|].
  rewrite IH, countTotal_bump. lia.
Qed.

Lemma length_bind_pairs (f g : Z -> Z) (l : list Z) :
  length (l ≫= (fun i => [f i; g i])) = (2 * length l)%nat.
Proof.
  induction l as [|i l IH]; [done|].
  rewrite bind_cons, length_app, IH. simpl. lia.
Qed.

Lemma length_edgePixels w h :
  0 <= w -> 0 <= h -> Z.of_nat (length (edgePixels w h)) = 2 * w + 2 * h.
Proof.
  intros Hw Hh. rewrite edgePixels_eq, rowSamples_eq, columnOnly_eq.
  rewrite length_app, !length_bind_pairs, !length_seqZ. lia.
Qed.

Lemma length_steps4 n : 0 <= n -> Z.of_nat (length (steps4 n)) = (n + 3) / 4.
Proof.
  intros Hn. unfold steps4. rewrite length_fmap, length_seqZ.
  assert (0 <= (n + 3) / 4) by (apply Z.div_pos; lia). lia.
Qed.

(** X12: the border histogram counts one per sample, 2 * width + 2 * height
    in all (four more than there are border pixels when both dimensions
    exceed one); the histogram of the whole image, which the source builds
    and never reads, counts every pixel once. *)
Theorem histograms_count_every_sample (img : ImageData) :
  wf img ->
  countTotal (edgeColorCounts (data img) (width img) (height img))
  = 2 * width img + 2 * height img /\
  countTotal (colorCounts (data img)) = width img * height img.
Proof.
  intros (Hw & Hh & Hlen & _). split.
  - unfold edgeColorCounts.
    rewrite (countTotal_fold_bump (fun p => keyAt (data img) (p * 4))).
    rewrite length_edgePixels by lia. change (countTotal []) with 0. lia.
  - unfold colorCounts, for4.
    rewrite (countTotal_fold_bump (keyAt (data img))).
    rewrite length_steps4 by apply len_nonneg. rewrite Hlen.
    replace (4 * width img * height img + 3) with (3 + width img * height img * 4) by ring.
    rewrite (Z.div_add 3 (width img * height img) 4) by lia.
    change (countTotal []) with 0. change (3 / 4) with 0. lia.
Qed.

Lemma histograms_count_every_sample_witness :
  countTotal (edgeColorCounts (data greyDot3x3) 3 3) = 12 /\
  countTotal (colorCounts (data greyDot3x3)) = 9.
Proof.
  assert (wf greyDot3x3) as Hwf by (apply wfb_wf; vm_compute; reflexivity).
  exact (histograms_count_every_sample greyDot3x3 Hwf).
Defined.

(** *** Independence of the input alpha *)

Lemma fold_left_ext_in {A B} (f g : A -> B -> A) (l : list B) a :
  (forall a b, b ∈ l -> f a b = g a b) -> fold_left f l a = fold_left g l a.
Proof.
  revert a. induction l as [|b l IH]; intros a H; [done|]. simpl.
  rewrite H by left. apply IH. intros a' b' Hb'. apply H. by right.
Qed.

(** Two buffers of one geometry that agree on the colour samples. *)
Lemma colour_samples_agree (a b : ImageData) p c :
  width a = width b -> 0 < width a ->
  (forall x y c, inImage a x y -> 0 <= c < 3 -> channelAt a x y c = channelAt b x y c) ->
  0 <= p < width a * height a -> 0 <= c < 3 ->
  load (data a) (p * 4 + c) = load (data b) (p * 4 + c).
Proof.
  intros Ew Hw Hrgb Hp Hc.
  pose proof (Z.div_mod p (width a) ltac:(lia)) as Hdiv.
  pose proof (Z.mod_pos_bound p (width a) ltac:(lia)) as Hmod.
  assert (0 <= p / width a) by (apply Z.div_pos; lia).
  assert (p / width a < height a) by (apply Z.div_lt_upper_bound; lia).
  specialize (Hrgb (p mod width a) (p / width a) c ltac:(unfold inImage; lia) Hc).
  unfold channelAt, pixelIndex in Hrgb. rewrite <- Ew in Hrgb.
  replace (p / width a * width a + p mod width a) with p in Hrgb by lia.
  exact Hrgb.
Qed.

Lemma keyAt_agree (a b : ImageData) p :
  width a = width b -> 0 < width a ->
  (forall x y c, inImage a x y -> 0 <= c < 3 -> channelAt a x y c = channelAt b x y c) ->
  0 <= p < width a * height a ->
  keyAt (data a) (p * 4) = keyAt (data b) (p * 4).
Proof.
  intros Ew Hw Hrgb Hp. unfold keyAt.
  pose proof (colour_samples_agree a b p 0 Ew Hw Hrgb Hp ltac:(lia)) as H0.
  pose proof (colour_samples_agree a b p 1 Ew Hw Hrgb Hp ltac:(lia)) as H1.
  pose proof (colour_samples_agree a b p 2 Ew Hw Hrgb Hp ltac:(lia)) as H2.
  rewrite Z.add_0_r in H0. by rewrite H0, H1, H2.
Qed.

Lemma isBackgroundAt_agree (a b : ImageData) bg p :
  width a = width b -> 0 < width a ->
  (forall x y c, inImage a x y -> 0 <= c < 3 -> channelAt a x y c = channelAt b x y c) ->
  0 <= p < width a * height a ->
  isBackgroundAt (data a) bg (p * 4) = isBackgroundAt (data b) bg (p * 4).
Proof.
  intros Ew Hw Hrgb Hp. unfold isBackgroundAt.
  pose proof (colour_samples_agree a b p 0 Ew Hw Hrgb Hp ltac:(lia)) as H0.
  pose proof (colour_samples_agree a b p 1 Ew Hw Hrgb Hp ltac:(lia)) as H1.
  pose proof (colour_samples_agree a b p 2 Ew Hw Hrgb Hp ltac:(lia)) as H2.
  rewrite Z.add_0_r in H0. by rewrite H0, H1, H2.
Qed.

Lemma backgroundColors_agree (a b : ImageData) :
  wf a -> width a = width b -> height a = height b ->
  (forall x y c, inImage a x y -> 0 <= c < 3 -> channelAt a x y c = channelAt b x y c) ->
  backgroundColors (data a) (width a) (height a)
  = backgroundColors (data b) (width b) (height b).
Proof.
  intros (Hw & Hh & _) Ew Eh Hrgb. rewrite <- Ew, <- Eh.
  unfold backgroundColors, sortedEdgeColors, edgeColorCounts. do 4 f_equal.
  apply fold_left_ext_in. intros counts p Hp. cbv zeta. f_equal.
  apply keyAt_agree; try done. apply edgePixels_inImage in Hp; lia.
Qed.

(** X13: the segmenter never reads the alpha of its input: two images of one
    size with the same R, G and B samples give the same output, whatever
    their alphas. *)
Theorem segmenter_ignores_input_alpha (a b : ImageData) :
  wf a -> wf b -> width a = width b -> height a = height b ->
  (forall x y c, inImage a x y -> 0 <= c < 3 -> channelAt a x y c = channelAt b x y c) ->
  colorSegmentation a = colorSegmentation b.
Proof.
  intros Hwa Hwb Ew Eh Hrgb.
  pose proof Hwa as (Hw & Hh & Hla & Hba). pose proof Hwb as (_ & _ & Hlb & Hbb).
  assert (len (data a) = len (data b)) as Hlen by (rewrite Hla, Hlb, Ew, Eh; done).
  apply ImageData_eq; [|exact Ew|exact Eh].
  rewrite !colorSegmentation_eq. cbn [data].
  rewrite <- (backgroundColors_agree a b Hwa Ew Eh Hrgb).
  set (bg := backgroundColors (data a) (width a) (height a)).
  apply array_ext.
  - rewrite !len_maskLoop, !len_newArray by apply len_nonneg. exact Hlen.
  - intros k Hk. rewrite len_maskLoop, len_newArray in Hk by apply len_nonneg.
    destruct (index_decompose a k Hwa Hk) as (x & y & c & [Hx Hy] & Hc & ->).
    pose proof (pixel_bound (width a) (height a) x y Hx Hy) as Hp.
    assert (c = 3 \/ 0 <= c < 3) as [-> | Hc3] by lia.
    + rewrite !load_maskLoop_alpha;
        try (apply len_newArray, len_nonneg); try (rewrite <- ?Hlen, Hla; nia).
      by rewrite (isBackgroundAt_agree a b bg _ Ew Hw Hrgb Hp).
    + rewrite !load_maskLoop_rgb;
        try done; try (apply len_newArray, len_nonneg);
        try (rewrite <- ?Hlen, Hla; nia).
      by apply colour_samples_agree.
Qed.

Lemma segmenter_ignores_input_alpha_witness :
  colorSegmentation (solid 3 3 96 96 96 255) = colorSegmentation (solid 3 3 96 96 96 7).
Proof.
  apply segmenter_ignores_input_alpha.
  - apply wfb_wf. vm_compute. reflexivity.
  - apply wfb_wf. vm_compute. reflexivity.
  - reflexivity.
  - reflexivity.
  - intros x y c [Hx Hy] Hc.
    change (width (solid 3 3 96 96 96 255)) with 3 in Hx.
    change (height (solid 3 3 96 96 96 255)) with 3 in Hy.
    assert (x = 0 \/ x = 1 \/ x = 2) as Hxs by lia.
    assert (y = 0 \/ y = 1 \/ y = 2) as Hys by lia.
    assert (c = 0 \/ c = 1 \/ c = 2) as Hcs by lia.
    destruct Hxs as [-> | [-> | ->]]; destruct Hys as [-> | [-> | ->]];
      destruct Hcs as [-> | [-> | ->]]; vm_compute; reflexivity.
Defined.

(** ** The edge detector as a whole *)

(** The accumulation reads the grey values of the window and nothing else. *)
Lemma sobelAt_ext d1 d2 w x y :
  (forall dx dy, -1 <= dx <= 1 -> -1 <= dy <= 1 ->
     grayAt d1 (((y + dy) * w + (x + dx)) * 4) = grayAt d2 (((y + dy) * w + (x + dx)) * 4)) ->
  sobelAt d1 w x y = sobelAt d2 w x y.
Proof.
  intros H.
  rewrite (surjective_pairing (sobelAt d1 w x y)), (surjective_pairing (sobelAt d2 w x y)).
  rewrite !sobelAt_pixelX, !sobelAt_pixelY.
  rewrite (H (-1) (-1)), (H 0 (-1)), (H 1 (-1)), (H (-1) 0), (H 0 0), (H 1 0),
    (H (-1) 1), (H 0 1), (H 1 1) by lia.
  reflexivity.
Qed.

Lemma sobelAt_flat d w x y g :
  (forall dx dy, -1 <= dx <= 1 -> -1 <= dy <= 1 ->
     grayAt d (((y + dy) * w + (x + dx)) * 4) = g) ->
  sobelAt d w x y = flatSobel g.
Proof.
  intros H. rewrite (surjective_pairing (sobelAt d w x y)).
  rewrite sobelAt_pixelX, sobelAt_pixelY.
  rewrite (H (-1) (-1)), (H 0 (-1)), (H 1 (-1)), (H (-1) 0), (H 0 0), (H 1 0),
    (H (-1) 1), (H 0 1), (H 1 1) by lia.
  reflexivity.
Qed.

Lemma flatWindowsVanish_true : flatWindowsVanish = true.
Proof. vm_compute. reflexivity. Qed.

Lemma flatMagnitude_vanishes s :
  0 <= s <= 765 -> toUint8Clamp (flatMagnitude (num s / 3)) = 0.
Proof.
  intros Hs. pose proof flatWindowsVanish_true as H. unfold flatWindowsVanish in H.
  pose proof (forallb_seqZ _ _ _ H s ltac:(lia)) as H1. cbv beta in H1.
  by apply Z.eqb_eq in H1.
Qed.

(** X14: where the nine pixels of the window of an interior pixel have the
    same sum R + G + B (a flat region, whatever its colour), the detector
    stores 0 in R, G and B: the rounding of the additions never leaves a
    residue that reaches the byte. *)
Theorem detectEdges_flat_window_zero (img : ImageData) (x y s : Z) :
  wf img -> isInterior img x y ->
  (forall dx dy, -1 <= dx <= 1 -> -1 <= dy <= 1 ->
     channelAt img (x + dx) (y + dy) 0 + channelAt img (x + dx) (y + dy) 1
     + channelAt img (x + dx) (y + dy) 2 = s) ->
  forall c, 0 <= c < 3 -> channelAt (detectEdges img) x y c = 0.
Proof.
  intros Hwf Hint Hflat c Hc.
  rewrite detectEdges_interior by (done || lia).
  unfold edgeSample. destruct (c =? 3) eqn:E; [lia|].
  assert (0 <= s <= 765) as Hs.
  { rewrite <- (Hflat 0 0 ltac:(lia) ltac:(lia)).
    pose proof (byte_load (data img) (pixelIndex (width img) (x + 0) (y + 0) + 0)
                  (proj2 (proj2 (proj2 Hwf)))) as B0.
    pose proof (byte_load (data img) (pixelIndex (width img) (x + 0) (y + 0) + 1)
                  (proj2 (proj2 (proj2 Hwf)))) as B1.
    pose proof (byte_load (data img) (pixelIndex (width img) (x + 0) (y + 0) + 2)
                  (proj2 (proj2 (proj2 Hwf)))) as B2.
    unfold channelAt, byte in *. lia. }
  unfold magnitudeAt. cbv zeta.
  rewrite (sobelAt_flat (data img) (width img) x y (num s / 3)).
  - by apply flatMagnitude_vanishes.
  - intros dx dy Hdx Hdy. specialize (Hflat dx dy Hdx Hdy).
    unfold channelAt, pixelIndex in Hflat. rewrite Z.add_0_r in Hflat.
    unfold grayAt. by rewrite Hflat.
Qed.

Lemma detectEdges_flat_window_zero_witness :
  channelAt (detectEdges (solid 3 3 10 200 77 255)) 1 1 0 = 0.
Proof.
  apply (detectEdges_flat_window_zero (solid 3 3 10 200 77 255) 1 1 287).
  - apply wfb_wf. vm_compute. reflexivity.
  - vm_compute. intuition discriminate.
  - intros dx dy Hdx Hdy.
    assert (dx = -1 \/ dx = 0 \/ dx = 1) as Hxs by lia.
    assert (dy = -1 \/ dy = 0 \/ dy = 1) as Hys by lia.
    destruct Hxs as [-> | [-> | ->]]; destruct Hys as [-> | [-> | ->]];
      vm_compute; reflexivity.
  - lia.
Defined.

Lemma grayAt_agree (a b : ImageData) p :
  width a = width b -> 0 < width a ->
  (forall x y c, inImage a x y -> 0 <= c < 3 -> channelAt a x y c = channelAt b x y c) ->
  0 <= p < width a * height a ->
  grayAt (data a) (p * 4) = grayAt (data b) (p * 4).
Proof.
  intros Ew Hw Hrgb Hp. unfold grayAt.
  pose proof (colour_samples_agree a b p 0 Ew Hw Hrgb Hp ltac:(lia)) as H0.
  pose proof (colour_samples_agree a b p 1 Ew Hw Hrgb Hp ltac:(lia)) as H1.
  pose proof (colour_samples_agree a b p 2 Ew Hw Hrgb Hp ltac:(lia)) as H2.
  rewrite Z.add_0_r in H0. by rewrite H0, H1, H2.
Qed.

(** X15: the detector never reads the alpha of its input: two images of one
    size with the same R, G and B samples give the same edge map. *)
Theorem detectEdges_ignores_input_alpha (a b : ImageData) :
  wf a -> wf b -> width a = width b -> height a = height b ->
  (forall x y c, inImage a x y -> 0 <= c < 3 -> channelAt a x y c = channelAt b x y c) ->
  detectEdges a = detectEdges b.
Proof.
  intros Hwa Hwb Ew Eh Hrgb.
  pose proof Hwa as (Hw & Hh & Hla & Hba). pose proof Hwb as (_ & _ & Hlb & Hbb).
  assert (len (data a) = len (data b)) as Hlen by (rewrite Hla, Hlb, Ew, Eh; done).
  apply ImageData_eq; [|exact Ew|exact Eh].
  apply array_ext; [by rewrite !len_detectEdges|].
  intros k Hk. rewrite len_detectEdges in Hk.
  destruct (index_decompose a k Hwa Hk) as (x & y & c & Hin & Hc & ->).
  assert (inImage b x y) as Hinb by (unfold inImage in *; rewrite <- Ew, <- Eh; done).
  pose proof (fun H => detectEdges_interior a x y c Hwa H Hc) as Ia.
  pose proof (fun H => detectEdges_interior b x y c Hwb H Hc) as Ib.
  pose proof (fun H => detectEdges_margin a x y c Hin H Hc) as Ma.
  pose proof (fun H => detectEdges_margin b x y c Hinb H Hc) as Mb.
  unfold channelAt, pixelIndex in Ia, Ib, Ma, Mb.
  change (width (detectEdges a)) with (width a) in Ia, Ma.
  change (width (detectEdges b)) with (width b) in Ib, Mb.
  rewrite <- Ew in Ib, Mb.
  destruct (interior_dec a x y) as [Hint|Hout].
  - assert (isInterior b x y) as Hintb
      by (unfold isInterior in *; rewrite <- Ew, <- Eh; done).
    rewrite Ia, Ib by done. unfold edgeSample. destruct (c =? 3); [done|].
    f_equal. unfold magnitudeAt. cbv zeta.
    rewrite (sobelAt_ext (data a) (data b) (width a) x y); [done|].
    intros dx dy Hdx Hdy. apply grayAt_agree; try done.
    destruct Hint as [Hx Hy]. apply pixel_bound; lia.
  - assert (~ isInterior b x y) as Houtb
      by (unfold isInterior in *; rewrite <- Ew, <- Eh; done).
    by rewrite Ma, Mb.
Qed.

Lemma detectEdges_ignores_input_alpha_witness :
  detectEdges (solid 3 3 96 96 96 255) = detectEdges (solid 3 3 96 96 96 7).
Proof.
  apply detectEdges_ignores_input_alpha.
  - apply wfb_wf. vm_compute. reflexivity.
  - apply wfb_wf. vm_compute. reflexivity.
  - reflexivity.
  - reflexivity.
  - intros x y c [Hx Hy] Hc.
    change (width (solid 3 3 96 96 96 255)) with 3 in Hx.
    change (height (solid 3 3 96 96 96 255)) with 3 in Hy.
    assert (x = 0 \/ x = 1 \/ x = 2) as Hxs by lia.
    assert (y = 0 \/ y = 1 \/ y = 2) as Hys by lia.
    assert (c = 0 \/ c = 1 \/ c = 2) as Hcs by lia.
    destruct Hxs as [-> | [-> | ->]]; destruct Hys as [-> | [-> | ->]];
      destruct Hcs as [-> | [-> | ->]]; vm_compute; reflexivity.
Defined.

(** ** The edge smoothing and the pipeline as a whole *)

(** X16: an image fewer than five pixels wide or high has no pixel at
    distance two of all four sides: the smoothing returns it unchanged,
    whatever the rounding and the weights. *)
Theorem refineEdges_small_image_unchanged
    (rnd : Q -> Q) (weightOf : float -> Q) (img : ImageData) :
  wf img -> width img < 5 \/ height img < 5 ->
  refineEdges rnd weightOf img = img.
Proof.
  intros Hwf Hsmall. apply ImageData_eq; [|done|done].
  apply array_ext; [apply len_refineEdges|].
  intros k Hk. rewrite len_refineEdges in Hk.
  destruct (index_decompose img k Hwf Hk) as (x & y & c & Hin & Hc & ->).
  assert (c = 3 \/ 0 <= c < 3) as [-> | Hc3] by lia.
  - apply (refineEdges_margin rnd weightOf img x y Hwf Hin). unfold isProcessed. lia.
  - apply (refineEdges_rgb rnd weightOf img x y c Hwf Hin Hc3).
Qed.

Lemma refineEdges_small_image_unchanged_witness :
  refineEdges exactRnd sampleWeight speck5x5 <> speck5x5 /\
  refineEdges exactRnd sampleWeight greyDot3x3 = greyDot3x3.
Proof.
  split; [vm_compute; discriminate|].
  apply refineEdges_small_image_unchanged.
  - apply wfb_wf. vm_compute. reflexivity.
  - left. vm_compute. reflexivity.
Defined.

(** X17: a mask of uniform alpha is a fixed point of the smoothing, under
    rounding to nearest and positive weights: the thirteen rounded products
    and sums never move the quotient off the common value. *)
Theorem refineEdges_uniform_alpha_fixed
    (rnd : Q -> Q) (weightOf : float -> Q) (img : ImageData) (a : Z) :
  roundsToNearest rnd -> (forall dist, (0 < weightOf dist)%Q) -> wf img ->
  (forall x y, inImage img x y -> alphaAt img x y = a) ->
  refineEdges rnd weightOf img = img.
Proof.
  intros Hrnd Hw Hwf Ha. apply ImageData_eq; [|done|done].
  apply array_ext; [apply len_refineEdges|].
  intros k Hk. rewrite len_refineEdges in Hk.
  destruct (index_decompose img k Hwf Hk) as (x & y & c & Hin & Hc & ->).
  assert (c = 3 \/ 0 <= c < 3) as [-> | Hc3] by lia;
    [|apply (refineEdges_rgb rnd weightOf img x y c Hwf Hin Hc3)].
  assert (isProcessed img x y \/ ~ isProcessed img x y) as [Hproc|Hout]
    by (unfold isProcessed; lia);
    [|apply (refineEdges_margin rnd weightOf img x y Hwf Hin Hout)].
  pose proof (refineEdges_processed rnd weightOf img x y Hrnd Hw Hwf Hproc) as E.
  unfold alphaAt, pixelIndex in E.
  change (width (refineEdges rnd weightOf img)) with (width img) in E. rewrite E.
  pose proof (Ha x y Hin) as Hxy. unfold alphaAt, pixelIndex in Hxy. rewrite Hxy.
  assert (byte a) as Hb by (rewrite <- Hxy; apply byte_load, Hwf).
  assert (a <= smoothedAlpha rnd weightOf (data img) (width img) x y <= a); [|lia].
  apply smoothedAlpha_bounds; try done; try (unfold byte in Hb; lia).
  intros dx dy Hdx Hdy _.
  pose proof (Ha (x + dx) (y + dy) (blur_neighbour_inImage img x y dx dy Hproc Hdx Hdy)) as Hn.
  unfold alphaAt, pixelIndex in Hn. lia.
Qed.

Lemma refineEdges_uniform_alpha_fixed_witness :
  refineEdges exactRnd sampleWeight (solid 5 5 90 90 90 200) = solid 5 5 90 90 90 200.
Proof.
  apply (refineEdges_uniform_alpha_fixed exactRnd sampleWeight (solid 5 5 90 90 90 200) 200).
  - apply exactRnd_roundsToNearest.
  - apply sampleWeight_pos.
  - apply wfb_wf. vm_compute. reflexivity.
  - intros x y [Hx Hy].
    change (width (solid 5 5 90 90 90 200)) with 5 in Hx.
    change (height (solid 5 5 90 90 90 200)) with 5 in Hy.
    assert (x = 0 \/ x = 1 \/ x = 2 \/ x = 3 \/ x = 4) as Hxs by lia.
    assert (y = 0 \/ y = 1 \/ y = 2 \/ y = 3 \/ y = 4) as Hys by lia.
    destruct Hxs as [-> | [-> | [-> | [-> | ->]]]];
      destruct Hys as [-> | [-> | [-> | [-> | ->]]]]; vm_compute; reflexivity.
Defined.

Lemma wf_pipeline rnd weightOf img : wf img -> wf (pipeline rnd weightOf img).
Proof.
  intros Hwf. unfold pipeline.
  by apply wf_refineEdges, wf_morphologicalOperations, wf_colorSegmentation.
Qed.

(** X18: the three filters in sequence keep the dimensions and the R, G and
    B samples of every pixel: the pipeline only ever rewrites alpha. *)
Theorem pipeline_keeps_colours_and_shape
    (rnd : Q -> Q) (weightOf : float -> Q) (img : ImageData) :
  wf img ->
  wf (pipeline rnd weightOf img) /\
  width (pipeline rnd weightOf img) = width img /\
  height (pipeline rnd weightOf img) = height img /\
  forall x y c, inImage img x y -> 0 <= c < 3 ->
    channelAt (pipeline rnd weightOf img) x y c = channelAt img x y c.
Proof.
  intros Hwf. split; [by apply wf_pipeline|]. split; [reflexivity|].
  split; [reflexivity|]. intros x y c Hin Hc.
  pose proof (wf_colorSegmentation img Hwf) as Hwf1.
  pose proof (wf_morphologicalOperations _ Hwf1) as Hwf2.
  unfold pipeline.
  rewrite refineEdges_rgb; [|exact Hwf2|exact Hin|exact Hc].
  rewrite morph_rgb_unchanged; [|exact Hwf1|exact Hin|exact Hc].
  by apply segment_rgb.
Qed.

Lemma pipeline_keeps_colours_and_shape_witness :
  channelAt (pipeline exactRnd sampleWeight checker5x5) 2 2 1 = channelAt checker5x5 2 2 1.
Proof.
  assert (wf checker5x5) as Hwf by (apply wfb_wf; vm_compute; reflexivity).
  destruct (pipeline_keeps_colours_and_shape exactRnd sampleWeight checker5x5 Hwf)
    as (_ & _ & _ & H).
  apply H; vm_compute; intuition discriminate.
Defined.

(** X19: the result of the pipeline always has a fully transparent
    one-pixel frame: the opening zeroes it and the smoothing, which leaves a
    margin of two pixels alone, passes it on.  An image fewer than three
    pixels wide or high therefore comes out fully transparent. *)
Theorem pipeline_frame_transparent
    (rnd : Q -> Q) (weightOf : float -> Q) (img : ImageData) :
  wf img ->
  (forall x y, inImage img x y -> isBorder img x y ->
     alphaAt (pipeline rnd weightOf img) x y = 0) /\
  (width img < 3 \/ height img < 3 ->
   forall x y, inImage img x y -> alphaAt (pipeline rnd weightOf img) x y = 0).
Proof.
  intros Hwf.
  pose proof (wf_colorSegmentation img Hwf) as Hwf1.
  pose proof (wf_morphologicalOperations _ Hwf1) as Hwf2.
  assert (forall x y, inImage img x y -> ~ isInterior img x y ->
            alphaAt (pipeline rnd weightOf img) x y = 0) as Hframe.
  { intros x y Hin Hout. unfold pipeline.
    rewrite refineEdges_margin; [|exact Hwf2|exact Hin|].
    - apply morph_margin_alpha_zero; [exact Hwf1|exact Hin|exact Hout].
    - unfold isProcessed, isInterior in *.
      change (width (morphologicalOperations (colorSegmentation img))) with (width img).
      change (height (morphologicalOperations (colorSegmentation img))) with (height img).
      lia. }
  split.
  - intros x y Hin Hb. apply Hframe; [done|]. unfold isBorder, isInterior in *. lia.
  - intros Hsmall x y Hin. apply Hframe; [done|]. unfold isInterior. lia.
Qed.

Lemma pipeline_frame_transparent_witness :
  alphaAt (pipeline exactRnd sampleWeight checker5x5) 4 2 = 0.
Proof.
  assert (wf checker5x5) as Hwf by (apply wfb_wf; vm_compute; reflexivity).
  apply (proj1 (pipeline_frame_transparent exactRnd sampleWeight checker5x5 Hwf)).
  - vm_compute. intuition discriminate.
  - right. right. left. reflexivity.
Defined.

(** X20: an image all of whose pixels fall in one colour bucket vanishes:
    the bucket is the only border colour, the segmenter clears every pixel,
    and neither the opening nor the smoothing brings any alpha back. *)
Theorem pipeline_single_colour_vanishes
    (rnd : Q -> Q) (weightOf : float -> Q) (img : ImageData) (key : string) :
  roundsToNearest rnd -> (forall dist, (0 < weightOf dist)%Q) -> wf img ->
  (forall x y, inImage img x y ->
     keyAt (data img) (pixelIndex (width img) x y) = key) ->
  forall x y, inImage img x y -> alphaAt (pipeline rnd weightOf img) x y = 0.
Proof.
  intros Hrnd Hw Hwf Hkey.
  pose proof Hwf as (Hwpos & Hhpos & _).
  pose proof (wf_colorSegmentation img Hwf) as Hwf1.
  pose proof (wf_morphologicalOperations _ Hwf1) as Hwf2.
  assert (forall x y, inImage img x y -> alphaAt (colorSegmentation img) x y = 0) as Hseg.
  { intros x y Hin. apply segment_member_transparent; [done|done|].
    rewrite (Hkey x y Hin).
    rewrite <- (Hkey 0 0 ltac:(unfold inImage; lia)).
    apply (border_keys_selected img [key] Hwf ltac:(simpl; lia)).
    - intros bx by_ Hbin _. rewrite (Hkey bx by_ Hbin). left.
    - unfold inImage. lia.
    - by left. }
  assert (forall x y, inImage img x y ->
            alphaAt (morphologicalOperations (colorSegmentation img)) x y = 0) as Hmorph.
  { intros x y Hin.
    pose proof (morph_alpha_le (colorSegmentation img) x y Hwf1 Hin) as Hle.
    rewrite (Hseg x y Hin) in Hle.
    pose proof (byte_load (data (morphologicalOperations (colorSegmentation img)))
                  (pixelIndex (width img) x y + 3)
                  (Forall_byte_morphologicalOperations _)) as Hb.
    unfold alphaAt in *. unfold byte in Hb.
    change (width (morphologicalOperations (colorSegmentation img))) with (width img) in *.
    lia. }
  intros x y Hin. unfold pipeline.
  set (m := morphologicalOperations (colorSegmentation img)) in *.
  assert (isProcessed m x y \/ ~ isProcessed m x y) as [Hproc|Hout]
    by (unfold isProcessed; lia).
  - rewrite refineEdges_processed by done.
    assert (0 <= smoothedAlpha rnd weightOf (data m) (width m) x y <= 0); [|lia].
    apply smoothedAlpha_bounds; try done.
    intros dx dy Hdx Hdy _.
    pose proof (Hmorph (x + dx) (y + dy)
                  (blur_neighbour_inImage m x y dx dy Hproc Hdx Hdy)) as Hn.
    unfold alphaAt, pixelIndex in Hn. lia.
  - rewrite refineEdges_margin; [|exact Hwf2|exact Hin|exact Hout].
    by apply Hmorph.
Qed.

Lemma pipeline_single_colour_vanishes_witness :
  alphaAt (pipeline exactRnd sampleWeight (solid 5 5 90 90 90 255)) 2 2 = 0.
Proof.
  apply (pipeline_single_colour_vanishes exactRnd sampleWeight (solid 5 5 90 90 90 255)
           "64,64,64"%string).
  - apply exactRnd_roundsToNearest.
  - apply sampleWeight_pos.
  - apply wfb_wf. vm_compute. reflexivity.
  - intros x y [Hx Hy].
    change (width (solid 5 5 90 90 90 255)) with 5 in Hx.
    change (height (solid 5 5 90 90 90 255)) with 5 in Hy.
    assert (x = 0 \/ x = 1 \/ x = 2 \/ x = 3 \/ x = 4) as Hxs by lia.
    assert (y = 0 \/ y = 1 \/ y = 2 \/ y = 3 \/ y = 4) as Hys by lia.
    destruct Hxs as [-> | [-> | [-> | [-> | ->]]]];
      destruct Hys as [-> | [-> | [-> | [-> | ->]]]]; vm_compute; reflexivity.
  - vm_compute. intuition discriminate.
Defined.

(** ** The radial fallback as a whole *)

Lemma len_radialMask img : len (data (radialMask img)) = len (data img).
Proof. rewrite radialMask_eq. simpl. apply len_applyWrites. Qed.

Lemma wf_radialMask img : wf img -> wf (radialMask img).
Proof.
  intros (Hw & Hh & Hlen & Hb). repeat split; try done.
  - by rewrite len_radialMask.
  - rewrite radialMask_eq. simpl. by apply Forall_byte_applyWrites.
Qed.

Lemma load_radialMask_rgb img p c :
  0 <= c < 3 ->
  load (data (radialMask img)) (p * 4 + c) = load (data img) (p * 4 + c).
Proof. intros Hc. rewrite radialMask_eq. simpl. by apply load_alphaWrites_rgb. Qed.

(** X21: the fallback mask keeps the dimensions and the R, G and B samples
    of every pixel and returns a well-formed image: only alpha is written. *)
Theorem radialMask_keeps_colours_and_shape (img : ImageData) :
  wf img ->
  wf (radialMask img) /\
  width (radialMask img) = width img /\
  height (radialMask img) = height img /\
  forall x y c, 0 <= c < 3 -> channelAt (radialMask img) x y c = channelAt img x y c.
Proof.
  intros Hwf. split; [by apply wf_radialMask|]. split; [reflexivity|].
  split; [reflexivity|]. intros x y c Hc. unfold channelAt, pixelIndex.
  change (width (radialMask img)) with (width img). by apply load_radialMask_rgb.
Qed.

Lemma radialMask_keeps_colours_and_shape_witness :
  channelAt (radialMask checker5x5) 3 1 2 = channelAt checker5x5 3 1 2.
Proof.
  assert (wf checker5x5) as Hwf by (apply wfb_wf; vm_compute; reflexivity).
  destruct (radialMask_keeps_colours_and_shape checker5x5 Hwf) as (_ & _ & _ & H).
  apply H. lia.
Defined.

(** X22: the alpha the fallback writes depends on the position and the
    size alone: the alphas (and colours) of the input play no part, two
    images of one size get the same mask, and masking twice is masking
    once. *)
Theorem radialMask_from_geometry_alone (a b : ImageData) :
  wf a -> wf b -> width a = width b -> height a = height b ->
  (forall x y, inImage a x y ->
     alphaAt (radialMask a) x y = alphaAt (radialMask b) x y) /\
  radialMask (radialMask a) = radialMask a.
Proof.
  intros Hwa Hwb Ew Eh. split.
  - intros x y Hin.
    assert (inImage b x y) as Hinb by (unfold inImage in *; rewrite <- Ew, <- Eh; done).
    rewrite !radialMask_alpha by done. by rewrite Ew, Eh.
  - pose proof (wf_radialMask a Hwa) as Hwm.
    apply ImageData_eq; [|done|done].
    apply array_ext; [apply len_radialMask|].
    intros k Hk. rewrite len_radialMask in Hk.
    destruct (index_decompose _ k Hwm Hk) as (x & y & c & Hin & Hc & ->).
    change (width (radialMask a)) with (width a) in *.
    assert (c = 3 \/ 0 <= c < 3) as [-> | Hc3] by lia.
    + pose proof (radialMask_alpha (radialMask a) x y Hwm Hin) as E1.
      assert (inImage a x y) as Hin' by exact Hin.
      pose proof (radialMask_alpha a x y Hwa Hin') as E2.
      unfold alphaAt, pixelIndex in E1, E2.
      change (width (radialMask (radialMask a))) with (width a) in E1.
      change (width (radialMask a)) with (width a) in E1, E2.
      change (height (radialMask a)) with (height a) in E1.
      by rewrite E1, E2.
    + by apply load_radialMask_rgb.
Qed.

Lemma radialMask_from_geometry_alone_witness :
  alphaAt (radialMask checker5x5) 2 2 = alphaAt (radialMask speck5x5) 2 2 /\
  radialMask (radialMask checker5x5) = radialMask checker5x5.
Proof.
  assert (wf checker5x5) as Hwa by (apply wfb_wf; vm_compute; reflexivity).
  assert (wf speck5x5) as Hwb by (apply wfb_wf; vm_compute; reflexivity).
  destruct (radialMask_from_geometry_alone checker5x5 speck5x5 Hwa Hwb eq_refl eq_refl)
    as [H1 H2].
  split; [|exact H2]. apply H1. vm_compute. intuition discriminate.
Defined.

(** X23: in an image at most 19 pixels wide or high every pixel lies in the
    edge band ([x < 10] or [x > width - 10] always holds), so no pixel keeps
    an alpha above 50: the fallback makes small images almost transparent
    throughout. *)
Theorem radialMask_narrow_image_capped (img : ImageData) :
  wf img -> width img <= 19 \/ height img <= 19 ->
  forall x y, inImage img x y -> alphaAt (radialMask img) x y <= 50.
Proof.
  intros Hwf Hnarrow x y Hin. rewrite radialMask_alpha by done.
  unfold simpleAlphaAt.
  assert (isEdgePixel (width img) (height img) x y = true) as ->.
  { unfold isEdgePixel. rewrite !orb_true_iff, !Z.ltb_lt. lia. }
  unfold capAlpha. rewrite toUint8Clamp_jsMin_50. lia.
Qed.

Lemma radialMask_narrow_image_capped_witness :
  alphaAt (radialMask checker5x5) 2 2 <= 50.
Proof.
  apply (radialMask_narrow_image_capped checker5x5).
  - apply wfb_wf. vm_compute. reflexivity.
  - left. vm_compute. discriminate.
  - vm_compute. intuition discriminate.
Defined.

(** ** The two orchestrations *)

(** X24: one call of [processImageSimple] requests the image once and
    settles its promise once.  A load failure rejects with "Failed to load
    image" and leaves the canvas alone; decoded pixels fulfil the promise
    with the encoding of the masked image, which the canvas then holds.
    Unlike [processImage], nothing is ever logged. *)
Theorem processImageSimple_all_or_nothing
    (imageUrl : string) (ev : LoadEvent) (wd : World) :
  requests (processImageSimple imageUrl ev wd) = requests wd ++ [imageUrl] /\
  promise (processImageSimple imageUrl ev wd) <> None /\
  console (processImageSimple imageUrl ev wd) = console wd /\
  match ev with
  | OnError =>
      promise (processImageSimple imageUrl ev wd)
      = Some (Rejected "Failed to load image") /\
      canvas (processImageSimple imageUrl ev wd) = canvas wd
  | OnLoad img =>
      wf img ->
      promise (processImageSimple imageUrl ev wd)
      = Some (Fulfilled (PngOf (radialMask img))) /\
      canvas (processImageSimple imageUrl ev wd) = Some (radialMask img)
  end.
Proof.
  destruct ev as [img|].
  - unfold processImageSimple, onloadHandlerSimple.
    set (wd0 := requestImage imageUrl _).
    destruct (getImageData (draw img wd0)) as [err|px] eqn:E.
    + split; [reflexivity|]. split; [simpl; discriminate|]. split; [reflexivity|].
      intros (Hw & Hh & _). rewrite getImageData_drawn in E by done. discriminate.
    + split; [reflexivity|]. split; [simpl; discriminate|]. split; [reflexivity|].
      intros (Hw & Hh & _).
      rewrite getImageData_drawn in E by done. injection E as <-.
      split; reflexivity.
  - split; [reflexivity|]. split; [simpl; discriminate|]. by repeat split.
Qed.

Lemma processImageSimple_all_or_nothing_witness :
  promise (processImageSimple "blob:checker" (OnLoad checker5x5) freshWorld)
  = Some (Fulfilled (PngOf (radialMask checker5x5))) /\
  canvas (processImageSimple "blob:checker" (OnLoad checker5x5) freshWorld)
  = Some (radialMask checker5x5).
Proof.
  destruct (processImageSimple_all_or_nothing "blob:checker" (OnLoad checker5x5) freshWorld)
    as (_ & _ & _ & H).
  apply H. apply wfb_wf. vm_compute. reflexivity.
Defined.

(** X25: what [processImage] logs and how it fails on pixels it cannot
    read.  On decoded pixels the three step messages are appended to the
    console, in order, and nothing else.  On an image with no pixels
    [getImageData] throws before the first step: both orchestrations reject
    with that error, log nothing and request nothing more. *)
Theorem orchestrations_log_and_catch
    (rnd : Q -> Q) (weightOf : float -> Q) (imageUrl : string)
    (img : ImageData) (wd : World) :
  (wf img ->
   console (processImage rnd weightOf imageUrl (OnLoad img) wd)
   = console wd ++ ["Step 1: Color segmentation..."%string;
                    "Step 2: Morphological operations..."%string;
                    "Step 3: Edge refinement..."%string]) /\
  (emptyImage img ->
   promise (processImage rnd weightOf imageUrl (OnLoad img) wd)
   = Some (Rejected "IndexSizeError") /\
   console (processImage rnd weightOf imageUrl (OnLoad img) wd) = console wd /\
   requests (processImage rnd weightOf imageUrl (OnLoad img) wd)
   = requests wd ++ [imageUrl] /\
   promise (processImageSimple imageUrl (OnLoad img) wd)
   = Some (Rejected "IndexSizeError") /\
   console (processImageSimple imageUrl (OnLoad img) wd) = console wd /\
   requests (processImageSimple imageUrl (OnLoad img) wd) = requests wd ++ [imageUrl]).
Proof.
  split.
  - intros (Hw & Hh & _). unfold processImage, onloadHandler.
    rewrite getImageData_drawn by done. simpl. by rewrite <- !app_assoc.
  - intros Hempty.
    assert (forall wd', getImageData (draw img wd') = inl "IndexSizeError"%string) as E.
    { intros wd'. unfold getImageData, draw. simpl.
      destruct (width img <=? 0) eqn:E1; [done|].
      destruct (height img <=? 0) eqn:E2; [done|].
      unfold emptyImage in Hempty. lia. }
    unfold processImage, processImageSimple, onloadHandler, onloadHandlerSimple.
    rewrite !E. by repeat split.
Qed.

Lemma orchestrations_log_and_catch_witness :
  console (processImage exactRnd sampleWeight "blob:checker" (OnLoad checker5x5) freshWorld)
  = ["Step 1: Color segmentation..."%string;
     "Step 2: Morphological operations..."%string;
     "Step 3: Edge refinement..."%string] /\
  promise (processImageSimple "blob:none" (OnLoad (mkImageData [] 0 0)) freshWorld)
  = Some (Rejected "IndexSizeError").
Proof.
  split.
  - apply (proj1 (orchestrations_log_and_catch exactRnd sampleWeight "blob:checker"
                    checker5x5 freshWorld)).
    apply wfb_wf. vm_compute. reflexivity.
  - apply (proj2 (orchestrations_log_and_catch exactRnd sampleWeight "blob:none"
                    (mkImageData [] 0 0) freshWorld)).
    left. simpl. lia.
Defined.

(** ** The remote service and the page *)

(** The four ways [removeBackground] can run. *)
Lemma removeBackground_run host apiKey imageFile net :
  removeBackground host apiKey imageFile net
  = let request := apiRequest apiKey imageFile in
    let failWith cause :=
      (mkNet (sent net ++ [request])
         (consoleErrors net ++ [("Photoroom API error:"%string, cause)])
         (objectUrls net),
       inl genericFailure) in
    match reply host (sent net ++ [request]) with
    | inl cause => failWith cause
    | inr response =>
        if ok response then
          match blob response with
          | inr b =>
              (mkNet (sent net ++ [request]) (consoleErrors net) (objectUrls net ++ [b]),
               inr (urlOf host (length (objectUrls net))))
          | inl cause => failWith cause
          end
        else
          match text response with
          | inr errorText =>
              failWith (newError ("Photoroom API error: " ++ numToString (status response)
                                  ++ " - " ++ errorText))
          | inl cause => failWith cause
          end
    end.
Proof.
  unfold removeBackground, tryCatch, bind, fetch, await, throw, ret, consoleError,
    createObjectURL. cbn [sent consoleErrors objectUrls].
  destruct (reply host (sent net ++ [apiRequest apiKey imageFile])) as [cause|response];
    [reflexivity|].
  destruct (ok response); cbn [negb].
  - destruct (blob response); reflexivity.
  - destruct (text response); reflexivity.
Qed.


(** A host whose service answers 402 with a message. *)
Example removeBackground_on_payment_required :
  let host := mkHost (fun _ => inr (mkResponse false 402 (inr "quota exceeded"%string)
                                      (inr (mkBlob "text/plain" []))))
                (fun _ => "blob:result"%string) in
  removeBackground host "key" (mkFile "cat.png" "image/png" [1; 2; 3]) freshNet
  = (mkNet [apiRequest "key" (mkFile "cat.png" "image/png" [1; 2; 3])]
       [("Photoroom API error:"%string,
         newError "Photoroom API error: 402 - quota exceeded")]
       [],
     inl genericFailure).
Proof. vm_compute. reflexivity. Qed.

Lemma removeBackgroundFromDataUrl_run host apiKey dataUrl net :
  removeBackgroundFromDataUrl host apiKey dataUrl net
  = let net1 := mkNet (sent net ++ [getRequest dataUrl]) (consoleErrors net)
                  (objectUrls net) in
    match reply host (sent net ++ [getRequest dataUrl]) with
    | inl error => (net1, inl error)
    | inr response =>
        match blob response with
        | inl error => (net1, inl error)
        | inr b => removeBackground host apiKey (newFile b "image.jpg" (blobType b)) net1
        end
    end.
Proof.
  unfold removeBackgroundFromDataUrl, bind, fetch, await. cbn [sent consoleErrors objectUrls].
  destruct (reply host (sent net ++ [getRequest dataUrl])) as [error|response];
    [reflexivity|].
  destruct (blob response); reflexivity.
Qed.

Lemma posts_app net (rest : list Request) :
  filter (fun request => requestMethod request = "POST"%string) (sent net ++ rest)
  = posts net ++ filter (fun request => requestMethod request = "POST"%string) rest.
Proof. unfold posts. apply filter_app. Qed.

(** What every run of [removeBackground] has in common. *)
Lemma removeBackground_shape host apiKey imageFile net :
  sent (fst (removeBackground host apiKey imageFile net))
  = sent net ++ [apiRequest apiKey imageFile] /\
  ((snd (removeBackground host apiKey imageFile net)
    = inr (urlOf host (length (objectUrls net))) /\
    consoleErrors (fst (removeBackground host apiKey imageFile net)) = consoleErrors net)
   \/
   (snd (removeBackground host apiKey imageFile net) = inl genericFailure /\
    objectUrls (fst (removeBackground host apiKey imageFile net)) = objectUrls net)).
Proof.
  rewrite removeBackground_run. cbv zeta.
  destruct (reply host (sent net ++ [apiRequest apiKey imageFile])) as [cause|response];
    [split; [reflexivity|]; right; split; reflexivity|].
  destruct (ok response).
  - destruct (blob response); (split; [reflexivity|]);
      [right; split; reflexivity|left; split; reflexivity].
  - destruct (text response); (split; [reflexivity|]); right; split; reflexivity.
Qed.

Lemma posts_converted net dataUrl ce ou :
  posts (mkNet (sent net ++ [getRequest dataUrl]) ce ou) = posts net.
Proof.
  unfold posts. cbn [sent]. rewrite filter_app.
  rewrite filter_cons_False by (cbn; discriminate). by rewrite app_nil_r.
Qed.


(** A PNG data URL is uploaded as image.jpg of type image/png. *)
Example removeBackgroundFromDataUrl_names_the_file :
  let host :=
    mkHost (fun requests =>
              match requests with
              | [_] => inr (mkResponse true 200 (inr ""%string)
                              (inr (mkBlob "image/png" [137; 80; 78; 71])))
              | _ => inr (mkResponse true 200 (inr ""%string)
                            (inr (mkBlob "image/png" [1])))
              end)
      (fun n => "blob:result"%string) in
  sent (fst (removeBackgroundFromDataUrl host "key" "data:image/png;base64,iVBORw==" freshNet))
  = [getRequest "data:image/png;base64,iVBORw==";
     apiRequest "key" (mkFile "image.jpg" "image/png" [137; 80; 78; 71])] /\
  snd (removeBackgroundFromDataUrl host "key" "data:image/png;base64,iVBORw==" freshNet)
  = inr "blob:result"%string.
Proof. split; vm_compute; reflexivity. Qed.

(** *** The page *)

(** Reading a field after a sequence of setters. *)
Ltac app_simpl :=
  cbv [fst snd uploadedImage processedImage isProcessing backgroundColor showColorPicker
       dragActive processingStep originalFile fileInputValue alerts
       setUploadedImage setProcessedImage setIsProcessing setShowColorPicker setDragActive
       setProcessingStep setOriginalFile setFileInputValue alert resetApp].

Lemma removeBackgroundFromDataUrl_posts host apiKey dataUrl net :
  (length (posts (fst (removeBackgroundFromDataUrl host apiKey dataUrl net)))
   <= length (posts net) + 1)%nat.
Proof.
  rewrite removeBackgroundFromDataUrl_run. cbv zeta.
  destruct (reply host (sent net ++ [getRequest dataUrl])) as [e|response];
    [cbn [fst]; rewrite posts_converted; lia|].
  destruct (blob response) as [e|b]; [cbn [fst]; rewrite posts_converted; lia|].
  set (converted := mkNet (sent net ++ [getRequest dataUrl]) (consoleErrors net)
                      (objectUrls net)).
  destruct (removeBackground_shape host apiKey (newFile b "image.jpg" (blobType b))
              converted) as [Hsent _].
  unfold posts at 1. rewrite Hsent. cbn [sent converted]. rewrite !filter_app.
  rewrite filter_cons_False by (cbn; discriminate).
  rewrite filter_cons_True by reflexivity. rewrite !length_app. simpl.
  fold (posts net). lia.
Qed.

(** X28: a click on "Remove Background" with no uploaded image does nothing
    and sends nothing.  Otherwise, whatever other handlers do to the state
    while the call waits, the call ends with [isProcessing] false and an
    empty [processingStep] (the [finally] block), having sent the conversion
    request and at most one upload.  On success the state is the one the
    page had when the call settled and the last wait passed, with the result
    stored: the new URL paired with the image captured at the click, named
    processed_<now>.png.  On failure the state is the one the page had when
    the call settled with one alert added: the stored result, the upload and
    every other hook are left as they were, and the error is logged once
    more.  When no other handler runs, a failed call changes nothing but
    the alerts. *)
Theorem processImageWithPhotoroom_always_settles
    (host : Host) (now : Z) (meanwhile1 meanwhile2 meanwhile3 : AppState -> AppState)
    (st : AppState) (net : Net) :
  let st' := fst (processImageWithPhotoroom host now meanwhile1 meanwhile2 meanwhile3 st net) in
  let net' := snd (processImageWithPhotoroom host now meanwhile1 meanwhile2 meanwhile3 st net) in
  (falsy (uploadedImage st) -> st' = st /\ net' = net) /\
  (forall uploaded, uploadedImage st = Some uploaded -> uploaded <> ""%string ->
     let settled := stateWhenCallSettles meanwhile1 meanwhile2 st in
     let net1 := fst (removeBackgroundFromDataUrl host defaultApiKey uploaded net) in
     isProcessing st' = false /\ processingStep st' = ""%string /\
     (length (posts net') <= length (posts net) + 1)%nat /\
     match snd (removeBackgroundFromDataUrl host defaultApiKey uploaded net) with
     | inr url =>
         st' = setProcessingStep ""
                 (setIsProcessing false
                    (setProcessedImage
                       (Some (mkProcessedImage uploaded url
                                ("processed_" ++ numToString now ++ ".png")))
                       (meanwhile3
                          (setProcessingStep "Finalizing high-quality result..." settled)))) /\
         processedImage st'
         = Some (mkProcessedImage uploaded url ("processed_" ++ numToString now ++ ".png")) /\
         net' = net1
     | inl error =>
         st' = setProcessingStep ""
                 (setIsProcessing false
                    (alert "Failed to process image. Please try again." settled)) /\
         alerts st' = alerts settled ++ ["Failed to process image. Please try again."%string] /\
         processedImage st' = processedImage settled /\
         uploadedImage st' = uploadedImage settled /\
         sent net' = sent net1 /\
         objectUrls net' = objectUrls net1 /\
         consoleErrors net' = consoleErrors net1 ++ [("Processing failed:"%string, error)]
     end) /\
  (forall uploaded error, uploadedImage st = Some uploaded -> uploaded <> ""%string ->
     snd (removeBackgroundFromDataUrl host defaultApiKey uploaded net) = inl error ->
     fst (processImageWithPhotoroom host now undisturbed undisturbed undisturbed st net)
     = setProcessingStep ""
         (setIsProcessing false (alert "Failed to process image. Please try again." st)) /\
     processedImage
       (fst (processImageWithPhotoroom host now undisturbed undisturbed undisturbed st net))
     = processedImage st /\
     uploadedImage
       (fst (processImageWithPhotoroom host now undisturbed undisturbed undisturbed st net))
     = uploadedImage st).
Proof.
  cbv zeta. split; [|split].
  - intros [H|H]; unfold processImageWithPhotoroom; rewrite H; done.
  - intros uploaded Hu Hne.
    pose proof (removeBackgroundFromDataUrl_posts host defaultApiKey uploaded net) as Hposts.
    unfold processImageWithPhotoroom. rewrite Hu.
    destruct uploaded as [|c rest]; [done|].
    fold (stateWhenCallSettles meanwhile1 meanwhile2 st).
    set (settled := stateWhenCallSettles meanwhile1 meanwhile2 st).
    destruct (removeBackgroundFromDataUrl host defaultApiKey (String c rest) net)
      as [net1 [error|url]]; cbn [fst snd] in *.
    + split; [reflexivity|]. split; [reflexivity|]. split; [exact Hposts|].
      repeat split; reflexivity.
    + split; [reflexivity|]. split; [reflexivity|]. split; [exact Hposts|].
      repeat split; reflexivity.
  - intros uploaded error Hu Hne Hr. unfold processImageWithPhotoroom. rewrite Hu.
    destruct uploaded as [|c rest]; [done|].
    destruct (removeBackgroundFromDataUrl host defaultApiKey (String c rest) net)
      as [net1 outcome]. cbn [snd] in Hr. subst outcome. unfold undisturbed, consoleError.
    destruct st as [u p i b s d ps o f a]. cbn [uploadedImage] in Hu. subst u.
    app_simpl. repeat split; reflexivity.
Qed.

Example processImageWithPhotoroom_online_offline :
  processedImage
    (fst (processImageWithPhotoroom sampleHost 1700000000000
            undisturbed undisturbed undisturbed sampleState freshNet))
  = Some (mkProcessedImage "data:image/png;base64,iVBORw==" "blob:result"
            "processed_1700000000000.png") /\
  alerts
    (fst (processImageWithPhotoroom offlineHost 1700000000000
            undisturbed undisturbed undisturbed sampleState freshNet))
  = ["Failed to process image. Please try again."%string] /\
  consoleErrors
    (snd (processImageWithPhotoroom offlineHost 1700000000000
            undisturbed undisturbed undisturbed sampleState freshNet))
  = [("Photoroom API error:"%string, mkJsError "TypeError" "Failed to fetch");
     ("Processing failed:"%string, genericFailure)].
Proof. repeat split; vm_compute; reflexivity. Qed.

(** X29: a drop takes its first file only, and a file whose type does not
    start with image/ changes nothing but the drag highlight.  An image
    file is remembered at once; once it is read its data URL becomes the
    upload and any previous result is discarded, and while the read has not
    succeeded the previous upload and result stay. *)
Theorem upload_takes_first_image_only
    (file : File) (others : list File) (readResult : option string) (st : AppState) :
  handleDrop (file :: others) readResult st = handleDrop [file] readResult st /\
  handleFileSelect (file :: others) readResult st = handleFileUpload file readResult st /\
  dragActive (handleDrop (file :: others) readResult st) = false /\
  (String.prefix "image/" (fileType file) = false ->
   handleDrop (file :: others) readResult st = setDragActive false st /\
   handleFileUpload file readResult st = st) /\
  (String.prefix "image/" (fileType file) = true ->
   originalFile (handleFileUpload file readResult st) = Some file /\
   match readResult with
   | Some result =>
       uploadedImage (handleFileUpload file readResult st) = Some result /\
       processedImage (handleFileUpload file readResult st) = None
   | None =>
       uploadedImage (handleFileUpload file readResult st) = uploadedImage st /\
       processedImage (handleFileUpload file readResult st) = processedImage st
   end) /\
  handleDrop [] readResult st = setDragActive false st.
Proof.
  unfold handleDrop, handleFileSelect, handleFileUpload.
  destruct (String.prefix "image/" (fileType file)) eqn:E.
  - repeat split; try done; destruct readResult; done.
  - repeat split; try done; destruct readResult; done.
Qed.

Example upload_rejects_pdf :
  handleDrop [mkFile "notes.pdf" "application/pdf" [37; 80; 68; 70];
              mkFile "cat.png" "image/png" [137; 80; 78; 71]]
    (Some "data:application/pdf;base64,JVBERg=="%string) sampleState
  = sampleState.
Proof. vm_compute. reflexivity. Qed.


(** X30: [resetApp] clears the upload, the file, the result, the busy flag
    and the colour picker, keeps the chosen background colour and the
    alerts, and is idempotent; a click on "Remove Background" after it does
    nothing.  It does not cancel a call in flight: when the reset happens
    while the call waits for the service, the call still stores its result,
    so the page ends with a result and no upload. *)
Theorem resetApp_does_not_cancel
    (host : Host) (now : Z) (st : AppState) (net : Net) (uploaded url : string) :
  (uploadedImage (resetApp st) = None /\ originalFile (resetApp st) = None /\
   processedImage (resetApp st) = None /\ isProcessing (resetApp st) = false /\
   showColorPicker (resetApp st) = false /\
   backgroundColor (resetApp st) = backgroundColor st /\
   alerts (resetApp st) = alerts st /\
   resetApp (resetApp st) = resetApp st /\
   processImageWithPhotoroom host now undisturbed undisturbed undisturbed (resetApp st) net
   = (resetApp st, net)) /\
  (uploadedImage st = Some uploaded -> uploaded <> ""%string ->
   snd (removeBackgroundFromDataUrl host defaultApiKey uploaded net) = inr url ->
   let st' := fst (processImageWithPhotoroom host now undisturbed resetApp undisturbed st net) in
   uploadedImage st' = None /\
   processedImage st'
   = Some (mkProcessedImage uploaded url ("processed_" ++ numToString now ++ ".png")) /\
   processedImage
     (resetApp (fst (processImageWithPhotoroom host now
                       undisturbed undisturbed undisturbed st net)))
   = None).
Proof.
  split.
  - unfold processImageWithPhotoroom.
    destruct st as [u p i b s d ps o [f|] a]; app_simpl; repeat split; reflexivity.
  - intros Hu Hne Hr. cbv zeta. unfold processImageWithPhotoroom. rewrite Hu.
    destruct uploaded as [|c rest]; [done|].
    destruct (removeBackgroundFromDataUrl host defaultApiKey (String c rest) net)
      as [net1 outcome]. cbn [snd] in Hr. subst outcome.
    unfold undisturbed.
    destruct st as [u p i b s d ps o [f|] a]; app_simpl; repeat split; reflexivity.
Qed.

Lemma resetApp_does_not_cancel_witness :
  uploadedImage
    (fst (processImageWithPhotoroom sampleHost 1700000000000
            undisturbed resetApp undisturbed sampleState freshNet)) = None /\
  processedImage
    (fst (processImageWithPhotoroom sampleHost 1700000000000
            undisturbed resetApp undisturbed sampleState freshNet))
  = Some (mkProcessedImage "data:image/png;base64,iVBORw==" "blob:result"
            "processed_1700000000000.png") /\
  processedImage
    (resetApp (fst (processImageWithPhotoroom sampleHost 1700000000000
                      undisturbed undisturbed undisturbed sampleState freshNet)))
  = None.
Proof.
  refine (proj2 (resetApp_does_not_cancel sampleHost 1700000000000 sampleState freshNet
                   "data:image/png;base64,iVBORw==" "blob:result") _ _ _).
  - reflexivity.
  - discriminate.
  - vm_compute. reflexivity.
Defined.
